(** * Werewolf game master: a shallow embedding of [src/game]

    The development follows the Python sources file by file:
    - [PyText]     the [str] operations and the directive regular expression
                   used by [gm.py];
    - [models.py]  roles, player state, night outcome, vote record;
    - [chronicle.py] the chronicle and its eight methods;
    - [gm.py]      the game master: night, daybreak, day, vote, win test;
    - [cli.py]     the default configuration;
    - [llm.py]     the handlers of the rule-based sessions whose replies the
                   game master reads.

    Python [str] values are lists of Unicode code points, [dict]s whose
    iteration order the code relies on are insertion-ordered association
    lists, [Dict[int, RoundRecord]] is a [gmap], and the stateful methods
    of [GameMaster] live in a state-and-exception monad over the record of
    its attributes.  Agents (the [RuleBasedSession] or any other session
    behind [sessions[seat].interact]) are an oracle over the interaction
    history; what the rule-based handlers answer is modelled apart, as
    functions of the metadata they are sent. *)

From Stdlib Require Import ZArith List Lia Sorted DecimalPos.
From stdpp Require Import base list gmap.
From Equations Require Import Equations.

Local Open Scope Z_scope.

(** ** Python text *)

(** A [str] is its sequence of code points. *)
Definition text := list Z.

(** What the interpreter's Unicode database contributes.  [nd_zeros] lists
    the code point of the digit zero of every run of decimal digits (general
    category Nd) outside ASCII: each run is ten consecutive code points
    valued 0 to 9.  [isspace] is [str.isspace] on one character, the set
    [str.strip()] removes. *)
Class Unicode := {
  nd_zeros : list Z;
  isspace : Z -> bool
}.

(** The punctuation and words of the directive grammar. *)
Definition LQ : Z := 12304.   (* 【 *)
Definition RQ : Z := 12305.   (* 】 *)
Definition ZUO : Z := 24231.  (* 座 *)
Definition WEI : Z := 20301.  (* 位 *)

Definition kw_kill : text := [20987; 26432].      (* 击杀 *)
Definition kw_backup : text := [22791; 36873].    (* 备选 *)
Definition kw_heal : text := [25937; 20154].      (* 救人 *)
Definition kw_poison : text := [19979; 27602].    (* 下毒 *)
Definition kw_vote : text := [25237; 31080].      (* 投票 *)
Definition kw_shoot : text := [24320; 26538].     (* 开枪 *)

Definition bracketed (kw : text) : text := LQ :: kw ++ [RQ].

Definition SKIP : text := [91; 83; 75; 73; 80; 93].               (* [SKIP] *)
Definition no_summary : text := [26242; 26080; 25688; 35201].     (* 暂无摘要 *)

(** [str(n)] for an [int]. *)
Fixpoint uint_digits (d : Decimal.uint) : text :=
  match d with
  | Decimal.Nil => []
  | Decimal.D0 d => 48 :: uint_digits d
  | Decimal.D1 d => 49 :: uint_digits d
  | Decimal.D2 d => 50 :: uint_digits d
  | Decimal.D3 d => 51 :: uint_digits d
  | Decimal.D4 d => 52 :: uint_digits d
  | Decimal.D5 d => 53 :: uint_digits d
  | Decimal.D6 d => 54 :: uint_digits d
  | Decimal.D7 d => 55 :: uint_digits d
  | Decimal.D8 d => 56 :: uint_digits d
  | Decimal.D9 d => 57 :: uint_digits d
  end.

Definition str_int (n : Z) : text :=
  match Z.to_int n with
  | Decimal.Pos d => uint_digits d
  | Decimal.Neg d => 45 :: uint_digits d
  end.

(** [sep.join(parts)]. *)
Fixpoint join (sep : text) (parts : list text) : text :=
  match parts with
  | [] => []
  | [p] => p
  | p :: ps => p ++ sep ++ join sep ps
  end.

(** [str(l)] for a list of [int]: [[1, 2]]. *)
Definition str_int_list (l : list Z) : text :=
  91 :: join [44; 32] (map str_int l) ++ [93].

(** [s.startswith(p)] and [p in s]. *)
Fixpoint startswith (p s : text) : bool :=
  match p, s with
  | [], _ => true
  | _ :: _, [] => false
  | a :: p', b :: s' => (a =? b) && startswith p' s'
  end.

Fixpoint contains (p s : text) : bool :=
  startswith p s ||
  match s with
  | [] => false
  | _ :: s' => contains p s'
  end.

Section PyText.
Context {U : Unicode}.

(** The decimal digit a character denotes, if it is one: what [\d] accepts
    in a [str] pattern and what [int] makes of it. *)
Fixpoint digit_in (zeros : list Z) (c : Z) : option Z :=
  match zeros with
  | [] => None
  | z :: zs => if (z <=? c) && (c <=? z + 9) then Some (c - z) else digit_in zs c
  end.

Definition digit_of (c : Z) : option Z := digit_in (48 :: nd_zeros) c.

(** [int(s)] for a one-character string [s] that [\d] matched. *)
Definition int_digit (c : Z) : Z := default 0 (digit_of c).

(** [s.strip()]. *)
Fixpoint lstrip (s : text) : text :=
  match s with
  | c :: s' => if isspace c then lstrip s' else s
  | [] => []
  end.

Definition strip (s : text) : text := rev (lstrip (rev (lstrip s))).

(** [s.splitlines()]: the line boundaries of [str], with [\r\n] taken as
    one; no empty last line. *)
Definition is_linebreak (c : Z) : bool :=
  bool_decide (c ∈ [10; 11; 12; 13; 28; 29; 30; 133; 8232; 8233]).

Fixpoint splitlines_from (after_cr : bool) (cur : text) (s : text) : list text :=
  match s with
  | [] => match cur with [] => [] | _ => [rev cur] end
  | c :: s' =>
      if after_cr && (c =? 10) then splitlines_from false cur s'
      else if is_linebreak c then rev cur :: splitlines_from (c =? 13) [] s'
      else splitlines_from false (c :: cur) s'
  end.

Definition splitlines (s : text) : list text := splitlines_from false [] s.

(** *** The directive pattern

    [DIRECTIVE_PATTERN = 【(?P<action>[^】]+)】座位(?P<seat>\d)].
    After the opening bracket the greedy class [[^】]+] runs up to the next
    closing bracket or the end of the text; giving characters back cannot
    help, since the pattern then wants a closing bracket where the text has
    a character of the class.  So an attempt at a position either matches
    with the whole run as the action or fails. *)
Record Match := { m_action : text; m_seat : Z }.

Fixpoint span_action (s : text) : text * text :=
  match s with
  | [] => ([], [])
  | c :: s' =>
      if c =? RQ then ([], s)
      else let '(a, r) := span_action s' in (c :: a, r)
  end.

(** One attempt at the head of [s]: the match and the text after it. *)
Definition match_here (s : text) : option (Match * text) :=
  match s with
  | c :: s1 =>
      if c =? LQ then
        match span_action s1 with
        | (c1 :: a, _ :: zuo :: wei :: d :: rest) =>
            if (zuo =? ZUO) && (wei =? WEI) && bool_decide (is_Some (digit_of d))
            then Some ({| m_action := c1 :: a; m_seat := d |}, rest)
            else None
        | _ => None
        end
      else None
  | [] => None
  end.

Definition inspect {A} (a : A) : {b : A | a = b} := exist _ a eq_refl.

(** [DIRECTIVE_PATTERN.finditer(s)]: the leftmost match from the current
    position, then on from the end of that match (a match is never empty);
    where no match starts, one character further. *)
Equations? finditer (s : text) : list Match by wf (length s) lt :=
  finditer [] := [];
  finditer (c :: s') with inspect (match_here (c :: s')) := {
    | exist _ (Some (m, rest)) _ => m :: finditer rest;
    | exist _ None _ => finditer s' }.
Proof.
  assert (Hspan : forall t a r, span_action t = (a, r) ->
                                (length r <= length t)%nat).
  { induction t as [|x t IH]; intros a r; simpl.
    - intros [= <- <-]. simpl. lia.
    - destruct (x =? RQ).
      + intros [= <- <-]. simpl. lia.
      + destruct (span_action t) as [a' r'] eqn:E. intros [= <- <-].
        specialize (IH _ _ eq_refl). lia. }
  simpl in e. destruct (c =? LQ); [|discriminate].
    destruct (span_action s') as [a r] eqn:E.
    apply Hspan in E.
    destruct a as [|c1 a]; [discriminate|].
    destruct r as [|r0 [|zuo [|wei [|d r]]]]; try discriminate.
    destruct (_ && _); [|discriminate].
    injection e as _ <-. simpl in *. lia.
Qed.

End PyText.

(** ** Insertion-ordered dictionaries

    A Python [dict] iterates in insertion order; assigning to a key that is
    present keeps its place. *)
Definition odict (V : Type) := list (Z * V).

Section ODict.
Context {V : Type}.

Fixpoint od_get (k : Z) (d : odict V) : option V :=
  match d with
  | [] => None
  | (k', v) :: d' => if k' =? k then Some v else od_get k d'
  end.

Fixpoint od_set (k : Z) (v : V) (d : odict V) : odict V :=
  match d with
  | [] => [(k, v)]
  | (k', v') :: d' => if k' =? k then (k', v) :: d' else (k', v') :: od_set k v d'
  end.

Definition od_keys (d : odict V) : list Z := map fst d.
Definition od_values (d : odict V) : list V := map snd d.

End ODict.

(** ** models.py *)

Inductive Role := WOLF | WITCH | HUNTER | VILLAGER.

Definition Role_eqb (a b : Role) : bool :=
  match a, b with
  | WOLF, WOLF | WITCH, WITCH | HUNTER, HUNTER | VILLAGER, VILLAGER => true
  | _, _ => false
  end.

Record SeatConfig := {
  sc_seat_id : Z;
  sc_role : Role;
  sc_persona : text;
  sc_dialect : text
}.

(** The ["potions"] entry of a witch's [role_private]. *)
Record Potions := { heal_left : Z; poison_left : Z }.

(** [role_private]: the keys the game master writes. *)
Record RolePrivate := {
  is_wolf : bool;
  wolf_mates : list Z;
  potions : option Potions
}.

(** An entry of [notes]: [{"r": round, "d": "day", "bullets": [...]}]. *)
Record Note := { note_r : Z; note_d : text; bullets : list text }.

Record PlayerState := {
  seat_id : Z;
  role : Role;
  persona : text;
  dialect : text;
  alive : bool;
  trust : odict Z;
  notes : list Note;
  role_private : RolePrivate;
  hunter_has_shot : bool
}.

Definition set_alive (b : bool) (p : PlayerState) : PlayerState :=
  {| seat_id := seat_id p; role := role p; persona := persona p;
     dialect := dialect p; alive := b; trust := trust p; notes := notes p;
     role_private := role_private p; hunter_has_shot := hunter_has_shot p |}.

Definition set_hunter_has_shot (b : bool) (p : PlayerState) : PlayerState :=
  {| seat_id := seat_id p; role := role p; persona := persona p;
     dialect := dialect p; alive := alive p; trust := trust p; notes := notes p;
     role_private := role_private p; hunter_has_shot := b |}.

Definition set_role_private (rp : RolePrivate) (p : PlayerState) : PlayerState :=
  {| seat_id := seat_id p; role := role p; persona := persona p;
     dialect := dialect p; alive := alive p; trust := trust p; notes := notes p;
     role_private := rp; hunter_has_shot := hunter_has_shot p |}.

Definition add_note (n : Note) (p : PlayerState) : PlayerState :=
  {| seat_id := seat_id p; role := role p; persona := persona p;
     dialect := dialect p; alive := alive p; trust := trust p;
     notes := notes p ++ [n];
     role_private := role_private p; hunter_has_shot := hunter_has_shot p |}.

(** [ensure_trust_initialised]: [trust.setdefault(sid, 50)] for every seat. *)
Definition ensure_trust_initialised (seats : list Z) (p : PlayerState) : PlayerState :=
  {| seat_id := seat_id p; role := role p; persona := persona p;
     dialect := dialect p; alive := alive p;
     trust := fold_left (fun t sid => match od_get sid t with
                                      | Some _ => t
                                      | None => od_set sid 50 t
                                      end) seats (trust p);
     notes := notes p;
     role_private := role_private p; hunter_has_shot := hunter_has_shot p |}.

Record GameConfig := {
  seating_plan : list SeatConfig;
  max_rounds : Z
}.

Definition seat_ids (c : GameConfig) : list Z := map sc_seat_id (seating_plan c).

Record VoteRecord := {
  vr_round_no : Z;
  vr_votes : odict (option Z);
  vr_lynched : option Z
}.

Record NightOutcome := {
  kill_target : option Z;
  healed_target : option Z;
  poisoned_target : option Z
}.

(** [NightOutcome()]. *)
Definition NightOutcome_new : NightOutcome :=
  {| kill_target := None; healed_target := None; poisoned_target := None |}.

(** ** chronicle.py *)

(** Night events: [{"t": f"N{round}_<kind>", "from": ..., "target": ...}]. *)
Inductive NightEventKind :=
  wolf_vote | wolf_backup | kill | witch_heal | witch_poison | witch_idle.

Record NightEvent := {
  ev_round : Z;
  ev_kind : NightEventKind;
  ev_from : option Z;
  ev_target : option Z
}.

Record Utterance := { u_seat : Z; u_idx : Z; u_text : text; u_one_line : text }.

Record DayRecord := {
  order : list Z;
  utterances : list Utterance;
  votes : list (Z * option Z);          (* {"from": seat, "to": target} *)
  lynch : option Z;
  summary_10 : list text
}.

Record NightRecord := {
  events : list NightEvent;
  summary_5 : list text
}.

Record RoundRecord := {
  round : Z;
  night : NightRecord;
  day : DayRecord
}.

Record Chronicle := {
  seats : list Z;
  rounds : gmap Z RoundRecord;
  global_summary : list text
}.

Definition first_night : text := [39318; 22812; 36827; 34892; 20013; 12290]. (* 首夜进行中。 *)

(** [Chronicle(seats=...)] with the dataclass defaults. *)
Definition Chronicle_new (seats : list Z) : Chronicle :=
  {| seats := seats; rounds := ∅; global_summary := [first_night] |}.

Definition DayRecord_new (order : list Z) : DayRecord :=
  {| order := order; utterances := []; votes := []; lynch := None; summary_10 := [] |}.

Definition NightRecord_new : NightRecord := {| events := []; summary_5 := [] |}.

Definition set_rounds (r : gmap Z RoundRecord) (c : Chronicle) : Chronicle :=
  {| seats := seats c; rounds := r; global_summary := global_summary c |}.

Definition set_day (d : DayRecord) (r : RoundRecord) : RoundRecord :=
  {| round := round r; night := night r; day := d |}.

Definition set_night (n : NightRecord) (r : RoundRecord) : RoundRecord :=
  {| round := round r; night := n; day := day r |}.

(** [ensure_round]; the record it returns is [rounds[round_no]] of the
    result. *)
Definition ensure_round (round_no : Z) (order : option (list Z)) (c : Chronicle) : Chronicle :=
  match rounds c !! round_no with
  | None =>
      set_rounds (<[round_no := {| round := round_no; night := NightRecord_new;
                                   day := DayRecord_new (default [] order) |}]> (rounds c)) c
  | Some r =>
      match order with
      | Some o =>
          set_rounds (<[round_no := set_day {| order := o; utterances := utterances (day r);
                                               votes := votes (day r); lynch := lynch (day r);
                                               summary_10 := summary_10 (day r) |} r]> (rounds c)) c
      | None => c
      end
  end.

(** [record = self.ensure_round(round_no)] followed by an update of that
    record in place. *)
Definition on_round (round_no : Z) (f : RoundRecord -> RoundRecord) (c : Chronicle) : Chronicle :=
  let c' := ensure_round round_no None c in
  set_rounds (alter f round_no (rounds c')) c'.

Definition log_night_event (round_no : Z) (event : NightEvent) (c : Chronicle) : Chronicle :=
  on_round round_no
    (fun r => set_night {| events := events (night r) ++ [event];
                           summary_5 := summary_5 (night r) |} r) c.

Definition set_night_summary (round_no : Z) (summary : list text) (c : Chronicle) : Chronicle :=
  on_round round_no
    (fun r => set_night {| events := events (night r);
                           summary_5 := take 5 summary |} r) c.

Definition add_day_utterance (round_no seat idx : Z) (txt one_line : text) (c : Chronicle) : Chronicle :=
  on_round round_no
    (fun r => set_day {| order := order (day r);
                         utterances := utterances (day r) ++
                           [{| u_seat := seat; u_idx := idx; u_text := txt; u_one_line := one_line |}];
                         votes := votes (day r); lynch := lynch (day r);
                         summary_10 := summary_10 (day r) |} r) c.

Definition add_vote (round_no from_seat : Z) (to_seat : option Z) (c : Chronicle) : Chronicle :=
  on_round round_no
    (fun r => set_day {| order := order (day r); utterances := utterances (day r);
                         votes := votes (day r) ++ [(from_seat, to_seat)];
                         lynch := lynch (day r); summary_10 := summary_10 (day r) |} r) c.

Definition set_lynch (round_no : Z) (seat : option Z) (c : Chronicle) : Chronicle :=
  on_round round_no
    (fun r => set_day {| order := order (day r); utterances := utterances (day r);
                         votes := votes (day r); lynch := seat;
                         summary_10 := summary_10 (day r) |} r) c.

Definition append_day_summary (round_no : Z) (summary : text) (c : Chronicle) : Chronicle :=
  on_round round_no
    (fun r =>
       if bool_decide (summary ∈ summary_10 (day r)) then r
       else set_day {| order := order (day r); utterances := utterances (day r);
                       votes := votes (day r); lynch := lynch (day r);
                       summary_10 := take 10 (summary_10 (day r) ++ [summary]) |} r) c.

Definition refresh_global_summary (txt : text) (c : Chronicle) : Chronicle :=
  if bool_decide (txt ∈ global_summary c) then c
  else
    let g := global_summary c ++ [txt] in
    {| seats := seats c; rounds := rounds c;
       global_summary := if (6 <? Z.of_nat (length g)) then drop (length g - 6) g else g |}.

(** ** gm.py: the state of a [GameMaster] *)

(** The stage templates the game master sends. *)
Inductive Stage :=
  | stage_wolf_intro | stage_life_check | stage_context
  | stage_chronicle_digest | stage_your_notes
  | stage_night_wolves | stage_night_witch
  | stage_opening | stage_day_talk | stage_write_notes | stage_vote
  | stage_hunter_trigger
  | stage_postgame_context | stage_postgame_roundup | stage_postgame_roast.

(** An entry of [_log].  The rendered prompt is produced by the prompt
    repository from the stage metadata and is only stored and displayed;
    the game master never reads it back, and it is left out here together
    with the metadata builders. *)
Record StageResult := {
  sr_seat : Z;
  sr_stage : Stage;
  sr_response : option text
}.

(** The [cause] handed to the hunter trigger; it only reaches the prompt. *)
Inductive Cause := cause_night | cause_lynch.

(** [_result]. *)
Inductive GameResult := ongoing | villagers_win | wolves_win.

(** What the game master prints, one constructor per [print] call. *)
Inductive Printed :=
  | P_stage (seat : Z) (stage : Stage) (response : option text)
  | P_game_start
  | P_daybreak (deaths : list Z)
  | P_lynched (lynched top_count : Z)
  | P_no_lynch
  | P_hunter_shot (seat target : Z)
  | P_hunter_pass (seat : Z)
  | P_game_over (result : GameResult).

(** The attributes of [GameMaster].  [rng] is the state of the shared
    [random.Random]; [stdout] is the console. *)
Record GameMaster := {
  config : GameConfig;
  rng : Z;
  players : odict PlayerState;
  chronicle : Chronicle;
  round_no : Z;
  _night_outcome : option NightOutcome;
  _day_spoken : odict bool;
  _vote_record : option VoteRecord;
  _log : list StageResult;
  _result : GameResult;
  stdout : list Printed
}.

Definition set_rng (x : Z) (g : GameMaster) : GameMaster :=
  {| config := config g; rng := x; players := players g; chronicle := chronicle g;
     round_no := round_no g; _night_outcome := _night_outcome g;
     _day_spoken := _day_spoken g; _vote_record := _vote_record g;
     _log := _log g; _result := _result g; stdout := stdout g |}.

Definition set_players (x : odict PlayerState) (g : GameMaster) : GameMaster :=
  {| config := config g; rng := rng g; players := x; chronicle := chronicle g;
     round_no := round_no g; _night_outcome := _night_outcome g;
     _day_spoken := _day_spoken g; _vote_record := _vote_record g;
     _log := _log g; _result := _result g; stdout := stdout g |}.

Definition set_chronicle (x : Chronicle) (g : GameMaster) : GameMaster :=
  {| config := config g; rng := rng g; players := players g; chronicle := x;
     round_no := round_no g; _night_outcome := _night_outcome g;
     _day_spoken := _day_spoken g; _vote_record := _vote_record g;
     _log := _log g; _result := _result g; stdout := stdout g |}.

Definition set_round_no (x : Z) (g : GameMaster) : GameMaster :=
  {| config := config g; rng := rng g; players := players g; chronicle := chronicle g;
     round_no := x; _night_outcome := _night_outcome g;
     _day_spoken := _day_spoken g; _vote_record := _vote_record g;
     _log := _log g; _result := _result g; stdout := stdout g |}.

Definition set_night_outcome (x : option NightOutcome) (g : GameMaster) : GameMaster :=
  {| config := config g; rng := rng g; players := players g; chronicle := chronicle g;
     round_no := round_no g; _night_outcome := x;
     _day_spoken := _day_spoken g; _vote_record := _vote_record g;
     _log := _log g; _result := _result g; stdout := stdout g |}.

Definition set_day_spoken (x : odict bool) (g : GameMaster) : GameMaster :=
  {| config := config g; rng := rng g; players := players g; chronicle := chronicle g;
     round_no := round_no g; _night_outcome := _night_outcome g;
     _day_spoken := x; _vote_record := _vote_record g;
     _log := _log g; _result := _result g; stdout := stdout g |}.

Definition set_vote_record (x : option VoteRecord) (g : GameMaster) : GameMaster :=
  {| config := config g; rng := rng g; players := players g; chronicle := chronicle g;
     round_no := round_no g; _night_outcome := _night_outcome g;
     _day_spoken := _day_spoken g; _vote_record := x;
     _log := _log g; _result := _result g; stdout := stdout g |}.

Definition set_log (x : list StageResult) (g : GameMaster) : GameMaster :=
  {| config := config g; rng := rng g; players := players g; chronicle := chronicle g;
     round_no := round_no g; _night_outcome := _night_outcome g;
     _day_spoken := _day_spoken g; _vote_record := _vote_record g;
     _log := x; _result := _result g; stdout := stdout g |}.

Definition set_result (x : GameResult) (g : GameMaster) : GameMaster :=
  {| config := config g; rng := rng g; players := players g; chronicle := chronicle g;
     round_no := round_no g; _night_outcome := _night_outcome g;
     _day_spoken := _day_spoken g; _vote_record := _vote_record g;
     _log := _log g; _result := x; stdout := stdout g |}.

Definition set_stdout (x : list Printed) (g : GameMaster) : GameMaster :=
  {| config := config g; rng := rng g; players := players g; chronicle := chronicle g;
     round_no := round_no g; _night_outcome := _night_outcome g;
     _day_spoken := _day_spoken g; _vote_record := _vote_record g;
     _log := _log g; _result := _result g; stdout := x |}.

(** ** The monad of the methods: state and exceptions *)

Inductive Exn :=
  | KeyError (key : Z)          (* [self.players[seat]] on a missing seat *)
  | AttributeError.             (* an attribute of [None] *)

Inductive Outcome (A : Type) :=
  | Ret (a : A) (g : GameMaster)
  | Raise (e : Exn) (g : GameMaster).
Arguments Ret {A} a g.
Arguments Raise {A} e g.

Definition M (A : Type) := GameMaster -> Outcome A.

Definition ret {A} (a : A) : M A := fun g => Ret a g.

Definition bind {A B} (m : M A) (k : A -> M B) : M B :=
  fun g => match m g with
           | Ret a g' => k a g'
           | Raise e g' => Raise e g'
           end.

Definition raise {A} (e : Exn) : M A := fun g => Raise e g.
Definition get : M GameMaster := fun g => Ret g g.
Definition modify (f : GameMaster -> GameMaster) : M unit := fun g => Ret tt (f g).

Notation "x <- m ;; k" := (bind m (fun x => k))
  (at level 100, m at next level, right associativity).
Notation "m ;;; k" := (bind m (fun _ => k))
  (at level 100, right associativity).

(** A [for] loop whose body may [continue] (by returning early). *)
Fixpoint for_each {X} (l : list X) (body : X -> M unit) : M unit :=
  match l with
  | [] => ret tt
  | x :: l' => body x ;;; for_each l' body
  end.

(** A [for] loop that carries a local variable. *)
Fixpoint for_fold {X S} (l : list X) (s : S) (body : S -> X -> M S) : M S :=
  match l with
  | [] => ret s
  | x :: l' => s' <- body s x ;; for_fold l' s' body
  end.

Definition print (p : Printed) : M unit :=
  modify (fun g => set_stdout (stdout g ++ [p]) g).

Definition on_chronicle (f : Chronicle -> Chronicle) : M unit :=
  modify (fun g => set_chronicle (f (chronicle g)) g).

(** ** The environment of a match

    [interact history seat stage expect_response rng] is what
    [self.sessions[seat].interact(...)] returns at this point of the match,
    and the state it leaves the random source in (the rule-based sessions
    draw from the game master's own [random.Random]).  [rng_choice rng n]
    is the index [rng.choice] picks in a sequence of length [n], and the
    next state of the source. *)
Class Env := {
  interact : list StageResult -> Z -> Stage -> bool -> Z -> option text * Z;
  rng_choice : Z -> nat -> nat * Z
}.

(** [Counter(iterable)]: [mapping[elem] = mapping.get(elem, 0) + 1] in
    iteration order, so keys are kept in first-seen order. *)
Definition Counter (l : list Z) : odict Z :=
  fold_left (fun c x => od_set x (default 0 (od_get x c) + 1) c) l [].

(** [max(items, key=itemgetter(1))]: the first item with the largest
    count ([max] replaces its candidate only by a strictly greater one). *)
Fixpoint max_by_count (best : Z * Z) (l : list (Z * Z)) : Z * Z :=
  match l with
  | [] => best
  | x :: l' => max_by_count (if snd best <? snd x then x else best) l'
  end.

(** [most_common(1)], that is [heapq.nlargest(1, items, key=count)],
    which for [n == 1] is [max]. *)
Definition most_common_1 (c : odict Z) : list (Z * Z) :=
  match c with
  | [] => []
  | x :: l => [max_by_count x l]
  end.

(** [most_common()]: [sorted(items, key=count, reverse=True)], a stable
    sort, so equal counts stay in first-seen order. *)
Fixpoint insert_desc (x : Z * Z) (l : list (Z * Z)) : list (Z * Z) :=
  match l with
  | [] => [x]
  | y :: l' => if snd y <=? snd x then x :: l else y :: insert_desc x l'
  end.

Definition most_common (c : odict Z) : list (Z * Z) :=
  foldr insert_desc [] c.

(** Truthiness of an [Optional[str]]. *)
Definition truthy (r : option text) : bool :=
  match r with
  | Some (_ :: _) => true
  | _ => false
  end.

Section GM.
Context {U : Unicode} {E : Env}.

(** *** Utilities *)

(** [_send_stage] after [setup]: every stage has its template in the
    prompt repository and every seat of the roster has its session, so
    rendering and the session lookup succeed; what remains is the
    session's answer, the display and the log entry. *)
Definition _send_stage (seat : Z) (stage : Stage) (expect_response : bool)
  : M (option text) :=
  fun g =>
    let '(response, rng') := interact (_log g) seat stage expect_response (rng g) in
    Ret response
        (set_log (_log g ++ [{| sr_seat := seat; sr_stage := stage;
                                sr_response := response |}])
           (set_stdout (stdout g ++ [P_stage seat stage response])
              (set_rng rng' g))).

Definition _alive_seats (g : GameMaster) : list Z :=
  map fst (List.filter (fun sp => alive (snd sp)) (players g)).

Definition _wolves_alive (g : GameMaster) : list Z :=
  map fst (List.filter (fun sp => alive (snd sp) && Role_eqb (role (snd sp)) WOLF)
             (players g)).

(** [self.players[seat]]. *)
Definition _player (seat : Z) : M PlayerState :=
  fun g => match od_get seat (players g) with
           | Some p => Ret p g
           | None => Raise (KeyError seat) g
           end.

(** [self.players[seat].<attr> = ...], as a change [f] of that player. *)
Definition player_setattr (seat : Z) (f : PlayerState -> PlayerState) : M unit :=
  p <- _player seat ;;
  modify (fun g => set_players (od_set seat (f p) (players g)) g).

Fixpoint first_directive (keyword : text) (ms : list Match) : option Z :=
  match ms with
  | [] => None
  | m :: ms' =>
      if bool_decide (m_action m = keyword) then Some (int_digit (m_seat m))
      else first_directive keyword ms'
  end.

Definition _parse_directive (txt keyword : text) : option Z :=
  first_directive keyword (finditer txt).

Definition _extract_notes (txt : text) : list text :=
  take 5 (omap (fun line =>
                  let line := strip line in
                  if startswith [45; 32] line && (2 <? Z.of_nat (length line))
                  then Some (drop 2 line) else None)
               (splitlines txt)).

Definition _one_line_summary (txt : text) : text :=
  let first_line := match strip txt with
                    | [] => []
                    | s => hd [] (splitlines s)
                    end in
  match first_line with
  | [] => no_summary
  | _ => take 60 first_line
  end.

(** [response and response.strip() == "[SKIP]"]. *)
Definition is_skip (response : option text) : bool :=
  match response with
  | Some r => truthy response && bool_decide (strip r = SKIP)
  | None => false
  end.

(** *** Helpers *)

Definition hunter_shot_summary (seat target : Z) : text :=
  [29454; 20154] ++ str_int seat ++ [21495; 26538; 26432; 65306]
    ++ str_int target ++ [21495].                 (* 猎人{seat}号枪杀：{target}号 *)

Definition _trigger_hunter_if_needed (seat : Z) (cause : Cause) : M unit :=
  g <- get ;;
  match od_get seat (players g) with
  | None => ret tt
  | Some player =>
      if negb (Role_eqb (role player) HUNTER) || hunter_has_shot player then ret tt
      else
        response <- _send_stage seat stage_hunter_trigger true ;;
        match response with
        | Some (c :: r) =>
            let response := c :: r in
            (if contains (bracketed kw_shoot) response then
               match _parse_directive response kw_shoot with
               | Some target =>
                   g1 <- get ;;
                   if alive (default player (od_get target (players g1))) then
                     player_setattr target (set_alive false) ;;;
                     print (P_hunter_shot seat target) ;;;
                     on_chronicle (refresh_global_summary (hunter_shot_summary seat target))
                   else ret tt
               | None => ret tt
               end
             else print (P_hunter_pass seat)) ;;;
            player_setattr seat (set_hunter_has_shot true)
        | _ => ret tt
        end
  end.

(** The list [deaths] of [_resolve_deaths]: the kill target unless healed,
    then the poisoned target. *)
Definition night_deaths (outcome : NightOutcome) : list Z :=
  match kill_target outcome with
  | Some k => if bool_decide (healed_target outcome = Some k) then [] else [k]
  | None => []
  end ++
  match poisoned_target outcome with
  | Some p => [p]
  | None => []
  end.

(** The loop that builds [unique_deaths]. *)
Definition unique_deaths (g : GameMaster) (deaths : list Z) : list Z :=
  fold_left (fun unique seat =>
               if negb (bool_decide (seat ∈ unique)) &&
                  match od_get seat (players g) with
                  | Some p => alive p
                  | None => false
                  end
               then unique ++ [seat] else unique)
            deaths [].

Definition _resolve_deaths : M (list Z) :=
  g <- get ;;
  match _night_outcome g with
  | None => ret []
  | Some outcome =>
      let unique_deaths := unique_deaths g (night_deaths outcome) in
      for_each unique_deaths (fun seat => player_setattr seat (set_alive false)) ;;;
      ret unique_deaths
  end.

Definition wolves_alive_count (g : GameMaster) : Z :=
  Z.of_nat (length (List.filter (fun p => alive p && Role_eqb (role p) WOLF)
                      (od_values (players g)))).

Definition villagers_alive_count (g : GameMaster) : Z :=
  Z.of_nat (length (List.filter (fun p => alive p && negb (Role_eqb (role p) WOLF))
                      (od_values (players g)))).

Definition _is_finished : M bool :=
  g <- get ;;
  let wolves_alive := wolves_alive_count g in
  let villagers_alive := villagers_alive_count g in
  if wolves_alive =? 0 then
    modify (set_result villagers_win) ;;; ret true
  else if villagers_alive <=? wolves_alive then
    modify (set_result wolves_win) ;;; ret true
  else ret false.

(** [self._night_outcome.<attr> = ...]. *)
Definition outcome_setattr (f : NightOutcome -> NightOutcome) : M unit :=
  g <- get ;;
  match _night_outcome g with
  | Some o => modify (set_night_outcome (Some (f o)))
  | None => raise AttributeError
  end.

Definition night_event (g : GameMaster) (k : NightEventKind) (from target : option Z)
  : NightEvent :=
  {| ev_round := round_no g; ev_kind := k; ev_from := from; ev_target := target |}.

Definition log_event (k : NightEventKind) (from target : option Z) : M unit :=
  modify (fun g => set_chronicle
                     (log_night_event (round_no g) (night_event g k from target)
                        (chronicle g)) g).

(** The three context stages sent before most decisions. *)
Definition send_briefing (seat : Z) : M unit :=
  _send_stage seat stage_context false ;;;
  _send_stage seat stage_chronicle_digest false ;;;
  _send_stage seat stage_your_notes false ;;;
  ret tt.

(** *** Phases *)

(** The loop of [_night_wolves] over the alive wolves; [wolf_votes] is the
    local list it fills. *)
Definition wolf_turn (wolf_votes : list Z) (wid : Z) : M (list Z) :=
  player <- _player wid ;;
  response <- _send_stage wid stage_life_check true ;;
  if is_skip response then ret wolf_votes
  else
    send_briefing wid ;;;
    action <- _send_stage wid stage_night_wolves true ;;
    match action with
    | Some (c :: a) =>
        let action := c :: a in
        wolf_votes' <-
          match _parse_directive action kw_kill with
          | Some target =>
              log_event wolf_vote (Some wid) (Some target) ;;;
              ret (wolf_votes ++ [target])
          | None => ret wolf_votes
          end ;;
        match _parse_directive action kw_backup with
        | Some backup => log_event wolf_backup (Some wid) (Some backup)
        | None => ret tt
        end ;;;
        ret wolf_votes'
    | _ => ret wolf_votes
    end.

(** The end of [_night_wolves]: the tally of the votes. *)
Definition wolves_tally (wolf_votes : list Z) : M unit :=
  match most_common_1 (Counter wolf_votes) with
  | (target, _) :: _ =>
      outcome_setattr (fun o => {| kill_target := Some target;
                                   healed_target := healed_target o;
                                   poisoned_target := poisoned_target o |}) ;;;
      log_event kill None (Some target)
  | [] => ret tt                             (* [if wolf_votes:] fails *)
  end.

Definition _night_wolves : M unit :=
  g <- get ;;
  wolf_votes <- for_fold (_wolves_alive g) [] wolf_turn ;;
  wolves_tally wolf_votes.

Definition first_witch (g : GameMaster) : option Z :=
  head (map fst (List.filter (fun sp => Role_eqb (role (snd sp)) WITCH) (players g))).

(** [witch.role_private["potions"] = potions]. *)
Definition store_potions (witch_seat : Z) (p : Potions) : M unit :=
  player_setattr witch_seat
    (fun w => set_role_private
                {| is_wolf := is_wolf (role_private w);
                   wolf_mates := wolf_mates (role_private w);
                   potions := Some p |} w).

(** [potions[...] = ...] on the local [potions]: when it is the dictionary
    held in [role_private] the witch's state changes at once; when it is
    the default built by [.get] nothing is shared yet. *)
Definition mutate_potions (witch_seat : Z) (witch : PlayerState) (p : Potions) : M unit :=
  match potions (role_private witch) with
  | Some _ => store_potions witch_seat p
  | None => ret tt
  end.

Definition _night_witch : M unit :=
  g <- get ;;
  match first_witch g with
  | None | Some 0 => ret tt                  (* [if not witch_seat] *)
  | Some witch_seat =>
      witch <- _player witch_seat ;;
      if negb (alive witch) then ret tt
      else
        let potions0 := default {| heal_left := 0; poison_left := 0 |}
                          (potions (role_private witch)) in
        response <- _send_stage witch_seat stage_life_check true ;;
        if is_skip response then ret tt
        else
          send_briefing witch_seat ;;;
          witch_action <- _send_stage witch_seat stage_night_witch true ;;
          match witch_action with
          | Some (c :: a) =>
              let witch_action := c :: a in
              potions1 <-
                (if contains (bracketed kw_heal) witch_action && (0 <? heal_left potions0) then
                   match _parse_directive witch_action kw_heal with
                   | Some target =>
                       let potions1 := {| heal_left := Z.max 0 (heal_left potions0 - 1);
                                          poison_left := poison_left potions0 |} in
                       mutate_potions witch_seat witch potions1 ;;;
                       outcome_setattr (fun o => {| kill_target := kill_target o;
                                                    healed_target := Some target;
                                                    poisoned_target := poisoned_target o |}) ;;;
                       log_event witch_heal None (Some target) ;;;
                       ret potions1
                   | None => ret potions0
                   end
                 else if contains (bracketed kw_poison) witch_action
                         && (0 <? poison_left potions0) then
                   match _parse_directive witch_action kw_poison with
                   | Some target =>
                       let potions1 := {| heal_left := heal_left potions0;
                                          poison_left := Z.max 0 (poison_left potions0 - 1) |} in
                       mutate_potions witch_seat witch potions1 ;;;
                       outcome_setattr (fun o => {| kill_target := kill_target o;
                                                    healed_target := healed_target o;
                                                    poisoned_target := Some target |}) ;;;
                       log_event witch_poison None (Some target) ;;;
                       ret potions1
                   | None => ret potions0
                   end
                 else
                   log_event witch_idle None None ;;; ret potions0) ;;
              store_potions witch_seat potions1
          | _ => ret tt
          end
  end.

(** [x if x else alt] inside an f-string, for an [Optional[int]]. *)
Definition str_or (x : option Z) (alt : text) : text :=
  match x with
  | None | Some 0 => alt
  | Some n => str_int n
  end.

Definition night_summary (o : NightOutcome) : list text :=
  [ [29436; 20992; 30446; 26631; 65306] ++ str_or (kill_target o) [26410; 30830; 23450];
    [22899; 24043; 25937; 65306] ++ str_or (healed_target o) [26410; 29992];
    [22899; 24043; 27602; 65306] ++ str_or (poisoned_target o) [26410; 29992] ].

Definition _night_phase : M unit :=
  modify (set_night_outcome (Some NightOutcome_new)) ;;;
  _night_wolves ;;;
  _night_witch ;;;
  g <- get ;;
  match _night_outcome g with
  | Some o => on_chronicle (set_night_summary (round_no g) (night_summary o))
  | None => raise AttributeError
  end.

Definition daybreak_summary (round_no : Z) (deaths : list Z) : text :=
  [31532] ++ str_int round_no ++ [22812; 32467; 31639; 65306; 27515; 20129; 32]
    ++ match deaths with
       | [] => [26080]
       | _ => str_int_list deaths
       end.                                   (* 第{round}夜结算：死亡 {deaths or 无} *)

Definition _daybreak : M unit :=
  deaths <- _resolve_deaths ;;
  print (P_daybreak deaths) ;;;
  for_each deaths (fun seat => _trigger_hunter_if_needed seat cause_night) ;;;
  g <- get ;;
  on_chronicle (refresh_global_summary (daybreak_summary (round_no g) deaths)).

(** [self.rng.choice(seq)] on a non-empty sequence. *)
Definition rng_pick (l : list Z) : M Z :=
  fun g =>
    let '(i, rng') := rng_choice (rng g) (length l) in
    Ret (nth (i mod length l)%nat l 0) (set_rng rng' g).

(** The vote a seat ends up with, given its reply: lines 400 to 404 of
    [_voting]. *)
Definition parse_vote (vote : option text) : option Z :=
  match vote with
  | Some (c :: v) => _parse_directive (c :: v) kw_vote
  | _ => None                                (* [vote] is [None] or empty *)
  end.

Definition resolve_vote (g : GameMaster) (vote : option text) : option Z :=
  let target := parse_vote vote in
  let target_player := match target with
                       | Some t => od_get t (players g)
                       | None => None
                       end in
  match target_player with
  | Some p => if alive p then target else head (_wolves_alive g)
  | None => head (_wolves_alive g)
  end.

(** One turn of the loop of [_voting]. *)
Definition vote_turn (vote_record : VoteRecord) (seat : Z) : M VoteRecord :=
  player <- _player seat ;;
  if negb (alive player) then ret vote_record
  else
    _send_stage seat stage_life_check true ;;;
    send_briefing seat ;;;
    vote <- _send_stage seat stage_vote true ;;
    g <- get ;;
    let target := resolve_vote g vote in
    on_chronicle (add_vote (round_no g) seat target) ;;;
    ret {| vr_round_no := vr_round_no vote_record;
           vr_votes := od_set seat target (vr_votes vote_record);
           vr_lynched := vr_lynched vote_record |}.

Definition lynch_day_summary (lynched : Z) : text :=
  [25918; 36880] ++ str_int lynched ++ [21495].             (* 放逐{lynched}号 *)

Definition lynch_global_summary (round_no lynched : Z) : text :=
  [31532] ++ str_int round_no ++ [26085; 25918; 36880; 65306]
    ++ str_int lynched ++ [32; 21495].                      (* 第{round}日放逐：{lynched} 号 *)

Definition _voting (order : list Z) : M unit :=
  g0 <- get ;;
  vote_record <- for_fold order {| vr_round_no := round_no g0; vr_votes := [];
                                   vr_lynched := None |} vote_turn ;;
  let tally := Counter (omap id (od_values (vr_votes vote_record))) in
  lynched <-
    match most_common tally with
    | (top_vote, top_count) :: _ =>
        let contenders := map fst (List.filter (fun sc => snd sc =? top_count)
                                     (most_common tally)) in
        lynched <- rng_pick contenders ;;
        print (P_lynched lynched top_count) ;;;
        ret (Some lynched)
    | [] => print P_no_lynch ;;; ret None
    end ;;
  modify (set_vote_record (Some {| vr_round_no := vr_round_no vote_record;
                                   vr_votes := vr_votes vote_record;
                                   vr_lynched := lynched |})) ;;;
  g <- get ;;
  on_chronicle (set_lynch (round_no g) lynched) ;;;
  match lynched with
  | Some lynched =>
      player_setattr lynched (set_alive false) ;;;
      on_chronicle (append_day_summary (round_no g) (lynch_day_summary lynched)) ;;;
      on_chronicle (refresh_global_summary (lynch_global_summary (round_no g) lynched)) ;;;
      _trigger_hunter_if_needed lynched cause_lynch
  | None => ret tt
  end.

(** One turn of the discussion loop of [_day_phase]; [idx] counts from 1. *)
Definition talk_turn (idx seat : Z) : M unit :=
  player <- _player seat ;;
  _send_stage seat stage_life_check true ;;;
  if negb (alive player) then ret tt
  else
    send_briefing seat ;;;
    g <- get ;;
    match od_get seat (_day_spoken g) with
    | None => raise (KeyError seat)
    | Some spoken =>
        (if negb spoken then _send_stage seat stage_opening true ;;; ret tt else ret tt) ;;;
        speech <- _send_stage seat stage_day_talk true ;;
        match speech with
        | Some (c :: sp) =>
            let speech := c :: sp in
            on_chronicle (add_day_utterance (round_no g) seat idx speech
                            (_one_line_summary speech)) ;;;
            on_chronicle (append_day_summary (round_no g) (_one_line_summary speech))
        | _ => ret tt
        end ;;;
        notes_output <- _send_stage seat stage_write_notes true ;;
        match notes_output with
        | Some (c :: n) =>
            match _extract_notes (c :: n) with
            | [] => ret tt
            | bullets =>
                player_setattr seat
                  (add_note {| note_r := round_no g; note_d := [100; 97; 121];
                               bullets := bullets |})
            end
        | _ => ret tt
        end ;;;
        modify (fun g => set_day_spoken (od_set seat true (_day_spoken g)) g)
    end.

(** [enumerate(l, start=i)]. *)
Fixpoint enumerate (i : Z) (l : list Z) : list (Z * Z) :=
  match l with
  | [] => []
  | x :: l' => (i, x) :: enumerate (i + 1) l'
  end.

Definition _day_phase : M unit :=
  g <- get ;;
  let alive_order := _alive_seats g in
  on_chronicle (ensure_round (round_no g) (Some alive_order)) ;;;
  modify (set_day_spoken (map (fun seat => (seat, false)) (od_keys (players g)))) ;;;
  for_each (enumerate 1 alive_order) (fun '(idx, seat) => talk_turn idx seat) ;;;
  _voting alive_order.

(** *** Set-up *)

(** The player [_initialise_players] builds for one seat of the plan. *)
Definition initial_player (seats wolf_ids : list Z) (seat : SeatConfig) : PlayerState :=
  ensure_trust_initialised seats
    {| seat_id := sc_seat_id seat; role := sc_role seat;
       persona := sc_persona seat; dialect := sc_dialect seat;
       alive := true; trust := []; notes := [];
       role_private :=
         match sc_role seat with
         | WOLF => {| is_wolf := true;
                      wolf_mates := List.filter (fun wid => negb (wid =? sc_seat_id seat)) wolf_ids;
                      potions := None |}
         | WITCH => {| is_wolf := false; wolf_mates := [];
                       potions := Some {| heal_left := 1; poison_left := 1 |} |}
         | _ => {| is_wolf := false; wolf_mates := []; potions := None |}
         end;
       hunter_has_shot := false |}.

Definition _initialise_players (seating_plan : list SeatConfig) (g : GameMaster) : GameMaster :=
  let seats := map sc_seat_id seating_plan in
  let wolf_ids := map sc_seat_id
                    (List.filter (fun seat => Role_eqb (sc_role seat) WOLF) seating_plan) in
  fold_left (fun g seat =>
               set_day_spoken (od_set (sc_seat_id seat) false (_day_spoken g))
                 (set_players (od_set (sc_seat_id seat)
                                 (initial_player seats wolf_ids seat) (players g)) g))
            seating_plan g.

(** [GameMaster(config, prompt_repo, llm_client, rng)]. *)
Definition GameMaster_new (config : GameConfig) (rng : Z) : GameMaster :=
  _initialise_players (seating_plan config)
    {| config := config; rng := rng; players := [];
       chronicle := Chronicle_new (seat_ids config); round_no := 1;
       _night_outcome := None; _day_spoken := []; _vote_record := None;
       _log := []; _result := ongoing; stdout := [] |}.

Definition _wolf_intro : M unit :=
  g <- get ;;
  let wolf_ids := map fst (List.filter (fun sp => Role_eqb (role (snd sp)) WOLF) (players g)) in
  for_each wolf_ids (fun wid => _send_stage wid stage_wolf_intro false ;;; ret tt).

(** [setup]: loading the prompts and creating the sessions leave the
    attributes modelled here alone. *)
Definition setup : M unit := _wolf_intro.

(** *** Lifecycle *)

Definition _postgame : M unit :=
  g <- get ;;
  for_each (od_keys (players g))
    (fun seat =>
       _send_stage seat stage_postgame_context true ;;;
       _send_stage seat stage_postgame_roundup true ;;;
       _send_stage seat stage_postgame_roast true ;;;
       ret tt) ;;;
  print (P_game_over (_result g)).

(** The [while] loop of [run_game]; [n] bounds the rounds still to play. *)
Fixpoint run_rounds (n : nat) : M unit :=
  finished <- _is_finished ;;
  g <- get ;;
  if finished || (max_rounds (config g) <? round_no g) then ret tt
  else
    match n with
    | O => ret tt
    | S n' =>
        _night_phase ;;;
        finished <- _is_finished ;;
        if finished then ret tt
        else
          _daybreak ;;;
          finished <- _is_finished ;;
          if finished then ret tt
          else
            _day_phase ;;;
            modify (fun g => set_round_no (round_no g + 1) g) ;;;
            run_rounds n'
    end.

(** Every pass of the loop adds one to [round_no], so at most
    [max_rounds - round_no + 1] passes run before the loop test fails. *)
Definition run_game : M unit :=
  print P_game_start ;;;
  g <- get ;;
  run_rounds (Z.to_nat (max_rounds (config g) - round_no g + 1)) ;;;
  _postgame.

End GM.

(** ** cli.py *)

Definition DEFAULT_PERSONAS : list text :=
  [ [20919; 38745; 35299; 35828];
    [27602; 33292; 36777; 25163];
    [20803; 27668; 20027; 25773];
    [27785; 31283; 20998; 26512; 24072];
    [38452; 37057; 35799; 20154];
    [32769; 32451; 33337; 38271] ].

Definition DEFAULT_DIALECTS : list text :=
  [ [26222; 36890; 35805];
    [19996; 21271; 21475; 21619];
    [24029; 28189; 21619];
    [31908; 35821; 33108];
    [33487; 24030; 36719; 35821];
    [21488; 21619] ].

Definition build_default_config : GameConfig :=
  {| seating_plan :=
       [ {| sc_seat_id := 1; sc_role := WOLF;
            sc_persona := nth 0 DEFAULT_PERSONAS [];
            sc_dialect := nth 0 DEFAULT_DIALECTS [] |};
         {| sc_seat_id := 2; sc_role := WOLF;
            sc_persona := nth 1 DEFAULT_PERSONAS [];
            sc_dialect := nth 1 DEFAULT_DIALECTS [] |};
         {| sc_seat_id := 3; sc_role := WITCH;
            sc_persona := nth 2 DEFAULT_PERSONAS [];
            sc_dialect := nth 2 DEFAULT_DIALECTS [] |};
         {| sc_seat_id := 4; sc_role := HUNTER;
            sc_persona := nth 3 DEFAULT_PERSONAS [];
            sc_dialect := nth 3 DEFAULT_DIALECTS [] |};
         {| sc_seat_id := 5; sc_role := VILLAGER;
            sc_persona := nth 4 DEFAULT_PERSONAS [];
            sc_dialect := nth 4 DEFAULT_DIALECTS [] |};
         {| sc_seat_id := 6; sc_role := VILLAGER;
            sc_persona := nth 5 DEFAULT_PERSONAS [];
            sc_dialect := nth 5 DEFAULT_DIALECTS [] |} ];
     max_rounds := 10 |}.

(** ** Sample environments, for evaluating the model *)

(** A Unicode database with the ASCII digits, the Arabic-Indic digits
    (U+0660) and the fullwidth digits (U+FF10); ASCII white space and the
    ideographic space. *)
Definition unicode_sample : Unicode :=
  {| nd_zeros := [1632; 65296];
     isspace := fun c => bool_decide (c ∈ [9; 10; 11; 12; 13; 32; 12288]) |}.

(** An agent that answers from a script by seat and stage, each answer
    drawing once from the random source; [rng.choice] takes the state of
    the source as the index. *)
Definition env_scripted (script : Z -> Stage -> option text) : Env :=
  {| interact := fun _ seat stage _ rng => (script seat stage, rng + 1);
     rng_choice := fun rng _ => (Z.to_nat rng, rng + 1) |}.

(** The agent that never answers. *)
Definition env_silent : Env := env_scripted (fun _ _ => None).

(** The text [【keyword】座位n]. *)
Definition directive (keyword : text) (n : Z) : text :=
  bracketed keyword ++ [ZUO; WEI] ++ str_int n.

(** ** Sequences of chronicle calls *)

(** One call of a method of [Chronicle], with its arguments. *)
Inductive ChronicleCall :=
  | call_ensure_round (round_no : Z) (order : option (list Z))
  | call_log_night_event (round_no : Z) (event : NightEvent)
  | call_set_night_summary (round_no : Z) (summary : list text)
  | call_add_day_utterance (round_no seat idx : Z) (txt one_line : text)
  | call_add_vote (round_no from_seat : Z) (to_seat : option Z)
  | call_set_lynch (round_no : Z) (seat : option Z)
  | call_append_day_summary (round_no : Z) (summary : text)
  | call_refresh_global_summary (txt : text).

Definition chronicle_call (call : ChronicleCall) : Chronicle -> Chronicle :=
  match call with
  | call_ensure_round r o => ensure_round r o
  | call_log_night_event r e => log_night_event r e
  | call_set_night_summary r s => set_night_summary r s
  | call_add_day_utterance r seat idx t o => add_day_utterance r seat idx t o
  | call_add_vote r f t => add_vote r f t
  | call_set_lynch r s => set_lynch r s
  | call_append_day_summary r s => append_day_summary r s
  | call_refresh_global_summary t => refresh_global_summary t
  end.

Definition chronicle_calls (calls : list ChronicleCall) (c : Chronicle) : Chronicle :=
  fold_left (fun c call => chronicle_call call c) calls c.

(** The bounds on the rolling summaries. *)
Definition day_summary_ok (r : RoundRecord) : Prop :=
  (length (summary_10 (day r)) <= 10)%nat /\ NoDup (summary_10 (day r)).

Definition global_summary_ok (c : Chronicle) : Prop :=
  (length (global_summary c) <= 6)%nat /\ NoDup (global_summary c).

Definition summaries_ok (c : Chronicle) : Prop :=
  global_summary_ok c /\
  forall round_no r, rounds c !! round_no = Some r -> day_summary_ok r.

(** The record [ensure_round] creates when called without an order. *)
Definition fresh_round (round_no : Z) : RoundRecord :=
  {| round := round_no; night := NightRecord_new; day := DayRecord_new [] |}.

(** ** Observations on a game state *)

(** A seat is alive when it is in the roster with [alive] set. *)
Definition is_alive (g : GameMaster) (seat : Z) : bool :=
  match od_get seat (players g) with
  | Some p => alive p
  | None => false
  end.

(** The state a method call leaves behind, whether it returns or raises. *)
Definition state_after {A} (o : Outcome A) : GameMaster :=
  match o with
  | Ret _ g => g
  | Raise _ g => g
  end.

(** The roster after [alive = False] on each seat of [dead]. *)
Definition mark_dead (dead : list Z) (d : odict PlayerState) : odict PlayerState :=
  fold_left (fun d seat => match od_get seat d with
                           | Some p => od_set seat (set_alive false p) d
                           | None => d
                           end) dead d.

(** ** Sequences of calls on a game master *)

(** The calls a driver can make on a [GameMaster]: [cli.py] calls [setup]
    and [run_game]; the step handler of [web.py] calls the phases and the
    win test one by one and adds one to [round_no] itself.  The methods
    the phases are built from are included. *)
Inductive Action :=
  | do_setup
  | do_run_game
  | do_night_phase
  | do_night_wolves
  | do_night_witch
  | do_daybreak
  | do_resolve_deaths
  | do_day_phase
  | do_voting (order : list Z)
  | do_trigger_hunter (seat : Z) (cause : Cause)
  | do_is_finished
  | do_next_round
  | do_postgame.

Section Actions.
Context {U : Unicode} {E : Env}.

Definition perform (a : Action) : M unit :=
  match a with
  | do_setup => setup
  | do_run_game => run_game
  | do_night_phase => _night_phase
  | do_night_wolves => _night_wolves
  | do_night_witch => _night_witch
  | do_daybreak => _daybreak
  | do_resolve_deaths => _resolve_deaths ;;; ret tt
  | do_day_phase => _day_phase
  | do_voting order => _voting order
  | do_trigger_hunter seat cause => _trigger_hunter_if_needed seat cause
  | do_is_finished => _is_finished ;;; ret tt
  | do_next_round => modify (fun g => set_round_no (round_no g + 1) g)
  | do_postgame => _postgame
  end.

(** The state after a sequence of calls; a call that raises leaves the
    state it reached, and the driver may go on calling. *)
Definition perform_all (actions : list Action) (g : GameMaster) : GameMaster :=
  fold_left (fun g a => state_after (perform a g)) actions g.

End Actions.

(** [preserves R m]: whatever state [m] starts in, the state it leaves
    is [R]-related to it. *)
Definition preserves (R : GameMaster -> GameMaster -> Prop) {A} (m : M A) : Prop :=
  forall g, R g (state_after (m g)).

(** How a roster may change during a match: the seats and their roles
    stay, nobody comes back to life, a used hunter shot stays used. *)
Definition player_evolves (p p' : PlayerState) : Prop :=
  role p' = role p /\
  (alive p' = true -> alive p = true) /\
  (hunter_has_shot p = true -> hunter_has_shot p' = true).

Definition roster_evolves (d d' : odict PlayerState) : Prop :=
  Forall2 (fun sp sp' => fst sp = fst sp' /\ player_evolves (snd sp) (snd sp')) d d'.

(** The hunter shots announced on the console: [print] of
    [猎人 {seat} 号带走了 {target} 号！], which goes with each kill by a
    hunter. *)
Definition is_shot_by (h : Z) (p : Printed) : bool :=
  match p with
  | P_hunter_shot seat _ => seat =? h
  | _ => false
  end.

Definition shots_by (h : Z) (out : list Printed) : nat :=
  length (List.filter (is_shot_by h) out).

Definition has_shot (g : GameMaster) (h : Z) : bool :=
  match od_get h (players g) with
  | Some p => hunter_has_shot p
  | None => false
  end.

(** How a game state may change during a match: the roster evolves, the
    console grows, and a hunter whose shot is announced had not shot
    before and has the flag set afterwards, once at most. *)
Definition match_evolves (g g' : GameMaster) : Prop :=
  roster_evolves (players g) (players g') /\
  exists new,
    stdout g' = stdout g ++ new /\
    forall h, (shots_by h new <= 1)%nat /\
              (shots_by h new <> 0%nat -> has_shot g h = false /\ has_shot g' h = true).

(** [n] calls of [_is_finished] in a row: what each returned, and the
    state left. *)
Fixpoint is_finished_times (n : nat) (g : GameMaster) : list bool * GameMaster :=
  match n with
  | O => ([], g)
  | S n' =>
      match _is_finished g with
      | Ret b g1 => let '(bs, g2) := is_finished_times n' g1 in (b :: bs, g2)
      | Raise _ g1 => ([], g1)
      end
  end.

(** The default match of [cli.py] with seed 42, and the same match once
    both wolves are dead. *)
Definition default_match : GameMaster := GameMaster_new build_default_config 42.

Definition wolves_dead_match : GameMaster :=
  set_players (mark_dead [1; 2] (players default_match)) default_match.

(** A scripted match on the default configuration: both wolves name seat
    4 (the hunter), the witch poisons seat 5, the hunter shoots seat 1
    when triggered, and every voter names seat 2. *)
Definition script_demo (seat : Z) (stage : Stage) : option text :=
  match stage with
  | stage_night_wolves => Some (directive kw_kill 4)
  | stage_night_witch => Some (directive kw_poison 5)
  | stage_hunter_trigger => Some (directive kw_shoot 1)
  | stage_vote => Some (directive kw_vote 2)
  | stage_day_talk => Some [97; 98]
  | _ => None
  end.

Definition env_demo : Env := env_scripted script_demo.

(** The default match in which the hunter of seat 4 has just been
    lynched. *)
Definition hunter_lynched_match : GameMaster :=
  set_players (mark_dead [4] (players default_match)) default_match.

(** Twelve day summaries for round 1, one of them twice, and eight global
    summaries. *)
Definition sample_calls : list ChronicleCall :=
  map (fun n => call_append_day_summary 1 (str_int n))
      [1; 2; 3; 3; 4; 5; 6; 7; 8; 9; 10; 11; 12] ++
  map (fun n => call_refresh_global_summary (str_int n)) [1; 2; 3; 4; 5; 6; 7; 8].

(** The speaking order the chronicle holds for a round, if the round has
    a record. *)
Definition day_order (c : Chronicle) (round_no : Z) : option (list Z) :=
  (fun r => order (day r)) <$> rounds c !! round_no.

(** A step that leaves a recorded speaking order of round [round_no] as
    it is. *)
Definition keeps_day_order (round_no : Z) (g g' : GameMaster) : Prop :=
  forall o, day_order (chronicle g) round_no = Some o ->
            day_order (chronicle g') round_no = Some o.

(** A seating plan that does not list its seats in ascending order. *)
Definition unsorted_config : GameConfig :=
  {| seating_plan :=
       [ {| sc_seat_id := 2; sc_role := WOLF; sc_persona := []; sc_dialect := [] |};
         {| sc_seat_id := 1; sc_role := VILLAGER; sc_persona := []; sc_dialect := [] |};
         {| sc_seat_id := 3; sc_role := VILLAGER; sc_persona := []; sc_dialect := [] |} ];
     max_rounds := 10 |}.

(** ** The wolves' tally, in words *)

(** How many of the votes name [x]. *)
Definition count_votes (x : Z) (votes : list Z) : Z :=
  Z.of_nat (length (List.filter (Z.eqb x) votes)).

(** [t] is first voted for before [x] is: some vote for [t] comes before
    every vote for [t] or [x]. *)
Definition first_vote_before (t x : Z) (votes : list Z) : Prop :=
  exists pre post, votes = pre ++ t :: post /\ (t ∉ pre) /\ (x ∉ pre).

(** The largest number of votes for one candidate. *)
Definition max_count (votes : list Z) : Z :=
  fold_right Z.max 0 (map (fun x => count_votes x votes) votes).

(** Following the spec's words, "the candidate that first reached the
    current maximum count": going through the votes in order, the first
    candidate whose running count equals the final maximum. *)
Fixpoint first_to_reach (m : Z) (seen rest : list Z) : option Z :=
  match rest with
  | [] => None
  | x :: rest' =>
      if count_votes x (seen ++ [x]) =? m then Some x
      else first_to_reach m (seen ++ [x]) rest'
  end.

Definition first_to_reach_max (votes : list Z) : option Z :=
  first_to_reach (max_count votes) [] votes.

(** Four wolves on seats 1 to 4 and five villagers; on the night the
    wolves name seats 5, 6, 6 and 5, in seat order. *)
Definition four_wolves_config : GameConfig :=
  {| seating_plan :=
       map (fun i => {| sc_seat_id := i;
                        sc_role := if i <=? 4 then WOLF else VILLAGER;
                        sc_persona := []; sc_dialect := [] |})
           [1; 2; 3; 4; 5; 6; 7; 8; 9];
     max_rounds := 10 |}.

Definition script_four_wolves (seat : Z) (stage : Stage) : option text :=
  match stage with
  | stage_night_wolves =>
      Some (directive kw_kill (if (seat =? 1) || (seat =? 4) then 5 else 6))
  | _ => None
  end.

(** A step that changes neither the round number nor the configuration. *)
Definition keeps_round (g g' : GameMaster) : Prop :=
  round_no g' = round_no g /\ config g' = config g.

(** A later state of a round record: the same round, with its night
    events, utterances and votes extended at the end. *)
Definition record_extends (r r' : RoundRecord) : Prop :=
  round r' = round r /\
  events (night r) `prefix_of` events (night r') /\
  utterances (day r) `prefix_of` utterances (day r') /\
  votes (day r) `prefix_of` votes (day r').

(** A seating plan that puts the witch on seat 0. *)
Definition witch_on_seat_0 : GameConfig :=
  {| seating_plan :=
       [ {| sc_seat_id := 0; sc_role := WITCH; sc_persona := []; sc_dialect := [] |};
         {| sc_seat_id := 1; sc_role := WOLF; sc_persona := []; sc_dialect := [] |};
         {| sc_seat_id := 2; sc_role := VILLAGER; sc_persona := []; sc_dialect := [] |};
         {| sc_seat_id := 3; sc_role := VILLAGER; sc_persona := []; sc_dialect := [] |} ];
     max_rounds := 10 |}.

(** A witch that always wants to poison seat 1. *)
Definition script_poisoner (seat : Z) (stage : Stage) : option text :=
  match stage with
  | stage_night_witch => Some (directive kw_poison 1)
  | _ => None
  end.

(** ** The vote, in words *)

(** A step that leaves the board alone: it may write to the session log,
    the console and the random source only. *)
Definition same_board (g g' : GameMaster) : Prop :=
  players g' = players g /\ chronicle g' = chronicle g /\
  round_no g' = round_no g /\ _day_spoken g' = _day_spoken g /\
  _night_outcome g' = _night_outcome g /\ config g' = config g /\
  _result g' = _result g.

(** The votes of a record that name a seat, in the order of the voters. *)
Definition votes_cast (vr : VoteRecord) : list Z :=
  omap id (od_values (vr_votes vr)).

(** The value [_voting] stores for a reply: the seat it names or the
    fallback. *)
Definition resolved {U : Unicode} (g : GameMaster) (v : option Z) : Prop :=
  exists vote, v = resolve_vote g vote.

(** A step that leaves the stored vote record alone. *)
Definition keeps_vote_record (g g' : GameMaster) : Prop :=
  _vote_record g' = _vote_record g.

(** ** The witch's potions, as [_night_witch] reads them *)

(** [role_private.get("potions", {...})["heal_left"]] of a seat, and the
    same for the poison; 0 for a seat that is not in the roster. *)
Definition heal_of (g : GameMaster) (seat : Z) : Z :=
  match od_get seat (players g) with
  | Some p => heal_left (default {| heal_left := 0; poison_left := 0 |}
                           (potions (role_private p)))
  | None => 0
  end.

Definition poison_of (g : GameMaster) (seat : Z) : Z :=
  match od_get seat (players g) with
  | Some p => poison_left (default {| heal_left := 0; poison_left := 0 |}
                             (potions (role_private p)))
  | None => 0
  end.

(** A hunter that, when triggered, shoots at seat 9, which the default
    roster does not have. *)
Definition script_stray_shot (seat : Z) (stage : Stage) : option text :=
  match stage with
  | stage_hunter_trigger => Some (directive kw_shoot 9)
  | _ => None
  end.

(** How the potion counts may change: no count goes up, and a count that
    is not negative stays so. *)
Definition potions_decay (g g' : GameMaster) : Prop :=
  forall s,
    heal_of g' s <= heal_of g s /\ poison_of g' s <= poison_of g s /\
    (0 <= heal_of g s -> 0 <= heal_of g' s) /\
    (0 <= poison_of g s -> 0 <= poison_of g' s).

(** ** llm.py: the rule-based sessions

    The handlers of [RuleBasedSession] that answer the stages whose reply
    the game master reads.  Each takes the entries of [metadata] it looks
    up and the state of the random source, which the sessions share with
    the game master, and returns its reply and the next state of the
    source. *)

(** [self._alive_map()] of gm.py, the [alive_map] entry of the metadata. *)
Definition _alive_map (g : GameMaster) : odict bool :=
  map (fun sp => (fst sp, alive (snd sp))) (players g).

Module RuleBasedSession.

Definition ack : text :=                      (* 收到，继续行动。 *)
  [25910; 21040; 65292; 32487; 32493; 34892; 21160; 12290].
Definition wolf_pre : text :=                 (* 今晚想压制 *)
  [20170; 26202; 24819; 21387; 21046].
Definition wolf_mid : text :=                 (* 号的节奏，理由是他昨天带票太凶。\n *)
  [21495; 30340; 33410; 22863; 65292; 29702; 30001; 26159; 20182; 26152; 22825;
   24102; 31080; 22826; 20982; 12290; 10].
Definition heal_reason : text :=              (* \n理由：救回关键发言位。 *)
  [10; 29702; 30001; 65306; 25937; 22238; 20851; 38190; 21457; 35328; 20301; 12290].
Definition poison_reason : text :=            (* \n理由：白天言行最狼。 *)
  [10; 29702; 30001; 65306; 30333; 22825; 35328; 34892; 26368; 29436; 12290].
Definition idle : text :=                     (* 【空过】\n理由：暂时不动。 *)
  [12304; 31354; 36807; 12305; 10; 29702; 30001; 65306; 26242; 26102; 19981; 21160;
   12290].
Definition shoot_reason : text :=             (* \n理由：死前再清一狼。 *)
  [10; 29702; 30001; 65306; 27515; 21069; 20877; 28165; 19968; 29436; 12290].
Definition no_shoot : text :=                 (* 【不开枪】\n理由：无合适目标。 *)
  [12304; 19981; 24320; 26538; 12305; 10; 29702; 30001; 65306; 26080; 21512; 36866;
   30446; 26631; 12290].

(** What gm.py sends as [killed_list]: the list with the kill target, or,
    the list being empty, the text 今晚无人被锁定. *)
Inductive KilledList :=
  | killed_seats (l : list Z)
  | killed_text (s : text).

Definition no_kill_text : text :=             (* 今晚无人被锁定 *)
  [20170; 26202; 26080; 20154; 34987; 38145; 23450].

Section Handlers.
Context {E : Env}.

(** [self.rng.choice(seq)] on a non-empty sequence. *)
Definition choice (rng : Z) (l : list Z) : Z * Z :=
  let '(i, rng') := rng_choice rng (length l) in
  (nth (i mod length l)%nat l 0, rng').

Definition _life_check (is_alive : bool) : text :=
  if negb is_alive then SKIP else ack.

Definition _night_wolves (seat_id : Z) (alive_targets : list Z) (rng : Z) : text * Z :=
  let choices := List.filter (fun sid => negb (sid =? seat_id)) alive_targets in
  let '(target, rng1) := match choices with
                         | [] => (seat_id, rng)
                         | _ => choice rng choices
                         end in
  let message := wolf_pre ++ str_int target ++ wolf_mid
                   ++ bracketed kw_kill ++ [ZUO; WEI] ++ str_int target in
  let alternate := List.filter (fun sid => negb (sid =? target)) choices in
  match alternate with
  | [] => (message, rng1)
  | _ =>
      let '(backup, rng2) := choice rng1 alternate in
      (message ++ [10] ++ bracketed kw_backup ++ [ZUO; WEI] ++ str_int backup, rng2)
  end.

Definition _night_witch (seat_id : Z) (killed_list : KilledList)
    (heal_left poison_left : Z) (alive_targets : list Z) (alive_map : odict bool)
    (rng : Z) : text * Z :=
  let first_killed :=                         (* [killed_list[0]], formatted *)
    match killed_list with
    | killed_seats (k :: _) => Some (str_int k)
    | killed_text (c :: _) => Some [c]
    | _ => None                               (* [killed_list] is empty *)
    end in
  match first_killed, negb (heal_left =? 0) with
  | Some target, true =>
      (bracketed kw_heal ++ [ZUO; WEI] ++ target ++ heal_reason, rng)
  | _, _ =>
      if negb (poison_left =? 0) then
        let candidates :=
          match alive_targets with
          | [] => map fst (List.filter (fun sa => snd sa && negb (fst sa =? seat_id))
                             alive_map)
          | _ => alive_targets
          end in
        match candidates with
        | [] => (idle, rng)
        | _ =>
            let '(target, rng') := choice rng candidates in
            (bracketed kw_poison ++ [ZUO; WEI] ++ str_int target ++ poison_reason, rng')
        end
      else (idle, rng)
  end.

(** The suspects of [_vote] and [_day_talk]: the alive seats but one's
    own, or, there being none, every seat but one's own. *)
Definition suspects (seat_id : Z) (alive_map : odict bool) : list Z :=
  match map fst (List.filter (fun sa => snd sa && negb (fst sa =? seat_id)) alive_map) with
  | [] => List.filter (fun sid => negb (sid =? seat_id)) (od_keys alive_map)
  | l => l
  end.

(** [_vote]: the reply, the [vote_target] it remembers, the random
    source. *)
Definition _vote (seat_id : Z) (alive_map : odict bool) (rng : Z) : text * Z * Z :=
  let '(target, rng') := match suspects seat_id alive_map with
                         | [] => (seat_id, rng)
                         | l => choice rng l
                         end in
  (bracketed kw_vote ++ [ZUO; WEI] ++ str_int target, target, rng').

Definition _hunter_trigger (alive_map : odict bool) (rng : Z) : text * Z :=
  match map fst (List.filter (fun sa : Z * bool => snd sa) alive_map) with
  | [] => (no_shoot, rng)
  | l =>
      let '(target, rng') := choice rng l in
      (bracketed kw_shoot ++ [ZUO; WEI] ++ str_int target ++ shoot_reason, rng')
  end.

End Handlers.

End RuleBasedSession.

(** gm.py, [_night_witch]: the [killed_list] entry of the metadata of
    [stage_night_witch].  [killed_list] is [[kill_target]] when there is a
    night outcome whose kill target is truthy, the empty list otherwise
    (no outcome, no target, or target 0); the entry is
    [killed_list or "今晚无人被锁定"], the text in place of the empty list. *)
Definition killed_list_sent (g : GameMaster) : RuleBasedSession.KilledList :=
  match _night_outcome g with
  | Some o =>
      match kill_target o with
      | None | Some 0 => RuleBasedSession.killed_text RuleBasedSession.no_kill_text
      | Some k => RuleBasedSession.killed_seats [k]
      end
  | None => RuleBasedSession.killed_text RuleBasedSession.no_kill_text
  end.

(** The answer of the rule-based session of [witch_seat] to the metadata
    that [_night_witch] of gm.py builds in state [g]: [killed_list] as
    above, [heal_left] and [poison_left] out of the witch's potions,
    [alive_map] and [alive_targets] out of the roster. *)
Definition night_witch_reply {E : Env} (g : GameMaster) (witch_seat rng0 : Z) : text * Z :=
  RuleBasedSession._night_witch witch_seat (killed_list_sent g)
    (heal_of g witch_seat) (poison_of g witch_seat)
    (_alive_seats g) (_alive_map g) rng0.

(** An environment in which the hunter of the default match, lynched on
    seat 4, answers as its rule-based session does. *)
Definition script_rule_based_hunter (seat : Z) (stage : Stage) : option text :=
  match stage with
  | stage_hunter_trigger =>
      Some (fst (@RuleBasedSession._hunter_trigger env_silent
                   (_alive_map hunter_lynched_match) 0))
  | _ => None
  end.

(** ** The verdict, in words *)

(** The result the board calls for: what [_is_finished] would find. *)
Definition board_verdict (g : GameMaster) : GameResult :=
  if wolves_alive_count g =? 0 then villagers_win
  else if villagers_alive_count g <=? wolves_alive_count g then wolves_win
  else ongoing.

(** A step that leaves [_result] alone. *)
Definition keeps_result (g g' : GameMaster) : Prop := _result g' = _result g.

(** ** web.py: one step of a game

    [POST /games/<id>/step] once the session is found.  Of [GameSession]
    the game master and the status are modelled; the response keeps the
    fields that depend on the game. *)
Module Web.

Inductive Status := status_setup | status_running | status_finished.

Record GameSession := { gm : GameMaster; status : Status }.

Inductive Phase := phase_night | phase_daybreak.

Inductive Response :=
  | already_finished                          (* 400: 游戏已结束 *)
  | finished_before (result : GameResult)     (* 200: the test before the phases *)
  | finished_in (phase : Phase) (result : GameResult) (round : Z)
  | round_done (st : Status) (round : Z) (is_finished : bool)
  | failed (e : Exn).                         (* 500: 执行失败 *)

Section Step.
Context {U : Unicode} {E : Env}.

(** The [try] block up to the last assignment to [session.status]: the
    response if a phase ended the game, the status otherwise. *)
Definition step_phases (st : Status) : M (Response + Status) :=
  _night_phase ;;;
  finished <- _is_finished ;;
  if finished then
    g <- get ;; ret (inl (finished_in phase_night (_result g) (round_no g)))
  else
    _daybreak ;;;
    finished <- _is_finished ;;
    if finished then
      g <- get ;; ret (inl (finished_in phase_daybreak (_result g) (round_no g)))
    else
      _day_phase ;;;
      modify (fun g => set_round_no (round_no g + 1) g) ;;;
      finished <- _is_finished ;;
      if finished then _postgame ;;; ret (inr status_finished)
      else ret (inr st).

Definition step_game (s : GameSession) : Response * GameSession :=
  match status s with
  | status_finished => (already_finished, s)
  | st =>
      match _is_finished (gm s) with           (* before the [try] *)
      | Raise e g => (failed e, {| gm := g; status := st |})
      | Ret true g =>
          (finished_before (_result g), {| gm := g; status := status_finished |})
      | Ret false g =>
          let current_round := round_no g in
          match step_phases st g with
          | Raise e g' => (failed e, {| gm := g'; status := st |})
          | Ret (inl response) g' => (response, {| gm := g'; status := status_finished |})
          | Ret (inr st') g' =>
              (* the response is built after [session.status] is assigned *)
              match _is_finished g' with
              | Raise e g'' => (failed e, {| gm := g''; status := st' |})
              | Ret finished g'' =>
                  (round_done st' current_round finished, {| gm := g''; status := st' |})
              end
          end
      end
  end.

End Step.

End Web.

(** How often the end of the game has been announced on the console. *)
Definition game_overs (g : GameMaster) : nat :=
  length (List.filter (fun p => match p with P_game_over _ => true | _ => false end)
            (stdout g)).

(** A step that announces no end of the game. *)
Definition keeps_game_overs (g g' : GameMaster) : Prop := game_overs g' = game_overs g.

(** * Properties *)

(** ** Directive parsing *)

Section ParseFacts.
Context {U : Unicode}.

Lemma digit_in_range zeros c v : digit_in zeros c = Some v -> 0 <= v <= 9.
Proof.
  induction zeros as [|z zs IH]; simpl; [discriminate|].
  destruct ((z <=? c) && (c <=? z + 9)) eqn:Hin; [|exact IH].
  intros [= <-]. apply andb_true_iff in Hin as [H1 H2]. lia.
Qed.

Lemma int_digit_range c : 0 <= int_digit c <= 9.
Proof.
  unfold int_digit, digit_of.
  destruct (digit_in (48 :: nd_zeros) c) as [v|] eqn:Hd; simpl.
  - eapply digit_in_range; eassumption.
  - lia.
Qed.

Lemma first_directive_range keyword ms n :
  first_directive keyword ms = Some n -> 0 <= n <= 9.
Proof.
  induction ms as [|m ms IH]; simpl; [discriminate|].
  destruct (bool_decide (m_action m = keyword)); [|exact IH].
  intros [= <-]. apply int_digit_range.
Qed.

Lemma parse_directive_range txt keyword n :
  _parse_directive txt keyword = Some n -> 0 <= n <= 9.
Proof. apply first_directive_range. Qed.

Lemma span_action_keyword kw t :
  RQ ∉ kw -> span_action (kw ++ RQ :: t) = (kw, RQ :: t).
Proof.
  induction kw as [|c kw IH]; intros Hnot; simpl.
  - reflexivity.
  - destruct (c =? RQ) eqn:Hc.
    + apply Z.eqb_eq in Hc. subst c. exfalso. apply Hnot. left.
    + rewrite IH; [reflexivity|]. intros Hin. apply Hnot. right. exact Hin.
Qed.

Lemma match_here_directive kw d rest :
  kw <> [] -> RQ ∉ kw -> is_Some (digit_of d) ->
  match_here (bracketed kw ++ ZUO :: WEI :: d :: rest)
  = Some ({| m_action := kw; m_seat := d |}, rest).
Proof.
  intros Hne Hnot Hd. unfold bracketed, match_here. simpl.
  rewrite <- app_assoc. simpl. rewrite span_action_keyword by exact Hnot.
  destruct kw as [|c kw]; [congruence|].
  rewrite bool_decide_eq_true_2 by exact Hd. reflexivity.
Qed.

Lemma finditer_directive kw d rest :
  kw <> [] -> RQ ∉ kw -> is_Some (digit_of d) ->
  finditer (bracketed kw ++ ZUO :: WEI :: d :: rest)
  = {| m_action := kw; m_seat := d |} :: finditer rest.
Proof.
  intros Hne Hnot Hd.
  pose proof (match_here_directive kw d rest Hne Hnot Hd) as Hm.
  unfold bracketed in *. simpl app in *. simp finditer.
  generalize (inspect (match_here (LQ :: (kw ++ [RQ]) ++ ZUO :: WEI :: d :: rest))).
  intros [[[m r]|] e]; [|congruence].
  pose proof (eq_trans (eq_sym Hm) e) as Heq. injection Heq as <- <-.
  reflexivity.
Qed.

End ParseFacts.

(** C10.  A parsed directive is a single decimal digit: for every reply and
    keyword [_parse_directive] yields no target or a seat number from 0 to
    9, and a directive whose seat reference goes on after its first digit
    — seat 10 and above — is read as the seat of that first digit. *)
Theorem parse_directive_single_digit {U : Unicode} :
  (forall txt keyword,
      _parse_directive txt keyword = None \/
      exists n, _parse_directive txt keyword = Some n /\ 0 <= n <= 9) /\
  (forall keyword d v more,
      keyword <> [] -> RQ ∉ keyword -> digit_of d = Some v ->
      _parse_directive (bracketed keyword ++ ZUO :: WEI :: d :: more) keyword
      = Some v).
Proof.
  split.
  - intros txt keyword.
    destruct (_parse_directive txt keyword) as [n|] eqn:Hp; [right|left; reflexivity].
    exists n. split; [reflexivity|]. eapply parse_directive_range; eassumption.
  - intros keyword d v more Hne Hnot Hd. unfold _parse_directive.
    rewrite finditer_directive; [|assumption|assumption|rewrite Hd; eexists; reflexivity].
    simpl. rewrite bool_decide_eq_true_2 by reflexivity.
    unfold int_digit. rewrite Hd. reflexivity.
Qed.

(** [【击杀】座位12] names seat 1. *)
Lemma parse_directive_single_digit_witness :
  @_parse_directive unicode_sample (directive kw_kill 12) kw_kill = Some 1.
Proof.
  apply (proj2 (@parse_directive_single_digit unicode_sample) kw_kill 49 1 [50]).
  - discriminate.
  - apply (bool_decide_unpack (RQ ∉ kw_kill)). vm_compute. exact I.
  - reflexivity.
Defined.

(** ** The chronicle's rolling summaries *)

Lemma lookup_ensure_round_None round_no c r' :
  rounds (ensure_round round_no None c) !! r'
  = if decide (r' = round_no)
    then Some (default (fresh_round round_no) (rounds c !! round_no))
    else rounds c !! r'.
Proof.
  unfold ensure_round.
  destruct (rounds c !! round_no) as [r|] eqn:Hr; simpl.
  - destruct (decide (r' = round_no)) as [->|]; [exact Hr|reflexivity].
  - destruct (decide (r' = round_no)) as [->|Hne].
    + apply lookup_insert_eq.
    + apply lookup_insert_ne. congruence.
Qed.

Lemma lookup_on_round round_no f c r' :
  rounds (on_round round_no f c) !! r'
  = if decide (r' = round_no)
    then Some (f (default (fresh_round round_no) (rounds c !! round_no)))
    else rounds c !! r'.
Proof.
  unfold on_round. simpl.
  destruct (decide (r' = round_no)) as [->|Hne].
  - rewrite lookup_alter_eq, lookup_ensure_round_None.
    rewrite decide_True by reflexivity. reflexivity.
  - rewrite lookup_alter_ne by congruence.
    rewrite lookup_ensure_round_None. rewrite decide_False by exact Hne. reflexivity.
Qed.

Lemma global_summary_on_round round_no f c :
  global_summary (on_round round_no f c) = global_summary c.
Proof.
  unfold on_round, ensure_round.
  destruct (rounds c !! round_no); reflexivity.
Qed.

Lemma fresh_round_ok round_no : day_summary_ok (fresh_round round_no).
Proof. split; simpl; [lia|constructor]. Qed.

(** A method that goes through [ensure_round] and leaves [summary_10]
    as it is, or extends it the way [append_day_summary] does, keeps the
    bounds. *)
Lemma on_round_summaries_ok round_no f c :
  (forall r, day_summary_ok r -> day_summary_ok (f r)) ->
  summaries_ok c -> summaries_ok (on_round round_no f c).
Proof.
  intros Hf [Hg Hr]. split.
  - unfold global_summary_ok. rewrite global_summary_on_round. exact Hg.
  - intros r' r. rewrite lookup_on_round.
    destruct (decide (r' = round_no)) as [->|Hne]; [|apply Hr].
    intros [= <-]. apply Hf.
    destruct (rounds c !! round_no) as [r0|] eqn:Hr0; simpl.
    + eapply Hr; eassumption.
    + apply fresh_round_ok.
Qed.

Lemma append_keeps_day_summary_ok summary r :
  day_summary_ok r ->
  day_summary_ok
    (if bool_decide (summary ∈ summary_10 (day r)) then r
     else set_day {| order := order (day r); utterances := utterances (day r);
                     votes := votes (day r); lynch := lynch (day r);
                     summary_10 := take 10 (summary_10 (day r) ++ [summary]) |} r).
Proof.
  intros [Hlen Hnd].
  destruct (bool_decide (summary ∈ summary_10 (day r))) eqn:Hin; [split; assumption|].
  apply bool_decide_eq_false in Hin. split; simpl.
  - rewrite length_take. lia.
  - eapply sublist_NoDup; [|apply sublist_take].
    apply NoDup_app. split; [exact Hnd|]. split; [|apply NoDup_singleton].
    intros x Hx Hx'. apply list_elem_of_singleton in Hx'. subst x. contradiction.
Qed.

Lemma ensure_round_summaries_ok round_no o c :
  summaries_ok c -> summaries_ok (ensure_round round_no o c).
Proof.
  intros [Hg Hr]. unfold ensure_round.
  destruct (rounds c !! round_no) as [r0|] eqn:Hr0.
  - destruct o as [o|]; [|split; assumption].
    split; [exact Hg|]. intros r' r. simpl.
    destruct (decide (r' = round_no)) as [->|Hne].
    + rewrite lookup_insert_eq. intros [= <-]. exact (Hr _ _ Hr0).
    + rewrite lookup_insert_ne by congruence. apply Hr.
  - split; [exact Hg|]. intros r' r. simpl.
    destruct (decide (r' = round_no)) as [->|Hne].
    + rewrite lookup_insert_eq. intros [= <-]. split; simpl; [lia|constructor].
    + rewrite lookup_insert_ne by congruence. apply Hr.
Qed.

Lemma refresh_global_summary_ok txt c :
  summaries_ok c -> summaries_ok (refresh_global_summary txt c).
Proof.
  intros [[Hlen Hnd] Hr]. unfold refresh_global_summary.
  destruct (bool_decide (txt ∈ global_summary c)) eqn:Hin;
    [split; [split; assumption|exact Hr]|].
  apply bool_decide_eq_false in Hin.
  assert (Hnd' : NoDup (global_summary c ++ [txt])).
  { apply NoDup_app. split; [exact Hnd|]. split; [|apply NoDup_singleton].
    intros x Hx Hx'. apply list_elem_of_singleton in Hx'. subst x. contradiction. }
  split; [|exact Hr]. unfold global_summary_ok. simpl.
  destruct (6 <? Z.of_nat (length (global_summary c ++ [txt]))) eqn:Hbig.
  - split.
    + rewrite length_drop. rewrite length_app in *. simpl in *. lia.
    + eapply sublist_NoDup; [exact Hnd'|apply sublist_drop].
  - apply Z.ltb_ge in Hbig. split; [lia|exact Hnd'].
Qed.

Lemma chronicle_call_summaries_ok call c :
  summaries_ok c -> summaries_ok (chronicle_call call c).
Proof.
  destruct call; simpl.
  - apply ensure_round_summaries_ok.
  - apply on_round_summaries_ok. intros r H; exact H.
  - apply on_round_summaries_ok. intros r H; exact H.
  - apply on_round_summaries_ok. intros r H; exact H.
  - apply on_round_summaries_ok. intros r H; exact H.
  - apply on_round_summaries_ok. intros r H; exact H.
  - apply on_round_summaries_ok. intros r. apply append_keeps_day_summary_ok.
  - apply refresh_global_summary_ok.
Qed.

Lemma Chronicle_new_summaries_ok seats : summaries_ok (Chronicle_new seats).
Proof.
  split.
  - split; simpl; [lia|]. apply NoDup_singleton.
  - intros r rec. simpl. rewrite lookup_empty. discriminate.
Qed.

Lemma chronicle_calls_summaries_ok calls c :
  summaries_ok c -> summaries_ok (chronicle_calls calls c).
Proof.
  revert c. induction calls as [|call calls IH]; intros c Hc; simpl; [exact Hc|].
  apply IH. apply chronicle_call_summaries_ok. exact Hc.
Qed.

(** C8.  After any sequence of calls of the chronicle's methods on a new
    chronicle, the global summary has at most 6 entries, every round's
    day summary has at most 10, and none of these lists holds the same
    string twice. *)
Theorem summaries_bounded_deduplicated (seats : list Z) (calls : list ChronicleCall) :
  let c := chronicle_calls calls (Chronicle_new seats) in
  ((length (global_summary c) <= 6)%nat /\ NoDup (global_summary c)) /\
  (forall round_no r,
      rounds c !! round_no = Some r ->
      (length (summary_10 (day r)) <= 10)%nat /\ NoDup (summary_10 (day r))).
Proof.
  apply chronicle_calls_summaries_ok, Chronicle_new_summaries_ok.
Qed.

(** Twelve day summaries, one repeated, leave the first ten. *)
Lemma summaries_bounded_deduplicated_witness :
  let c := chronicle_calls sample_calls (Chronicle_new [1; 2]) in
  exists r, rounds c !! 1 = Some r /\
            length (summary_10 (day r)) = 10%nat /\
            ((length (summary_10 (day r)) <= 10)%nat /\ NoDup (summary_10 (day r))).
Proof.
  intros c. eexists. split; [vm_compute; reflexivity|]. split; [reflexivity|].
  apply (proj2 (summaries_bounded_deduplicated [1; 2] sample_calls) 1).
  vm_compute. reflexivity.
Defined.

(** ** Ordered dictionaries *)

Section ODictFacts.
Context {V : Type}.
Implicit Types (d : odict V) (k : Z) (v : V).

Lemma od_get_od_set k k' v d :
  od_get k (od_set k' v d) = if k =? k' then Some v else od_get k d.
Proof.
  induction d as [|[k0 v0] d IH]; simpl.
  - rewrite (Z.eqb_sym k' k). reflexivity.
  - destruct (k0 =? k') eqn:H0; simpl.
    + apply Z.eqb_eq in H0. subst k0. rewrite (Z.eqb_sym k' k).
      destruct (k =? k'); reflexivity.
    + destruct (k0 =? k) eqn:H1.
      * apply Z.eqb_eq in H1. subst k0. rewrite H0. reflexivity.
      * exact IH.
Qed.

Lemma od_keys_od_set_present k v d :
  is_Some (od_get k d) -> od_keys (od_set k v d) = od_keys d.
Proof.
  induction d as [|[k0 v0] d IH]; simpl.
  - intros [? [=]].
  - destruct (k0 =? k) eqn:H0; simpl; [reflexivity|].
    intros H. unfold od_keys in *. rewrite IH by exact H. reflexivity.
Qed.

Lemma od_get_Some_elem_of k v d : od_get k d = Some v -> (k, v) ∈ d.
Proof.
  induction d as [|[k0 v0] d IH]; simpl; [discriminate|].
  destruct (k0 =? k) eqn:H0.
  - apply Z.eqb_eq in H0. intros [= ->]. subst. left.
  - intros H. right. apply IH, H.
Qed.

Lemma od_get_None_keys k d : od_get k d = None <-> k ∉ od_keys d.
Proof.
  induction d as [|[k0 v0] d IH]; simpl.
  - split; [intros _; apply not_elem_of_nil|reflexivity].
  - destruct (k0 =? k) eqn:H0.
    + apply Z.eqb_eq in H0. subst. split; [discriminate|].
      intros H. exfalso. apply H. left.
    + apply Z.eqb_neq in H0. rewrite IH. unfold od_keys. simpl.
      rewrite not_elem_of_cons. intuition congruence.
Qed.

Lemma elem_of_od_get k v d : NoDup (od_keys d) -> (k, v) ∈ d -> od_get k d = Some v.
Proof.
  induction d as [|[k0 v0] d IH]; simpl.
  - intros _ H. apply elem_of_nil in H. contradiction.
  - intros Hnd H. apply NoDup_cons in Hnd as [Hnot Hnd].
    apply elem_of_cons in H as [[= -> ->]|H].
    + rewrite Z.eqb_refl. reflexivity.
    + destruct (k0 =? k) eqn:H0.
      * apply Z.eqb_eq in H0. subst. exfalso. apply Hnot.
        apply (list_elem_of_fmap_2 fst) in H. exact H.
      * apply IH; assumption.
Qed.

End ODictFacts.

(** ** The monad *)

Lemma for_each_app {X} (l1 l2 : list X) (body : X -> M unit) g :
  for_each (l1 ++ l2) body g
  = match for_each l1 body g with
    | Ret _ g' => for_each l2 body g'
    | Raise e g' => Raise e g'
    end.
Proof.
  revert g. induction l1 as [|x l1 IH]; intros g; simpl; [reflexivity|].
  unfold bind. destruct (body x g) as [[] g'|e g']; [apply IH|reflexivity].
Qed.

(** ** Death resolution *)

Section DeathFacts.
Context {U : Unicode} {E : Env}.

Lemma od_get_mark_dead dead d k :
  od_get k (mark_dead dead d)
  = (fun p => if bool_decide (k ∈ dead) then set_alive false p else p) <$> od_get k d.
Proof.
  assert (Hcons : forall (x y : Z) l, x <> y ->
                    bool_decide (x ∈ y :: l) = bool_decide (x ∈ l)).
  { intros x y l Hne. apply bool_decide_ext. rewrite elem_of_cons. intuition. }
  revert d. induction dead as [|s dead IH]; intros d; simpl.
  - destruct (od_get k d); reflexivity.
  - rewrite IH. destruct (od_get s d) as [ps|] eqn:Hs.
    + rewrite od_get_od_set. destruct (k =? s) eqn:Hks.
      * apply Z.eqb_eq in Hks. subst s. rewrite Hs. simpl.
        rewrite (bool_decide_eq_true_2 (k ∈ k :: dead)) by left.
        destruct (bool_decide (k ∈ dead)); reflexivity.
      * apply Z.eqb_neq in Hks. rewrite (Hcons _ _ _ Hks). reflexivity.
    + destruct (od_get k d) as [p|] eqn:Hk; simpl; [|reflexivity].
      rewrite (Hcons k s dead) by congruence. reflexivity.
Qed.

Lemma player_setattr_present seat f g p :
  od_get seat (players g) = Some p ->
  player_setattr seat f g = Ret tt (set_players (od_set seat (f p) (players g)) g).
Proof.
  intros Hp. unfold player_setattr, bind, _player, modify. rewrite Hp. reflexivity.
Qed.

(** The loop [for seat in unique_deaths: self.players[seat].alive = False]
    returns when its seats are in the roster. *)
Lemma for_each_mark_dead dead g :
  Forall (fun seat => is_Some (od_get seat (players g))) dead ->
  for_each dead (fun seat => player_setattr seat (set_alive false)) g
  = Ret tt (set_players (mark_dead dead (players g)) g).
Proof.
  revert g. induction dead as [|s dead IH]; intros g Hall; simpl.
  - destruct g; reflexivity.
  - apply Forall_cons in Hall as [[p Hp] Hall].
    unfold bind. rewrite (player_setattr_present _ _ _ _ Hp). rewrite IH.
    + simpl. rewrite Hp. reflexivity.
    + simpl. eapply Forall_impl; [exact Hall|].
      intros s' [p' Hp']. simpl. rewrite od_get_od_set.
      destruct (s' =? s); eauto.
Qed.

Lemma elem_of_unique_fold g deaths acc s :
  s ∈ fold_left (fun unique seat =>
                   if negb (bool_decide (seat ∈ unique)) &&
                      match od_get seat (players g) with
                      | Some p => alive p
                      | None => false
                      end
                   then unique ++ [seat] else unique) deaths acc
  <-> s ∈ acc \/ (s ∈ deaths /\ is_alive g s = true).
Proof.
  revert acc. induction deaths as [|x deaths IH]; intros acc; simpl.
  - rewrite elem_of_nil. tauto.
  - rewrite IH. rewrite elem_of_cons. fold (is_alive g x).
    destruct (bool_decide (x ∈ acc)) eqn:Hx; simpl.
    + apply bool_decide_eq_true in Hx.
      split; [tauto|]. intros [H|[[->|H] Ha]]; tauto.
    + destruct (is_alive g x) eqn:Ha.
      * rewrite elem_of_app, list_elem_of_singleton.
        split; [intros [[H| ->]|H]; tauto|]. intros [H|[[->|H] Hs]]; tauto.
      * split; [tauto|]. intros [H|[[->|H] Hs]]; [tauto|congruence|tauto].
Qed.

Lemma elem_of_unique_deaths g deaths s :
  s ∈ unique_deaths g deaths <-> s ∈ deaths /\ is_alive g s = true.
Proof.
  unfold unique_deaths. rewrite elem_of_unique_fold. rewrite elem_of_nil. tauto.
Qed.

Lemma resolve_deaths_returns g o :
  _night_outcome g = Some o ->
  _resolve_deaths g
  = Ret (unique_deaths g (night_deaths o))
        (set_players (mark_dead (unique_deaths g (night_deaths o)) (players g)) g).
Proof.
  intros Ho. unfold _resolve_deaths, bind, get. rewrite Ho.
  rewrite for_each_mark_dead; [reflexivity|].
  apply Forall_forall. intros s Hs. apply elem_of_unique_deaths in Hs as [_ Hs].
  unfold is_alive in Hs. destruct (od_get s (players g)); [eauto|discriminate].
Qed.

Lemma is_alive_mark_dead g dead s :
  is_alive (set_players (mark_dead dead (players g)) g) s
  = is_alive g s && negb (bool_decide (s ∈ dead)).
Proof.
  unfold is_alive. simpl. rewrite od_get_mark_dead.
  destruct (od_get s (players g)) as [p|]; simpl; [|reflexivity].
  destruct (bool_decide (s ∈ dead)); simpl.
  - rewrite andb_false_r. reflexivity.
  - rewrite andb_true_r. reflexivity.
Qed.

End DeathFacts.

(** C1.  Daybreak death resolution.  For every night outcome
    [_resolve_deaths] returns; afterwards the kill target is not alive
    unless it is the healed target (so healing any other seat saves
    nobody), and the poisoned target is not alive whatever was healed.
    The seats that were alive among them are the deaths reported, and no
    other seat changes. *)
Theorem resolve_deaths_kill_heal_poison (g : GameMaster) (o : NightOutcome) :
  exists deaths g',
    _resolve_deaths (set_night_outcome (Some o) g) = Ret deaths g' /\
    (forall k, kill_target o = Some k -> healed_target o <> Some k ->
       is_alive g' k = false /\ (is_alive g k = true -> k ∈ deaths)) /\
    (forall p, poisoned_target o = Some p ->
       is_alive g' p = false /\ (is_alive g p = true -> p ∈ deaths)) /\
    (forall s, s ∈ deaths ->
       is_alive g s = true /\
       ((kill_target o = Some s /\ healed_target o <> Some s) \/
        poisoned_target o = Some s)) /\
    (forall s, is_alive g' s = is_alive g s && negb (bool_decide (s ∈ deaths))).
Proof.
  set (g0 := set_night_outcome (Some o) g).
  exists (unique_deaths g0 (night_deaths o)).
  eexists. split; [apply resolve_deaths_returns; reflexivity|].
  assert (Halive : forall s, is_alive g0 s = is_alive g s) by reflexivity.
  assert (Hkill : forall k, kill_target o = Some k -> healed_target o <> Some k ->
                            k ∈ night_deaths o).
  { intros k Hk Hh. unfold night_deaths. rewrite Hk.
    rewrite bool_decide_eq_false_2 by exact Hh. apply elem_of_app. left. left. }
  assert (Hpoison : forall p, poisoned_target o = Some p -> p ∈ night_deaths o).
  { intros p Hp. unfold night_deaths. rewrite Hp. apply elem_of_app. right. left. }
  assert (Hdead : forall s, s ∈ night_deaths o ->
            is_alive (set_players (mark_dead (unique_deaths g0 (night_deaths o))
                                     (players g0)) g0) s = false
            /\ (is_alive g s = true -> s ∈ unique_deaths g0 (night_deaths o))).
  { intros s Hs. rewrite is_alive_mark_dead.
    assert (Hin : is_alive g s = true -> s ∈ unique_deaths g0 (night_deaths o)).
    { intros Ha. apply elem_of_unique_deaths. split; [exact Hs|exact Ha]. }
    split; [|exact Hin]. rewrite Halive.
    destruct (is_alive g s) eqn:Ha; [|reflexivity].
    rewrite bool_decide_eq_true_2 by (apply Hin; reflexivity). reflexivity. }
  split; [|split; [|split]].
  - intros k Hk Hh. apply Hdead, Hkill; assumption.
  - intros p Hp. apply Hdead, Hpoison; assumption.
  - intros s Hs. apply elem_of_unique_deaths in Hs as [Hs Ha].
    split; [exact Ha|]. unfold night_deaths in Hs.
    apply elem_of_app in Hs as [Hs|Hs].
    + left. destruct (kill_target o) as [k|]; [|apply elem_of_nil in Hs; contradiction].
      destruct (bool_decide (healed_target o = Some k)) eqn:Hh;
        [apply elem_of_nil in Hs; contradiction|].
      apply bool_decide_eq_false in Hh. apply list_elem_of_singleton in Hs. subst s.
      split; [reflexivity|exact Hh].
    + right. destruct (poisoned_target o) as [p|]; [|apply elem_of_nil in Hs; contradiction].
      apply list_elem_of_singleton in Hs. subst s. reflexivity.
  - intros s. rewrite is_alive_mark_dead. reflexivity.
Qed.

(** Kill on seat 5, heal on seat 4, poison on seat 6: seats 5 and 6 die. *)
Lemma resolve_deaths_kill_heal_poison_witness :
  let o := {| kill_target := Some 5; healed_target := Some 4;
              poisoned_target := Some 6 |} in
  exists deaths g',
    _resolve_deaths (set_night_outcome (Some o) default_match) = Ret deaths g' /\
    (is_alive g' 5 = false /\ 5 ∈ deaths) /\
    (is_alive g' 6 = false /\ 6 ∈ deaths).
Proof.
  intros o.
  destruct (resolve_deaths_kill_heal_poison default_match o)
    as (deaths & g' & Hret & Hkill & Hpoison & _).
  exists deaths, g'. split; [exact Hret|]. split.
  - destruct (Hkill 5) as [Hdead Hin]; [reflexivity|discriminate|].
    split; [exact Hdead|apply Hin; reflexivity].
  - destruct (Hpoison 6) as [Hdead Hin]; [reflexivity|].
    split; [exact Hdead|apply Hin; reflexivity].
Defined.

(** ** Relations every step of a method keeps *)

Section Preserves.
Context (R : GameMaster -> GameMaster -> Prop) `{!PreOrder R}.

Lemma preserves_ret {A} (a : A) : preserves R (ret a).
Proof. intros g. simpl. reflexivity. Qed.

Lemma preserves_get : preserves R get.
Proof. intros g. simpl. reflexivity. Qed.

Lemma preserves_raise {A} e : preserves R (@raise A e).
Proof. intros g. simpl. reflexivity. Qed.

Lemma preserves_player seat : preserves R (_player seat).
Proof. intros g. unfold _player. destruct (od_get seat (players g)); simpl; reflexivity. Qed.

Lemma preserves_modify f : (forall g, R g (f g)) -> preserves R (modify f).
Proof. intros Hf g. simpl. apply Hf. Qed.

Lemma preserves_bind {A B} (m : M A) (k : A -> M B) :
  preserves R m -> (forall a, preserves R (k a)) -> preserves R (bind m k).
Proof.
  intros Hm Hk g. unfold bind. specialize (Hm g).
  destruct (m g) as [a g1|e g1]; simpl in *; [|exact Hm].
  etransitivity; [exact Hm|apply Hk].
Qed.

Lemma preserves_for_each {X} (l : list X) (body : X -> M unit) :
  (forall x, preserves R (body x)) -> preserves R (for_each l body).
Proof.
  intros Hbody. induction l as [|x l IH]; simpl.
  - apply preserves_ret.
  - apply preserves_bind; [apply Hbody|intros _; exact IH].
Qed.

Lemma preserves_for_fold {X S} (l : list X) (s : S) (body : S -> X -> M S) :
  (forall s x, preserves R (body s x)) -> preserves R (for_fold l s body).
Proof.
  intros Hbody. revert s. induction l as [|x l IH]; intros s; simpl.
  - apply preserves_ret.
  - apply preserves_bind; [apply Hbody|intros s'; apply IH].
Qed.

End Preserves.

(** Takes a method apart along its binds, loops and branches; what is
    left are its primitive steps. *)
Ltac solve_preorder :=
  match goal with
  | |- PreOrder _ => apply _
  end.

Ltac preserves_step :=
  match goal with
  | |- preserves _ (bind _ _) =>
      apply preserves_bind; try solve_preorder; [|intros ?]
  | |- preserves _ (ret _) => apply preserves_ret; try solve_preorder
  | |- preserves _ get => apply preserves_get; try solve_preorder
  | |- preserves _ (raise _) => apply preserves_raise; try solve_preorder
  | |- preserves _ (_player _) => apply preserves_player; try solve_preorder
  | |- preserves _ (for_each _ _) =>
      apply preserves_for_each; try solve_preorder; intros ?
  | |- preserves _ (for_fold _ _ _) =>
      apply preserves_for_fold; try solve_preorder; intros ? ?
  | |- preserves _ (match ?x with _ => _ end) => destruct x
  | |- preserves _ (let _ := _ in _) => cbv zeta
  end.

Ltac preserves_steps := repeat preserves_step.

(** ** How a match evolves *)

Lemma player_evolves_refl p : player_evolves p p.
Proof. repeat split; auto. Qed.

Lemma player_evolves_trans p1 p2 p3 :
  player_evolves p1 p2 -> player_evolves p2 p3 -> player_evolves p1 p3.
Proof.
  intros (Hr1 & Ha1 & Hs1) (Hr2 & Ha2 & Hs2).
  repeat split; [congruence|auto|auto].
Qed.

Lemma roster_evolves_refl d : roster_evolves d d.
Proof.
  induction d as [|sp d IH]; constructor; [|exact IH].
  split; [reflexivity|apply player_evolves_refl].
Qed.

Lemma roster_evolves_trans d1 d2 d3 :
  roster_evolves d1 d2 -> roster_evolves d2 d3 -> roster_evolves d1 d3.
Proof.
  intros H12. revert d3. induction H12 as [|x y l1 l2 [Hk Hp] _ IH]; intros d3 H23.
  - inversion H23; subst. constructor.
  - inversion H23 as [|y' z l2' l3 [Hk' Hp'] Hrest]; subst. constructor.
    + split; [congruence|eapply player_evolves_trans; eassumption].
    + apply IH. exact Hrest.
Qed.

Lemma od_get_roster_evolves d d' k :
  roster_evolves d d' ->
  match od_get k d with
  | Some p => exists p', od_get k d' = Some p' /\ player_evolves p p'
  | None => od_get k d' = None
  end.
Proof.
  induction 1 as [|[k1 p1] [k2 p2] l1 l2 [Hk Hp] _ IH]; simpl in *; [reflexivity|].
  subst k2. destruct (k1 =? k); [|exact IH]. eauto.
Qed.

Lemma roster_evolves_od_set d k p f :
  od_get k d = Some p -> player_evolves p (f p) ->
  roster_evolves d (od_set k (f p) d).
Proof.
  intros Hget Hp. induction d as [|[k0 p0] d IH]; simpl in *; [discriminate|].
  destruct (k0 =? k) eqn:Hk.
  - injection Hget as ->. constructor; [|apply roster_evolves_refl].
    split; [reflexivity|exact Hp].
  - constructor; [|apply IH, Hget].
    split; [reflexivity|apply player_evolves_refl].
Qed.

Lemma has_shot_evolves g g' h :
  roster_evolves (players g) (players g') ->
  has_shot g h = true -> has_shot g' h = true.
Proof.
  intros Hr. unfold has_shot.
  pose proof (od_get_roster_evolves _ _ h Hr) as Hget.
  destruct (od_get h (players g)) as [p|]; [|discriminate].
  destruct Hget as (p' & -> & _ & _ & Hs). exact Hs.
Qed.

Lemma is_alive_evolves g g' s :
  roster_evolves (players g) (players g') ->
  is_alive g' s = true -> is_alive g s = true.
Proof.
  intros Hr. unfold is_alive.
  pose proof (od_get_roster_evolves _ _ s Hr) as Hget.
  destruct (od_get s (players g)) as [p|].
  - destruct Hget as (p' & -> & _ & Ha & _). exact Ha.
  - rewrite Hget. discriminate.
Qed.

Lemma shots_by_app h a b : shots_by h (a ++ b) = (shots_by h a + shots_by h b)%nat.
Proof. unfold shots_by. rewrite List.filter_app, length_app. reflexivity. Qed.

#[local] Instance match_evolves_preorder : PreOrder match_evolves.
Proof.
  split.
  - intros g. split; [apply roster_evolves_refl|].
    exists []. split; [rewrite app_nil_r; reflexivity|].
    intros h. unfold shots_by. simpl.
    split; [lia|intros H; contradiction H; reflexivity].
  - intros g1 g2 g3 [Hr12 (n1 & Ho1 & Hs1)] [Hr23 (n2 & Ho2 & Hs2)].
    split; [eapply roster_evolves_trans; eassumption|].
    exists (n1 ++ n2). split; [rewrite Ho2, Ho1, app_assoc; reflexivity|].
    intros h. rewrite shots_by_app.
    destruct (Hs1 h) as [Hle1 Hne1], (Hs2 h) as [Hle2 Hne2].
    destruct (shots_by h n1) as [|k1] eqn:E1; simpl.
    + split; [exact Hle2|]. intros Hne. destruct (Hne2 Hne) as [Hf Ht].
      split; [|exact Ht].
      destruct (has_shot g1 h) eqn:Hg1; [|reflexivity].
      rewrite (has_shot_evolves _ _ _ Hr12 Hg1) in Hf. discriminate.
    + destruct Hne1 as [Hf Ht]; [discriminate|].
      destruct (shots_by h n2) as [|k2] eqn:E2.
      * split; [lia|]. intros _. split; [exact Hf|].
        eapply has_shot_evolves; eassumption.
      * destruct Hne2 as [Hf2 _]; [discriminate|]. congruence.
Qed.

(** A step that leaves the roster alone and prints no hunter shot. *)
Lemma match_evolves_quiet g g' new :
  players g' = players g -> stdout g' = stdout g ++ new ->
  (forall h, shots_by h new = 0%nat) -> match_evolves g g'.
Proof.
  intros Hp Ho Hs. split; [rewrite Hp; apply roster_evolves_refl|].
  exists new. split; [exact Ho|]. intros h. rewrite Hs.
  split; [lia|intros H; contradiction H; reflexivity].
Qed.

Lemma match_evolves_silent g g' :
  players g' = players g -> stdout g' = stdout g -> match_evolves g g'.
Proof.
  intros Hp Ho. apply (match_evolves_quiet g g' []); [exact Hp| |reflexivity].
  rewrite app_nil_r. exact Ho.
Qed.

Section Evolution.
Context {U : Unicode} {E : Env}.

Lemma evolves_send_stage seat stage expect :
  preserves match_evolves (_send_stage seat stage expect).
Proof.
  intros g. unfold _send_stage.
  destruct (interact (_log g) seat stage expect (rng g)) as [response rng'].
  simpl. apply (match_evolves_quiet _ _ [P_stage seat stage response]);
    reflexivity.
Qed.

Lemma evolves_modify f :
  (forall g, players (f g) = players g) -> (forall g, stdout (f g) = stdout g) ->
  preserves match_evolves (modify f).
Proof.
  intros Hp Ho. apply preserves_modify.
  intros g. apply match_evolves_silent; auto.
Qed.

Lemma evolves_print p :
  (forall h, is_shot_by h p = false) -> preserves match_evolves (print p).
Proof.
  intros Hp g. simpl. apply (match_evolves_quiet _ _ [p]); [reflexivity..|].
  intros h. unfold shots_by. simpl. rewrite Hp. reflexivity.
Qed.

Lemma evolves_on_chronicle f : preserves match_evolves (on_chronicle f).
Proof. apply evolves_modify; reflexivity. Qed.

Lemma evolves_log_event k from target :
  preserves match_evolves (log_event k from target).
Proof. apply evolves_modify; reflexivity. Qed.

Lemma evolves_outcome_setattr f : preserves match_evolves (outcome_setattr f).
Proof.
  unfold outcome_setattr. preserves_steps. apply evolves_modify; reflexivity.
Qed.

Lemma evolves_rng_pick l : preserves match_evolves (rng_pick l).
Proof.
  intros g. unfold rng_pick. destruct (rng_choice (rng g) (length l)) as [i rng'].
  simpl. apply match_evolves_silent; reflexivity.
Qed.

Lemma evolves_player_setattr seat f :
  (forall p, player_evolves p (f p)) ->
  preserves match_evolves (player_setattr seat f).
Proof.
  intros Hf g. unfold player_setattr, bind, _player, modify.
  destruct (od_get seat (players g)) as [p|] eqn:Hp; simpl; [|reflexivity].
  split; simpl.
  - apply roster_evolves_od_set; [exact Hp|apply Hf].
  - exists []. split; [rewrite app_nil_r; reflexivity|].
    intros h. unfold shots_by. simpl. split; [lia|intros H; contradiction H; reflexivity].
Qed.

Lemma evolves_send_briefing seat : preserves match_evolves (send_briefing seat).
Proof. unfold send_briefing. preserves_steps; apply evolves_send_stage. Qed.

Lemma set_alive_false_evolves p : player_evolves p (set_alive false p).
Proof. repeat split; simpl; [discriminate|auto]. Qed.

Lemma set_hunter_has_shot_evolves p : player_evolves p (set_hunter_has_shot true p).
Proof. repeat split; simpl; auto. Qed.

Lemma add_note_evolves n p : player_evolves p (add_note n p).
Proof. repeat split; simpl; auto. Qed.

Lemma set_role_private_evolves rp p : player_evolves p (set_role_private rp p).
Proof. repeat split; simpl; auto. Qed.

End Evolution.

Create HintDb evolves.
#[export] Hint Resolve evolves_send_stage evolves_on_chronicle evolves_log_event
  evolves_outcome_setattr evolves_rng_pick evolves_send_briefing
  set_alive_false_evolves set_hunter_has_shot_evolves add_note_evolves
  set_role_private_evolves : evolves.

Section MethodsEvolve.
Context {U : Unicode} {E : Env}.

(** The block of [_trigger_hunter_if_needed] that shoots: kill, announce,
    record. *)
Lemma shot_then_flag seat target g p :
  od_get seat (players g) = Some p ->
  hunter_has_shot p = false ->
  match_evolves g
    (state_after
       (((player_setattr target (set_alive false) ;;;
          print (P_hunter_shot seat target) ;;;
          on_chronicle (refresh_global_summary (hunter_shot_summary seat target))) ;;;
         player_setattr seat (set_hunter_has_shot true)) g)).
Proof.
  intros Hp Hflag. unfold bind.
  destruct (od_get target (players g)) as [pt|] eqn:Ht.
  - rewrite (player_setattr_present _ _ _ _ Ht).
    unfold print, on_chronicle, modify.
    assert (Hseat : exists p1, od_get seat (od_set target (set_alive false pt) (players g))
                               = Some p1).
    { rewrite od_get_od_set. destruct (seat =? target); eauto. }
    destruct Hseat as [p1 Hp1].
    erewrite player_setattr_present by (simpl; exact Hp1).
    split; simpl.
    + eapply roster_evolves_trans.
      * apply (roster_evolves_od_set _ _ _ (set_alive false) Ht).
        apply set_alive_false_evolves.
      * apply (roster_evolves_od_set _ _ _ (set_hunter_has_shot true) Hp1).
        apply set_hunter_has_shot_evolves.
    + exists [P_hunter_shot seat target]. split; [reflexivity|].
      intros h. unfold shots_by. simpl.
      destruct (seat =? h) eqn:Hh; simpl.
      * apply Z.eqb_eq in Hh. subst h. split; [lia|]. intros _.
        unfold has_shot. simpl. rewrite Hp, od_get_od_set, Z.eqb_refl. auto.
      * split; [lia|intros H; contradiction H; reflexivity].
  - unfold player_setattr, bind, _player. rewrite Ht. simpl. reflexivity.
Qed.

Lemma evolves_trigger_hunter seat cause :
  preserves match_evolves (_trigger_hunter_if_needed seat cause).
Proof.
  intros g. unfold _trigger_hunter_if_needed. unfold bind at 1, get.
  destruct (od_get seat (players g)) as [player|] eqn:Hp; [|reflexivity].
  destruct (negb (Role_eqb (role player) HUNTER) || hunter_has_shot player) eqn:Hguard;
    [reflexivity|].
  apply orb_false_iff in Hguard as [_ Hflag].
  unfold bind at 1.
  pose proof (evolves_send_stage seat stage_hunter_trigger true g) as Hsend.
  assert (Hplayers : players (state_after (_send_stage seat stage_hunter_trigger true g))
                     = players g).
  { unfold _send_stage. destruct (interact _ _ _ _ _). reflexivity. }
  destruct (_send_stage seat stage_hunter_trigger true g) as [response g1|e g1];
    simpl in Hsend, Hplayers; [|exact Hsend].
  destruct response as [[|c r]|]; [exact Hsend| |exact Hsend].
  etransitivity; [exact Hsend|].
  assert (Hp1 : od_get seat (players g1) = Some player) by (rewrite Hplayers; exact Hp).
  assert (Hflagonly : match_evolves g1
            (state_after (player_setattr seat (set_hunter_has_shot true) g1))).
  { apply evolves_player_setattr. apply set_hunter_has_shot_evolves. }
  destruct (contains (bracketed kw_shoot) (c :: r)).
  - destruct (_parse_directive (c :: r) kw_shoot) as [target|].
    + unfold bind at 1. unfold bind at 1. unfold get.
      destruct (alive (default player (od_get target (players g1)))).
      * apply (shot_then_flag seat target g1 player Hp1 Hflag).
      * exact Hflagonly.
    + exact Hflagonly.
  - unfold bind at 1.
    pose proof (evolves_print (P_hunter_pass seat) (fun _ => eq_refl) g1) as Hprint.
    destruct (print (P_hunter_pass seat) g1) as [[] g2|e g2]; simpl in Hprint;
      [|exact Hprint].
    etransitivity; [exact Hprint|].
    apply evolves_player_setattr. apply set_hunter_has_shot_evolves.
Qed.

Ltac evolves_prim :=
  first [ apply evolves_player_setattr; intros; auto with evolves
        | apply evolves_modify; reflexivity
        | apply evolves_print; reflexivity
        | solve [auto with evolves] ].

Ltac evolves := preserves_steps; evolves_prim.

Lemma evolves_resolve_deaths : preserves match_evolves _resolve_deaths.
Proof. unfold _resolve_deaths. evolves. Qed.

Lemma evolves_is_finished : preserves match_evolves _is_finished.
Proof. unfold _is_finished. evolves. Qed.

Lemma evolves_wolf_turn votes wid : preserves match_evolves (wolf_turn votes wid).
Proof. unfold wolf_turn. evolves. Qed.

Lemma evolves_wolves_tally votes : preserves match_evolves (wolves_tally votes).
Proof. unfold wolves_tally. evolves. Qed.

#[local] Hint Resolve evolves_trigger_hunter evolves_resolve_deaths
  evolves_is_finished evolves_wolf_turn evolves_wolves_tally : evolves.

Lemma evolves_night_wolves : preserves match_evolves _night_wolves.
Proof. unfold _night_wolves. evolves. Qed.

Lemma evolves_store_potions seat p : preserves match_evolves (store_potions seat p).
Proof. unfold store_potions. evolves. Qed.

#[local] Hint Resolve evolves_night_wolves evolves_store_potions : evolves.

Lemma evolves_mutate_potions seat w p :
  preserves match_evolves (mutate_potions seat w p).
Proof. unfold mutate_potions. evolves. Qed.

#[local] Hint Resolve evolves_mutate_potions : evolves.

Lemma evolves_night_witch : preserves match_evolves _night_witch.
Proof. unfold _night_witch. evolves. Qed.

#[local] Hint Resolve evolves_night_witch : evolves.

Lemma evolves_night_phase : preserves match_evolves _night_phase.
Proof. unfold _night_phase. evolves. Qed.

Lemma evolves_daybreak : preserves match_evolves _daybreak.
Proof. unfold _daybreak. evolves. Qed.

Lemma evolves_vote_turn vr seat : preserves match_evolves (vote_turn vr seat).
Proof. unfold vote_turn. evolves. Qed.

#[local] Hint Resolve evolves_night_phase evolves_daybreak evolves_vote_turn : evolves.

Lemma evolves_voting order : preserves match_evolves (_voting order).
Proof. unfold _voting. evolves. Qed.

Lemma evolves_talk_turn idx seat : preserves match_evolves (talk_turn idx seat).
Proof. unfold talk_turn. evolves. Qed.

#[local] Hint Resolve evolves_voting evolves_talk_turn : evolves.

Lemma evolves_day_phase : preserves match_evolves _day_phase.
Proof. unfold _day_phase. evolves. Qed.

Lemma evolves_setup : preserves match_evolves setup.
Proof. unfold setup, _wolf_intro. evolves. Qed.

Lemma evolves_postgame : preserves match_evolves _postgame.
Proof. unfold _postgame. evolves. Qed.

#[local] Hint Resolve evolves_day_phase evolves_setup evolves_postgame : evolves.

Lemma evolves_run_rounds n : preserves match_evolves (run_rounds n).
Proof. induction n as [|n IH]; simpl; evolves. Qed.

#[local] Hint Resolve evolves_run_rounds : evolves.

Lemma evolves_run_game : preserves match_evolves run_game.
Proof. unfold run_game. evolves. Qed.

#[local] Hint Resolve evolves_run_game : evolves.

Lemma evolves_perform a : preserves match_evolves (perform a).
Proof. destruct a; simpl; evolves. Qed.

Lemma evolves_perform_all actions g : match_evolves g (perform_all actions g).
Proof.
  revert g. induction actions as [|a actions IH]; intros g; simpl; [reflexivity|].
  etransitivity; [apply evolves_perform|apply IH].
Qed.

End MethodsEvolve.

(** ** Win evaluation *)

Lemma is_finished_unfold g :
  _is_finished g
  = if wolves_alive_count g =? 0 then Ret true (set_result villagers_win g)
    else if villagers_alive_count g <=? wolves_alive_count g
         then Ret true (set_result wolves_win g)
         else Ret false g.
Proof.
  unfold _is_finished, bind, get, modify, ret.
  destruct (wolves_alive_count g =? 0); [reflexivity|].
  destruct (villagers_alive_count g <=? wolves_alive_count g); reflexivity.
Qed.





Lemma is_finished_times_stable (n : nat) (b : bool) (r : GameResult) (g : GameMaster) :
  _is_finished (if b then set_result r g else g)
  = Ret b (if b then set_result r g else g) ->
  is_finished_times n (if b then set_result r g else g)
  = (replicate n b, if b then set_result r g else g).
Proof.
  intros Hfix. induction n as [|n IH]; simpl; [reflexivity|].
  rewrite Hfix, IH. reflexivity.
Qed.

(** C7, as the code has it.  [_is_finished] depends on the roster only:
    on every state with the same roster it returns the same answer and
    writes the same verdict.  It may be called any number of times: every
    call returns the same answer, and the state after any number of calls
    is the state after the first.  A call leaves the configuration, the
    roster, the chronicle, the round number, the random source and every
    other attribute as they were, except that when the match is finished
    the verdict, [villagers_win] or [wolves_win], is written to [_result];
    when the match goes on, [_result] too is left as it was. *)
Theorem is_finished_idempotent (g : GameMaster) (n : nat) :
  exists (b : bool) (r : GameResult),
    (if b then r = villagers_win \/ r = wolves_win else r = ongoing) /\
    r = board_verdict g /\
    (forall g2, players g2 = players g ->
       _is_finished g2 = Ret b (if b then set_result r g2 else g2)) /\
    _is_finished g = Ret b (if b then set_result r g else g) /\
    is_finished_times (S n) g
    = (replicate (S n) b, if b then set_result r g else g) /\
    let g1 := if b then set_result r g else g in
    config g1 = config g /\ rng g1 = rng g /\ players g1 = players g /\
    chronicle g1 = chronicle g /\ round_no g1 = round_no g /\
    _night_outcome g1 = _night_outcome g /\ _day_spoken g1 = _day_spoken g /\
    _vote_record g1 = _vote_record g /\ _log g1 = _log g /\ stdout g1 = stdout g /\
    (b = false -> _result g1 = _result g) /\ (b = true -> _result g1 = r).
Proof.
  assert (Hcounts : forall g2, players g2 = players g ->
            wolves_alive_count g2 = wolves_alive_count g /\
            villagers_alive_count g2 = villagers_alive_count g).
  { intros g2 Hpl. unfold wolves_alive_count, villagers_alive_count.
    rewrite Hpl. split; reflexivity. }
  assert (Htimes : forall (b : bool) (r : GameResult),
            _is_finished (if b then set_result r g else g)
            = Ret b (if b then set_result r g else g) ->
            _is_finished g = Ret b (if b then set_result r g else g) ->
            is_finished_times (S n) g
            = (replicate (S n) b, if b then set_result r g else g)).
  { intros b r Hfix Hone.
    change (is_finished_times (S n) g)
      with (match _is_finished g with
            | Ret b g1 => let '(bs, g2) := is_finished_times n g1 in (b :: bs, g2)
            | Raise _ g1 => ([], g1)
            end).
    rewrite Hone. rewrite (is_finished_times_stable n b r g Hfix). reflexivity. }
  unfold board_verdict.
  destruct (wolves_alive_count g =? 0) eqn:Hw;
    [|destruct (villagers_alive_count g <=? wolves_alive_count g) eqn:Hv].
  - exists true, villagers_win.
    assert (Hall : forall g2, players g2 = players g ->
              _is_finished g2 = Ret true (set_result villagers_win g2)).
    { intros g2 Hpl. rewrite is_finished_unfold.
      destruct (Hcounts g2 Hpl) as [-> _]. rewrite Hw. reflexivity. }
    split; [left; reflexivity|]. split; [reflexivity|]. split; [exact Hall|].
    split; [apply Hall; reflexivity|].
    split; [apply (Htimes true villagers_win);
            [exact (Hall (set_result villagers_win g) eq_refl)|apply Hall; reflexivity]|].
    cbv zeta. repeat split; first [reflexivity | discriminate | intros; reflexivity].
  - exists true, wolves_win.
    assert (Hall : forall g2, players g2 = players g ->
              _is_finished g2 = Ret true (set_result wolves_win g2)).
    { intros g2 Hpl. rewrite is_finished_unfold.
      destruct (Hcounts g2 Hpl) as [-> ->]. rewrite Hw, Hv. reflexivity. }
    split; [right; reflexivity|]. split; [reflexivity|]. split; [exact Hall|].
    split; [apply Hall; reflexivity|].
    split; [apply (Htimes true wolves_win);
            [exact (Hall (set_result wolves_win g) eq_refl)|apply Hall; reflexivity]|].
    cbv zeta. repeat split; first [reflexivity | discriminate | intros; reflexivity].
  - exists false, ongoing.
    assert (Hall : forall g2, players g2 = players g -> _is_finished g2 = Ret false g2).
    { intros g2 Hpl. rewrite is_finished_unfold.
      destruct (Hcounts g2 Hpl) as [-> ->]. rewrite Hw, Hv. reflexivity. }
    split; [reflexivity|]. split; [reflexivity|]. split; [exact Hall|].
    split; [apply Hall; reflexivity|].
    split; [apply (Htimes false ongoing); apply Hall; reflexivity|].
    cbv zeta. repeat split; first [reflexivity | discriminate | intros; reflexivity].
Qed.

(** The default match with both wolves dead, later in the match (round 5,
    another state of the random source): the roster is the same, and so
    is the answer of [_is_finished], however often it is called. *)
Lemma is_finished_idempotent_witness :
  let g2 := set_round_no 5 (set_rng 7 wolves_dead_match) in
  players g2 = players wolves_dead_match /\
  _is_finished g2 = Ret true (set_result villagers_win g2) /\
  is_finished_times 3 wolves_dead_match
  = ([true; true; true], set_result villagers_win wolves_dead_match).
Proof.
  intros g2.
  assert (Hboard : board_verdict wolves_dead_match = villagers_win)
    by (vm_compute; reflexivity).
  destruct (is_finished_idempotent wolves_dead_match 2)
    as (b & r & Hverdict & Hr & Hroster & _ & Htimes & _).
  rewrite Hboard in Hr. subst r.
  destruct b; [|discriminate Hverdict].
  assert (Hpl : players g2 = players wolves_dead_match)
    by (vm_compute; reflexivity).
  split; [exact Hpl|]. split; [exact (Hroster g2 Hpl)|exact Htimes].
Defined.

(** In the default match with both wolves dead and the result still
    [ongoing], one call of [_is_finished] changes the recorded result. *)
Lemma is_finished_writes_result :
  _result wolves_dead_match = ongoing /\
  _is_finished wolves_dead_match
  = Ret true (set_result villagers_win wolves_dead_match) /\
  state_after (_is_finished wolves_dead_match) <> wolves_dead_match.
Proof.
  split; [reflexivity|]. split; [vm_compute; reflexivity|].
  intros H. apply (f_equal _result) in H. vm_compute in H. discriminate.
Qed.

(** ** The hunter's shot *)

Section HunterFacts.
Context {U : Unicode} {E : Env}.

Lemma is_alive_players g g' s : players g' = players g -> is_alive g' s = is_alive g s.
Proof. unfold is_alive. intros ->. reflexivity. Qed.

Lemma is_alive_od_set g k p p' s :
  od_get k (players g) = Some p ->
  is_alive (set_players (od_set k p' (players g)) g) s
  = if s =? k then alive p' else is_alive g s.
Proof.
  intros Hk. unfold is_alive. simpl. rewrite od_get_od_set.
  destruct (s =? k); reflexivity.
Qed.

(** Setting the used flag changes nobody's [alive]. *)
Lemma set_flag_keeps_alive seat g s :
  is_alive (state_after (player_setattr seat (set_hunter_has_shot true) g)) s
  = is_alive g s.
Proof.
  unfold player_setattr, bind, _player, modify.
  destruct (od_get seat (players g)) as [p|] eqn:Hp; simpl; [|reflexivity].
  rewrite (is_alive_od_set _ _ p) by exact Hp.
  destruct (s =? seat) eqn:Hs; [|reflexivity].
  apply Z.eqb_eq in Hs. subst s. unfold is_alive. rewrite Hp. reflexivity.
Qed.

Lemma set_flag_keeps_stdout seat g :
  stdout (state_after (player_setattr seat (set_hunter_has_shot true) g)) = stdout g.
Proof.
  unfold player_setattr, bind, _player, modify.
  destruct (od_get seat (players g)); reflexivity.
Qed.

(** The trigger, branch by branch. *)
Lemma trigger_hunter_unfold seat cause g :
  _trigger_hunter_if_needed seat cause g
  = match od_get seat (players g) with
    | None => Ret tt g
    | Some player =>
        if negb (Role_eqb (role player) HUNTER) || hunter_has_shot player then Ret tt g
        else
          match _send_stage seat stage_hunter_trigger true g with
          | Raise e g1 => Raise e g1
          | Ret (Some (c :: r)) g1 =>
              if contains (bracketed kw_shoot) (c :: r) then
                match _parse_directive (c :: r) kw_shoot with
                | Some target =>
                    match od_get target (players g1) with
                    | Some pt =>
                        if alive pt then
                          player_setattr seat (set_hunter_has_shot true)
                            (set_chronicle
                               (refresh_global_summary (hunter_shot_summary seat target)
                                  (chronicle g1))
                               (set_stdout (stdout g1 ++ [P_hunter_shot seat target])
                                  (set_players
                                     (od_set target (set_alive false pt) (players g1)) g1)))
                        else player_setattr seat (set_hunter_has_shot true) g1
                    | None =>
                        if alive player then Raise (KeyError target) g1
                        else player_setattr seat (set_hunter_has_shot true) g1
                    end
                | None => player_setattr seat (set_hunter_has_shot true) g1
                end
              else
                player_setattr seat (set_hunter_has_shot true)
                  (set_stdout (stdout g1 ++ [P_hunter_pass seat]) g1)
          | Ret _ g1 => Ret tt g1
          end
    end.
Proof.
  unfold _trigger_hunter_if_needed. unfold bind at 1, get.
  destruct (od_get seat (players g)) as [player|]; [|reflexivity].
  destruct (negb (Role_eqb (role player) HUNTER) || hunter_has_shot player);
    [reflexivity|].
  unfold bind at 1.
  destruct (_send_stage seat stage_hunter_trigger true g) as [response g1|e g1];
    [|reflexivity].
  destruct response as [[|c r]|]; [reflexivity| |reflexivity].
  destruct (contains (bracketed kw_shoot) (c :: r)).
  - destruct (_parse_directive (c :: r) kw_shoot) as [target|]; [|reflexivity].
    unfold bind at 1. unfold bind at 1. unfold get.
    destruct (od_get target (players g1)) as [pt|] eqn:Ht; cbn [from_option id].
    + destruct (alive pt); [|reflexivity].
      unfold bind at 1. unfold bind at 1.
      rewrite (player_setattr_present _ _ _ _ Ht). reflexivity.
    + destruct (alive player); [|reflexivity].
      unfold bind at 1. unfold bind at 1.
      unfold player_setattr at 1, bind, _player. rewrite Ht. reflexivity.
  - reflexivity.
Qed.

Lemma send_stage_returns seat stage expect g :
  exists response g1,
    _send_stage seat stage expect g = Ret response g1 /\
    players g1 = players g /\
    stdout g1 = stdout g ++ [P_stage seat stage response] /\
    chronicle g1 = chronicle g /\
    response = fst (interact (_log g) seat stage expect (rng g)).
Proof.
  unfold _send_stage.
  destruct (interact (_log g) seat stage expect (rng g)) as [response rng'].
  eexists _, _. repeat split.
Qed.

(** What one call of the trigger does to the roster and the console:
    either nobody's [alive] changes and no shot of this seat is
    announced, or one alive seat is killed and that one shot announced. *)
Lemma trigger_hunter_kill_announced seat cause g :
  exists g1 new,
    state_after (_trigger_hunter_if_needed seat cause g) = g1 /\
    stdout g1 = stdout g ++ new /\
    ((shots_by seat new = 0%nat /\ forall s, is_alive g1 s = is_alive g s) \/
     (shots_by seat new = 1%nat /\
      exists t, is_alive g t = true /\
                forall s, is_alive g1 s = is_alive g s && negb (s =? t))).
Proof.
  rewrite trigger_hunter_unfold.
  assert (Hnone : exists g1 new,
            g = g1 /\ stdout g1 = stdout g ++ new /\
            ((shots_by seat new = 0%nat /\ forall s, is_alive g1 s = is_alive g s) \/
             (shots_by seat new = 1%nat /\
              exists t, is_alive g t = true /\
                        forall s, is_alive g1 s = is_alive g s && negb (s =? t)))).
  { exists g, []. split; [reflexivity|]. split; [rewrite app_nil_r; reflexivity|].
    left. auto. }
  destruct (od_get seat (players g)) as [player|] eqn:Hp; [|exact Hnone].
  destruct (negb (Role_eqb (role player) HUNTER) || hunter_has_shot player);
    [exact Hnone|]. clear Hnone.
  destruct (send_stage_returns seat stage_hunter_trigger true g)
    as (response & g1 & -> & Hpl & Hout & _).
  assert (Hquiet : forall g2 : GameMaster,
            stdout g2 = stdout g1 -> (forall s, is_alive g2 s = is_alive g1 s) ->
            exists g3 new, g2 = g3 /\ stdout g3 = stdout g ++ new /\
              ((shots_by seat new = 0%nat /\ forall s, is_alive g3 s = is_alive g s) \/
               (shots_by seat new = 1%nat /\
                exists t, is_alive g t = true /\
                          forall s, is_alive g3 s = is_alive g s && negb (s =? t)))).
  { intros g2 Ho Ha. exists g2, [P_stage seat stage_hunter_trigger response].
    split; [reflexivity|]. split; [rewrite Ho; exact Hout|]. left.
    split; [reflexivity|]. intros s. rewrite Ha. apply is_alive_players, Hpl. }
  assert (Hflag : forall s, is_alive
             (state_after (player_setattr seat (set_hunter_has_shot true) g1)) s
             = is_alive g1 s) by (intros s; apply set_flag_keeps_alive).
  pose proof (set_flag_keeps_stdout seat g1) as Hflago.
  destruct response as [[|c r]|]; [apply Hquiet; reflexivity| |apply Hquiet; reflexivity].
  destruct (contains (bracketed kw_shoot) (c :: r)).
  - destruct (_parse_directive (c :: r) kw_shoot) as [target|];
      [|apply Hquiet; assumption].
    destruct (od_get target (players g1)) as [pt|] eqn:Ht.
    + destruct (alive pt) eqn:Hapt; [|apply Hquiet; assumption].
      eexists _, [P_stage seat stage_hunter_trigger (Some (c :: r)); P_hunter_shot seat target].
      split; [reflexivity|]. split.
      * rewrite set_flag_keeps_stdout. simpl. rewrite Hout, <- app_assoc. reflexivity.
      * right. split; [unfold shots_by; simpl; rewrite Z.eqb_refl; reflexivity|].
        exists target. split.
        -- rewrite <- (is_alive_players g g1) by exact Hpl.
           unfold is_alive. rewrite Ht. exact Hapt.
        -- intros s. rewrite set_flag_keeps_alive.
           rewrite <- (is_alive_players g g1 s) by exact Hpl.
           transitivity (is_alive (set_players
                           (od_set target (set_alive false pt) (players g1)) g1) s);
             [reflexivity|].
           rewrite (is_alive_od_set _ _ pt) by exact Ht.
           destruct (s =? target); simpl.
           ++ rewrite andb_false_r. reflexivity.
           ++ rewrite andb_true_r. reflexivity.
    + destruct (alive player); apply Hquiet; solve [reflexivity|assumption].
  - eexists _, [P_stage seat stage_hunter_trigger (Some (c :: r)); P_hunter_pass seat].
    split; [reflexivity|]. split.
    + rewrite set_flag_keeps_stdout. simpl. rewrite Hout, <- app_assoc. reflexivity.
    + left. split; [reflexivity|]. intros s. rewrite set_flag_keeps_alive.
      rewrite <- (is_alive_players g g1 s) by exact Hpl. reflexivity.
Qed.

(** An empty or absent reply ends the trigger before the flag is set. *)
Lemma trigger_hunter_empty_reply seat cause g player :
  od_get seat (players g) = Some player ->
  role player = HUNTER -> hunter_has_shot player = false ->
  truthy (fst (interact (_log g) seat stage_hunter_trigger true (rng g))) = false ->
  exists g1, _trigger_hunter_if_needed seat cause g = Ret tt g1 /\
             has_shot g1 seat = false.
Proof.
  intros Hp Hrole Hflag Hreply. rewrite trigger_hunter_unfold, Hp, Hrole, Hflag.
  cbn [Role_eqb negb orb].
  destruct (send_stage_returns seat stage_hunter_trigger true g)
    as (response & g1 & -> & Hpl & _ & _ & ->).
  assert (Hs : has_shot g1 seat = false)
    by (unfold has_shot; rewrite Hpl, Hp; exact Hflag).
  destruct (fst (interact (_log g) seat stage_hunter_trigger true (rng g)))
    as [[|c r]|]; [eauto| discriminate |eauto].
Qed.

(** After a reply that is not empty the flag is set, whenever the trigger
    returns. *)
Lemma trigger_hunter_reply_sets_flag seat cause g player g1 :
  od_get seat (players g) = Some player ->
  role player = HUNTER -> hunter_has_shot player = false ->
  truthy (fst (interact (_log g) seat stage_hunter_trigger true (rng g))) = true ->
  _trigger_hunter_if_needed seat cause g = Ret tt g1 ->
  has_shot g1 seat = true.
Proof.
  intros Hp Hrole Hflag Hreply. rewrite trigger_hunter_unfold, Hp, Hrole, Hflag.
  cbn [Role_eqb negb orb].
  destruct (send_stage_returns seat stage_hunter_trigger true g)
    as (response & g0 & -> & Hpl & _ & _ & ->).
  assert (Hset : forall g2 : GameMaster,
            is_Some (od_get seat (players g2)) ->
            player_setattr seat (set_hunter_has_shot true) g2 = Ret tt g1 ->
            has_shot g1 seat = true).
  { intros g2 [p2 Hp2]. rewrite (player_setattr_present _ _ _ _ Hp2).
    intros [= <-]. unfold has_shot. simpl. rewrite od_get_od_set, Z.eqb_refl. reflexivity. }
  assert (Hp0 : is_Some (od_get seat (players g0))) by (rewrite Hpl, Hp; eauto).
  destruct (fst (interact (_log g) seat stage_hunter_trigger true (rng g)))
    as [[|c r]|]; try discriminate.
  destruct (contains (bracketed kw_shoot) (c :: r)).
  - destruct (_parse_directive (c :: r) kw_shoot) as [target|]; [|apply Hset, Hp0].
    destruct (od_get target (players g0)) as [pt|] eqn:Ht.
    + destruct (alive pt); [|apply Hset, Hp0].
      apply Hset. simpl. rewrite od_get_od_set. destruct (seat =? target); eauto.
    + destruct (alive player); [discriminate|apply Hset, Hp0].
  - apply Hset. exact Hp0.
Qed.

End HunterFacts.

(** C4, on the code.  The hunter of seat 4 has been lynched, has not
    shot, and gives no reply to the trigger: the call returns with the
    used flag still unset.  (With the empty string for a reply it is the
    same: [if not response: return] comes before the flag is set.) *)
Theorem hunter_flag_unset_after_empty_reply :
  has_shot hunter_lynched_match 4 = false /\
  (exists g1,
     @_trigger_hunter_if_needed unicode_sample env_silent
       4 cause_lynch hunter_lynched_match = Ret tt g1 /\
     has_shot g1 4 = false) /\
  (exists g1,
     @_trigger_hunter_if_needed unicode_sample (env_scripted (fun _ _ => Some []))
       4 cause_lynch hunter_lynched_match = Ret tt g1 /\
     has_shot g1 4 = false).
Proof.
  split; [reflexivity|].
  split; (eexists; split; [vm_compute; reflexivity|reflexivity]).
Qed.

(** C6.  The hunter's shot is single-use.  One call of the trigger on
    seat [h] either changes nobody's [alive] and announces no shot of
    [h], or kills one alive seat and announces that one shot.  Over any
    sequence of calls on the game master, with any agent, at most one
    shot of [h] is announced; and once one has been, every later call of
    the trigger on [h] returns at once and changes nothing. *)
Theorem hunter_shoots_at_most_once {U : Unicode} {E : Env} (h : Z) :
  (forall g cause,
     exists g1 new,
       state_after (_trigger_hunter_if_needed h cause g) = g1 /\
       stdout g1 = stdout g ++ new /\
       ((shots_by h new = 0%nat /\ forall s, is_alive g1 s = is_alive g s) \/
        (shots_by h new = 1%nat /\
         exists t, is_alive g t = true /\
                   forall s, is_alive g1 s = is_alive g s && negb (s =? t)))) /\
  (forall g actions,
     exists new,
       stdout (perform_all actions g) = stdout g ++ new /\
       (shots_by h new <= 1)%nat /\
       (shots_by h new <> 0%nat ->
        forall more cause,
          let g2 := perform_all more (perform_all actions g) in
          _trigger_hunter_if_needed h cause g2 = Ret tt g2)).
Proof.
  split.
  - intros g cause. apply trigger_hunter_kill_announced.
  - intros g actions.
    destruct (evolves_perform_all actions g) as [Hr (new & Hout & Hshots)].
    exists new. split; [exact Hout|]. destruct (Hshots h) as [Hle Hflag].
    split; [exact Hle|]. intros Hne more cause g2.
    destruct (Hflag Hne) as [_ Hset].
    destruct (evolves_perform_all more (perform_all actions g)) as [Hr2 _].
    pose proof (has_shot_evolves _ _ h Hr2 Hset) as Hset2. fold g2 in Hset2.
    rewrite trigger_hunter_unfold. unfold has_shot in Hset2.
    destruct (od_get h (players g2)) as [p|]; [|reflexivity].
    rewrite Hset2, orb_true_r. reflexivity.
Qed.

(** In the scripted match the hunter of seat 4 dies in the first night
    and shoots seat 1 at daybreak; triggered again after the day phase,
    nothing happens. *)
Lemma hunter_shoots_at_most_once_witness :
  let g1 := @perform_all unicode_sample env_demo [do_night_phase; do_daybreak]
              default_match in
  let g2 := @perform_all unicode_sample env_demo [do_day_phase] g1 in
  shots_by 4 (stdout g1) = 1%nat /\
  @_trigger_hunter_if_needed unicode_sample env_demo 4 cause_lynch g2 = Ret tt g2.
Proof.
  intros g1 g2. split; [vm_compute; reflexivity|].
  destruct (proj2 (@hunter_shoots_at_most_once unicode_sample env_demo 4)
              default_match [do_night_phase; do_daybreak])
    as (new & Hout & _ & Hnoop).
  apply (Hnoop). fold g1 in Hout. simpl in Hout. subst new. vm_compute. discriminate.
Defined.

(** ** Voting *)

Section VoteFacts.
Context {U : Unicode} {E : Env}.

Lemma send_stage_frame seat stage expect g :
  exists response g1,
    _send_stage seat stage expect g = Ret response g1 /\
    players g1 = players g /\ chronicle g1 = chronicle g /\
    round_no g1 = round_no g /\
    _log g1 = _log g ++ [{| sr_seat := seat; sr_stage := stage;
                            sr_response := response |}].
Proof.
  unfold _send_stage.
  destruct (interact (_log g) seat stage expect (rng g)) as [response rng'].
  eexists _, _. repeat split.
Qed.

Lemma send_briefing_frame seat g :
  exists g1,
    send_briefing seat g = Ret tt g1 /\
    players g1 = players g /\ chronicle g1 = chronicle g /\
    round_no g1 = round_no g.
Proof.
  unfold send_briefing, bind.
  destruct (send_stage_frame seat stage_context false g)
    as (r1 & g1 & -> & Hp1 & Hc1 & Hr1 & _).
  destruct (send_stage_frame seat stage_chronicle_digest false g1)
    as (r2 & g2 & -> & Hp2 & Hc2 & Hr2 & _).
  destruct (send_stage_frame seat stage_your_notes false g2)
    as (r3 & g3 & -> & Hp3 & Hc3 & Hr3 & _).
  exists g3. split; [reflexivity|]. repeat split; congruence.
Qed.

(** The vote a reply resolves to depends on the roster only. *)
Lemma resolve_vote_players g g' vote :
  players g' = players g -> resolve_vote g' vote = resolve_vote g vote.
Proof. unfold resolve_vote, _wolves_alive. intros ->. reflexivity. Qed.

(** The fallback of [_voting]: the first alive wolf of the roster. *)
Lemma resolve_vote_fallback g vote :
  (parse_vote vote = None \/
   (exists t, parse_vote vote = Some t /\
              (od_get t (players g) = None \/
               exists p, od_get t (players g) = Some p /\ alive p = false))) ->
  resolve_vote g vote = head (_wolves_alive g).
Proof.
  intros Hbad. unfold resolve_vote. cbv zeta.
  destruct Hbad as [H | (t & H & [Hnone | (p & Hp & Hdead)])]; rewrite H.
  - reflexivity.
  - rewrite Hnone. reflexivity.
  - rewrite Hp, Hdead. reflexivity.
Qed.

Lemma resolve_vote_None g vote :
  resolve_vote g vote = None -> _wolves_alive g = [].
Proof.
  unfold resolve_vote. cbv zeta. set (parsed := parse_vote vote).
  assert (Hhead : head (_wolves_alive g) = None -> _wolves_alive g = []).
  { destruct (_wolves_alive g); [reflexivity|discriminate]. }
  destruct parsed as [t|]; [|exact Hhead].
  destruct (od_get t (players g)) as [p|]; [|exact Hhead].
  destruct (alive p); [discriminate|exact Hhead].
Qed.

End VoteFacts.

(** C5.  The vote of a seat.  An alive seat's turn in [_voting] returns;
    with [vote] the seat's reply to the vote stage, the vote recorded for
    the seat, in the vote record and in the chronicle, is
    [resolve_vote g vote].  When no target is parsed from the reply, or
    the parsed seat is not in the roster, or it is not alive, that vote is
    the first alive wolf of the roster, the voter included; it is [None]
    only when no wolf is alive. *)
Theorem vote_fallback {U : Unicode} {E : Env}
    (g : GameMaster) (vote_record : VoteRecord) (seat : Z) (player : PlayerState) :
  od_get seat (players g) = Some player -> alive player = true ->
  exists vote vr g1,
    vote_turn vote_record seat g = Ret vr g1 /\
    last (_log g1) = Some {| sr_seat := seat; sr_stage := stage_vote;
                             sr_response := vote |} /\
    od_get seat (vr_votes vr) = Some (resolve_vote g vote) /\
    (exists r, rounds (chronicle g1) !! round_no g = Some r /\
               last (votes (day r)) = Some (seat, resolve_vote g vote)) /\
    ((parse_vote vote = None \/
      (exists t, parse_vote vote = Some t /\
                 (od_get t (players g) = None \/
                  exists p, od_get t (players g) = Some p /\ alive p = false))) ->
     resolve_vote g vote = head (_wolves_alive g)) /\
    (resolve_vote g vote = None -> _wolves_alive g = []).
Proof.
  intros Hp Halive. unfold vote_turn. unfold bind at 1. unfold _player. rewrite Hp.
  rewrite Halive. cbn [negb]. unfold bind at 1.
  destruct (send_stage_frame seat stage_life_check true g)
    as (r1 & g1 & -> & Hp1 & Hc1 & Hr1 & _).
  unfold bind at 1.
  destruct (send_briefing_frame seat g1) as (g2 & -> & Hp2 & Hc2 & Hr2).
  unfold bind at 1.
  destruct (send_stage_frame seat stage_vote true g2)
    as (vote & g3 & -> & Hp3 & Hc3 & Hr3 & Hlog).
  unfold bind, get, on_chronicle, modify, ret.
  assert (Hplayers : players g3 = players g) by congruence.
  rewrite (resolve_vote_players g g3 vote Hplayers).
  exists vote. eexists _, _. split; [reflexivity|].
  split; [simpl; rewrite Hlog; apply last_snoc|].
  split; [simpl; rewrite od_get_od_set, Z.eqb_refl; reflexivity|].
  split; [|split; [apply resolve_vote_fallback|apply resolve_vote_None]].
  assert (Hround : round_no g3 = round_no g) by congruence.
  change (chronicle (set_chronicle ?c _)) with c.
  unfold add_vote. rewrite lookup_on_round.
  rewrite Hround, decide_True by reflexivity.
  eexists. split; [reflexivity|]. simpl. apply last_snoc.
Qed.

(** Seat 1, a wolf, answers the vote stage without a directive: its vote
    is recorded for seat 1 itself, the first alive wolf. *)
Lemma vote_fallback_witness :
  exists vr g1,
    @vote_turn unicode_sample env_silent
      {| vr_round_no := 1; vr_votes := []; vr_lynched := None |} 1 default_match
    = Ret vr g1 /\
    od_get 1 (vr_votes vr) = Some (Some 1).
Proof.
  destruct (@vote_fallback unicode_sample env_silent default_match
              {| vr_round_no := 1; vr_votes := []; vr_lynched := None |} 1
              (initial_player [1; 2; 3; 4; 5; 6] [1; 2]
                 {| sc_seat_id := 1; sc_role := WOLF;
                    sc_persona := nth 0 DEFAULT_PERSONAS [];
                    sc_dialect := nth 0 DEFAULT_DIALECTS [] |}))
    as (vote & vr & g1 & Hret & _); [reflexivity|reflexivity|].
  exists vr, g1. split; [exact Hret|].
  vm_compute in Hret. injection Hret as <- _. reflexivity.
Defined.

(** ** The speaking order of the day *)

Lemma day_order_ensure_round_Some c round_no o :
  day_order (ensure_round round_no (Some o) c) round_no = Some o.
Proof.
  unfold day_order, ensure_round.
  destruct (rounds c !! round_no) as [r|]; simpl; rewrite lookup_insert_eq; reflexivity.
Qed.

Lemma day_order_on_round c r0 f round_no o :
  (forall r, order (day (f r)) = order (day r)) ->
  day_order c round_no = Some o ->
  day_order (on_round r0 f c) round_no = Some o.
Proof.
  intros Hf. unfold day_order. rewrite lookup_on_round.
  destruct (decide (round_no = r0)) as [->|Hne]; [|auto].
  destruct (rounds c !! r0) as [r|]; simpl; [|discriminate].
  rewrite Hf. auto.
Qed.

Lemma day_order_append_day_summary c r0 s round_no o :
  day_order c round_no = Some o ->
  day_order (append_day_summary r0 s c) round_no = Some o.
Proof.
  apply day_order_on_round. intros r.
  destruct (bool_decide (s ∈ summary_10 (day r))); reflexivity.
Qed.

Lemma day_order_refresh_global_summary c t round_no :
  day_order (refresh_global_summary t c) round_no = day_order c round_no.
Proof.
  unfold refresh_global_summary.
  destruct (bool_decide (t ∈ global_summary c)); reflexivity.
Qed.

#[local] Instance keeps_day_order_preorder round_no : PreOrder (keeps_day_order round_no).
Proof.
  split.
  - intros g o H. exact H.
  - intros g1 g2 g3 H12 H23 o H. apply H23, H12, H.
Qed.

Section OrderFacts.
Context {U : Unicode} {E : Env}.
Variable round_no : Z.

Lemma keeps_same_chronicle g g' :
  chronicle g' = chronicle g -> keeps_day_order round_no g g'.
Proof. intros Hc o. rewrite Hc. auto. Qed.

Lemma keeps_send_stage seat stage expect :
  preserves (keeps_day_order round_no) (_send_stage seat stage expect).
Proof.
  intros g. unfold _send_stage. destruct (interact _ _ _ _ _).
  apply keeps_same_chronicle. reflexivity.
Qed.

Lemma keeps_modify f :
  (forall g, chronicle (f g) = chronicle g) ->
  preserves (keeps_day_order round_no) (modify f).
Proof. intros Hf. apply preserves_modify. intros g. apply keeps_same_chronicle, Hf. Qed.

Lemma keeps_print p : preserves (keeps_day_order round_no) (print p).
Proof. apply keeps_modify. reflexivity. Qed.

Lemma keeps_rng_pick l : preserves (keeps_day_order round_no) (rng_pick l).
Proof.
  intros g. unfold rng_pick. destruct (rng_choice _ _).
  apply keeps_same_chronicle. reflexivity.
Qed.

Lemma keeps_player_setattr seat f :
  preserves (keeps_day_order round_no) (player_setattr seat f).
Proof. unfold player_setattr. preserves_steps. apply keeps_modify. reflexivity. Qed.

Lemma keeps_on_chronicle f :
  (forall c o, day_order c round_no = Some o -> day_order (f c) round_no = Some o) ->
  preserves (keeps_day_order round_no) (on_chronicle f).
Proof. intros Hf. apply preserves_modify. intros g o Ho. apply Hf, Ho. Qed.

Lemma keeps_send_briefing seat :
  preserves (keeps_day_order round_no) (send_briefing seat).
Proof. unfold send_briefing. preserves_steps; apply keeps_send_stage. Qed.

Lemma keeps_day_methods :
  (forall r s, preserves (keeps_day_order round_no)
                 (on_chronicle (append_day_summary r s))) /\
  (forall t, preserves (keeps_day_order round_no)
               (on_chronicle (refresh_global_summary t))) /\
  (forall r f t, preserves (keeps_day_order round_no) (on_chronicle (add_vote r f t))) /\
  (forall r s, preserves (keeps_day_order round_no) (on_chronicle (set_lynch r s))) /\
  (forall r s i t o, preserves (keeps_day_order round_no)
                       (on_chronicle (add_day_utterance r s i t o))).
Proof.
  repeat split; intros; apply keeps_on_chronicle; intros c o' Ho.
  - apply day_order_append_day_summary, Ho.
  - rewrite day_order_refresh_global_summary. exact Ho.
  - apply day_order_on_round; [reflexivity|exact Ho].
  - apply day_order_on_round; [reflexivity|exact Ho].
  - apply day_order_on_round; [reflexivity|exact Ho].
Qed.

End OrderFacts.

Section DayOrder.
Context {U : Unicode} {E : Env}.
Variable round_no : Z.

Ltac keeps_prim :=
  first [ apply keeps_send_stage | apply keeps_print | apply keeps_player_setattr
        | apply keeps_rng_pick | apply keeps_send_briefing
        | apply keeps_modify; reflexivity
        | apply (proj1 (keeps_day_methods round_no))
        | apply (proj1 (proj2 (keeps_day_methods round_no)))
        | apply (proj1 (proj2 (proj2 (keeps_day_methods round_no))))
        | apply (proj1 (proj2 (proj2 (proj2 (keeps_day_methods round_no)))))
        | apply (proj2 (proj2 (proj2 (proj2 (keeps_day_methods round_no)))))
        | solve [auto] ].

Ltac keeps := preserves_steps; keeps_prim.

Lemma keeps_trigger_hunter seat cause :
  preserves (keeps_day_order round_no) (_trigger_hunter_if_needed seat cause).
Proof. unfold _trigger_hunter_if_needed. keeps. Qed.

Lemma keeps_vote_turn vr seat :
  preserves (keeps_day_order round_no) (vote_turn vr seat).
Proof. unfold vote_turn. keeps. Qed.

Lemma keeps_voting order :
  preserves (keeps_day_order round_no) (_voting order).
Proof.
  pose proof keeps_vote_turn. pose proof keeps_trigger_hunter.
  unfold _voting. keeps.
Qed.

Lemma keeps_talk_turn idx seat :
  preserves (keeps_day_order round_no) (talk_turn idx seat).
Proof. unfold talk_turn. keeps. Qed.

Lemma keeps_day_talk_and_vote alive_order :
  preserves (keeps_day_order round_no)
    (for_each (enumerate 1 alive_order) (fun '(idx, seat) => talk_turn idx seat) ;;;
     _voting alive_order).
Proof.
  pose proof keeps_talk_turn. pose proof keeps_voting. keeps.
Qed.

End DayOrder.

(** The day phase records the alive seats, in roster order, as the
    speaking order of its round, and nothing it does later changes it. *)
Lemma day_phase_records_alive_seats {U : Unicode} {E : Env} g :
  day_order (chronicle (state_after (_day_phase g))) (round_no g)
  = Some (_alive_seats g).
Proof.
  change (_day_phase g)
    with ((for_each (enumerate 1 (_alive_seats g))
             (fun '(idx, seat) => talk_turn idx seat) ;;;
           _voting (_alive_seats g))
            (set_day_spoken (map (fun seat => (seat, false)) (od_keys (players g)))
               (set_chronicle
                  (ensure_round (round_no g) (Some (_alive_seats g)) (chronicle g)) g))).
  apply (keeps_day_talk_and_vote (round_no g)).
  apply day_order_ensure_round_Some.
Qed.

Lemma od_keys_od_set_absent {V} k (v : V) d :
  od_get k d = None -> od_keys (od_set k v d) = od_keys d ++ [k].
Proof.
  induction d as [|[k0 v0] d IH]; simpl; [reflexivity|].
  destruct (k0 =? k); [discriminate|]. intros H. unfold od_keys in *. simpl.
  rewrite IH by exact H. reflexivity.
Qed.

(** The roster of a new game master lists the seats of the plan in the
    plan's order, when no seat occurs twice. *)
Lemma initialise_players_keys seats wolf_ids plan g :
  NoDup (od_keys (players g) ++ map sc_seat_id plan) ->
  od_keys (players
     (fold_left (fun g seat =>
                   set_day_spoken (od_set (sc_seat_id seat) false (_day_spoken g))
                     (set_players (od_set (sc_seat_id seat)
                                     (initial_player seats wolf_ids seat) (players g)) g))
                plan g))
  = od_keys (players g) ++ map sc_seat_id plan.
Proof.
  revert g. induction plan as [|seat plan IH]; intros g Hnd; simpl.
  - rewrite app_nil_r. reflexivity.
  - assert (Habsent : od_get (sc_seat_id seat) (players g) = None).
    { apply od_get_None_keys. apply NoDup_app in Hnd as (_ & Hdisj & _).
      intros Hin. apply (Hdisj _ Hin). left. }
    rewrite IH; simpl.
    + rewrite od_keys_od_set_absent by exact Habsent.
      rewrite <- app_assoc. reflexivity.
    + rewrite od_keys_od_set_absent by exact Habsent.
      rewrite <- app_assoc. exact Hnd.
Qed.

Lemma GameMaster_new_keys cfg rng0 :
  NoDup (seat_ids cfg) -> od_keys (players (GameMaster_new cfg rng0)) = seat_ids cfg.
Proof.
  intros Hnd. unfold GameMaster_new, _initialise_players.
  rewrite initialise_players_keys; [reflexivity|exact Hnd].
Qed.

Lemma roster_evolves_keys d d' : roster_evolves d d' -> od_keys d' = od_keys d.
Proof.
  induction 1 as [|sp sp' d d' [Hk _] _ IH]; simpl; [reflexivity|].
  unfold od_keys in *. simpl. rewrite IH, Hk. reflexivity.
Qed.

Lemma alive_seats_filter_keys g :
  NoDup (od_keys (players g)) ->
  _alive_seats g = List.filter (is_alive g) (od_keys (players g)).
Proof.
  unfold _alive_seats, is_alive. generalize (players g) as d.
  intros d Hnd.
  assert (Hgen : forall d0, (forall k p, (k, p) ∈ d0 -> od_get k d = Some p) ->
            map fst (List.filter (fun sp => alive (snd sp)) d0)
            = List.filter (fun seat => match od_get seat d with
                                       | Some p => alive p
                                       | None => false
                                       end) (od_keys d0)).
  { induction d0 as [|[k p] d0 IH]; intros Hall; simpl; [reflexivity|].
    rewrite (Hall k p) by left.
    assert (Hrest : forall k' p', (k', p') ∈ d0 -> od_get k' d = Some p')
      by (intros k' p' Hin; apply Hall; right; exact Hin).
    destruct (alive p); simpl; rewrite (IH Hrest); reflexivity. }
  apply Hgen. intros k p Hin. apply elem_of_od_get; assumption.
Qed.

Lemma StronglySorted_filter (l : list Z) f :
  StronglySorted Z.lt l -> StronglySorted Z.lt (List.filter f l).
Proof.
  induction 1 as [|x l Hs IH Hall]; simpl; [constructor|].
  destruct (f x); [|exact IH]. constructor; [exact IH|].
  apply List.Forall_forall. intros y Hy. apply List.filter_In in Hy as [Hy _].
  rewrite List.Forall_forall in Hall. apply Hall, Hy.
Qed.

Lemma StronglySorted_lt_NoDup (l : list Z) : StronglySorted Z.lt l -> NoDup l.
Proof.
  induction 1 as [|x l Hs IH Hall]; constructor; [|exact IH].
  intros Hin. rewrite List.Forall_forall in Hall.
  apply list_elem_of_In in Hin. specialize (Hall _ Hin). lia.
Qed.

(** C9, as the code has it.  In every match, at every point a driver can
    reach, the day phase records as the round's speaking order the seats
    alive at its start in roster order, which is the order of the seating
    plan.  When the plan lists the seats in ascending order, as the default
    configuration does, this is the alive seats in ascending seat order. *)
Theorem day_order_follows_seating_plan {U : Unicode} {E : Env}
    (cfg : GameConfig) (rng0 : Z) (actions : list Action) :
  let g := perform_all actions (GameMaster_new cfg rng0) in
  day_order (chronicle (state_after (_day_phase g))) (round_no g)
  = Some (_alive_seats g) /\
  (NoDup (seat_ids cfg) ->
     _alive_seats g = List.filter (is_alive g) (seat_ids cfg)) /\
  (StronglySorted Z.lt (seat_ids cfg) ->
     StronglySorted Z.lt (_alive_seats g) /\
     forall s, s ∈ _alive_seats g <-> is_alive g s = true).
Proof.
  intros g. split; [apply day_phase_records_alive_seats|].
  assert (Hkeys : NoDup (seat_ids cfg) -> od_keys (players g) = seat_ids cfg).
  { intros Hnd. subst g.
    destruct (evolves_perform_all actions (GameMaster_new cfg rng0)) as [Hr _].
    rewrite (roster_evolves_keys _ _ Hr). apply GameMaster_new_keys, Hnd. }
  assert (Hfilter : NoDup (seat_ids cfg) ->
            _alive_seats g = List.filter (is_alive g) (seat_ids cfg)).
  { intros Hnd. rewrite alive_seats_filter_keys; rewrite (Hkeys Hnd); [reflexivity|exact Hnd]. }
  split; [exact Hfilter|]. intros Hsorted.
  pose proof (StronglySorted_lt_NoDup _ Hsorted) as Hnd.
  rewrite (Hfilter Hnd). split; [apply StronglySorted_filter, Hsorted|].
  intros s. rewrite list_elem_of_In, List.filter_In, <- list_elem_of_In.
  split; [tauto|]. intros Ha. split; [|exact Ha].
  rewrite <- (Hkeys Hnd). unfold is_alive in Ha.
  destruct (od_get s (players g)) as [p|] eqn:Hs; [|discriminate].
  destruct (decide (s ∈ od_keys (players g))) as [Hin|Hout]; [exact Hin|].
  apply od_get_None_keys in Hout. congruence.
Qed.

Lemma day_order_follows_seating_plan_witness :
  let g := @perform_all unicode_sample env_demo [do_night_phase; do_daybreak]
             default_match in
  _alive_seats g = [2; 3; 6] /\
  day_order (chronicle (state_after (@_day_phase unicode_sample env_demo g))) (round_no g)
  = Some (_alive_seats g) /\
  StronglySorted Z.lt (_alive_seats g).
Proof.
  intros g.
  destruct (@day_order_follows_seating_plan unicode_sample env_demo
              build_default_config 42 [do_night_phase; do_daybreak])
    as (Hrec & _ & Hsorted).
  split; [vm_compute; reflexivity|]. split; [exact Hrec|].
  apply Hsorted. vm_compute.
  repeat (constructor; [|repeat (constructor; try lia)]). constructor.
Defined.

(** With the seating plan 2, 1, 3 and everybody alive, the first day's
    speaking order is 2, 1, 3. *)
Lemma day_order_not_ascending :
  let g := GameMaster_new unsorted_config 0 in
  _alive_seats g = [2; 1; 3] /\
  day_order (chronicle (state_after (@_day_phase unicode_sample env_silent g)))
    (round_no g) = Some [2; 1; 3] /\
  ~ StronglySorted Z.lt [2; 1; 3].
Proof.
  split; [reflexivity|]. split; [vm_compute; reflexivity|].
  intros H. inversion H as [|x l _ Hall]; subst.
  inversion Hall as [|y l' Hlt _]; subst. lia.
Qed.

(** ** The wolves' tally *)

Lemma count_votes_snoc k l x :
  count_votes k (l ++ [x]) = count_votes k l + (if k =? x then 1 else 0).
Proof.
  unfold count_votes. rewrite List.filter_app, length_app. simpl.
  destruct (k =? x); simpl; lia.
Qed.

Lemma count_votes_nonneg k l : 0 <= count_votes k l.
Proof. unfold count_votes. lia. Qed.

Lemma count_votes_pos_elem_of k l : count_votes k l <> 0 -> k ∈ l.
Proof.
  unfold count_votes. induction l as [|x l IH]; simpl; [lia|].
  destruct (k =? x) eqn:Hk.
  - apply Z.eqb_eq in Hk. subst. intros _. left.
  - intros H. right. apply IH, H.
Qed.

Lemma count_votes_zero_not_elem_of k l : count_votes k l = 0 -> k ∉ l.
Proof.
  unfold count_votes. induction l as [|x l IH]; simpl.
  - intros _. apply not_elem_of_nil.
  - destruct (k =? x) eqn:Hk; simpl; [lia|].
    apply Z.eqb_neq in Hk. intros H. apply not_elem_of_cons. split; [exact Hk|apply IH, H].
Qed.

Lemma Counter_snoc l x :
  Counter (l ++ [x])
  = od_set x (default 0 (od_get x (Counter l)) + 1) (Counter l).
Proof. unfold Counter. rewrite fold_left_app. reflexivity. Qed.

(** A counter holds, for each candidate voted for, the number of its
    votes. *)
Lemma Counter_get l k :
  od_get k (Counter l)
  = if count_votes k l =? 0 then None else Some (count_votes k l).
Proof.
  induction l as [|x l IH] using rev_ind; [reflexivity|].
  rewrite Counter_snoc, od_get_od_set, count_votes_snoc.
  destruct (k =? x) eqn:Hk.
  - apply Z.eqb_eq in Hk. subst x. rewrite IH.
    pose proof (count_votes_nonneg k l).
    destruct (count_votes k l =? 0) eqn:H0; simpl.
    + apply Z.eqb_eq in H0. rewrite H0. reflexivity.
    + destruct (count_votes k l + 1 =? 0) eqn:H1; [lia|reflexivity].
  - rewrite Z.add_0_r. exact IH.
Qed.

Lemma Counter_keys_NoDup l : NoDup (od_keys (Counter l)).
Proof.
  induction l as [|x l IH] using rev_ind; [constructor|].
  rewrite Counter_snoc.
  destruct (od_get x (Counter l)) as [n|] eqn:Hx.
  - rewrite od_keys_od_set_present by eauto. exact IH.
  - rewrite od_keys_od_set_absent by exact Hx.
    apply NoDup_app. split; [exact IH|]. split; [|apply NoDup_singleton].
    intros y Hy Hy'. apply list_elem_of_singleton in Hy'. subst y.
    apply od_get_None_keys in Hx. contradiction.
Qed.

Lemma first_vote_before_snoc t x l y :
  first_vote_before t x l -> first_vote_before t x (l ++ [y]).
Proof.
  intros (pre & post & -> & Ht & Hx). exists pre, (post ++ [y]).
  split; [rewrite <- app_assoc; reflexivity|]. split; assumption.
Qed.

(** The keys of a counter are in first-seen order. *)
Lemma Counter_keys_order l ks1 k ks2 k' :
  od_keys (Counter l) = ks1 ++ k :: ks2 -> k' ∈ ks2 -> first_vote_before k k' l.
Proof.
  revert ks1 k ks2 k'. induction l as [|x l IH] using rev_ind; intros ks1 k ks2 k'.
  - simpl. destruct ks1; discriminate.
  - rewrite Counter_snoc.
    destruct (od_get x (Counter l)) as [n|] eqn:Hx.
    + rewrite od_keys_od_set_present by eauto. intros Hk Hin.
      apply first_vote_before_snoc. eapply IH; eassumption.
    + rewrite od_keys_od_set_absent by exact Hx.
      destruct ks2 as [|y ks2 _] using rev_ind.
      * intros _ Hin. apply elem_of_nil in Hin. contradiction.
      * change (ks1 ++ k :: ks2 ++ [y]) with (ks1 ++ (k :: ks2) ++ [y]).
        rewrite app_assoc. intros Heq Hin.
        apply app_inj_tail in Heq as [Hkeys <-].
        apply elem_of_app in Hin as [Hin|Hin].
        -- apply first_vote_before_snoc. eapply IH; eassumption.
        -- apply list_elem_of_singleton in Hin. subst k'.
           assert (Hk : k ∈ l).
           { apply count_votes_pos_elem_of. intros H0.
             assert (Hget : od_get k (Counter l) = None)
               by (rewrite Counter_get, H0; reflexivity).
             apply od_get_None_keys in Hget. apply Hget. rewrite Hkeys.
             apply elem_of_app. right. left. }
           assert (Hxl : x ∉ l).
           { apply count_votes_zero_not_elem_of.
             rewrite Counter_get in Hx.
             destruct (count_votes x l =? 0) eqn:H0; [|discriminate].
             apply Z.eqb_eq, H0. }
           apply list_elem_of_split_l in Hk as (pre & post & -> & Hpre).
           exists pre, (post ++ [x]). split; [rewrite <- app_assoc; reflexivity|].
           split; [exact Hpre|]. intros Hin. apply Hxl.
           apply elem_of_app. left. exact Hin.
Qed.

(** [max] with a key returns the first of the largest items. *)
Lemma max_by_count_first best l :
  exists l1 l2,
    best :: l = l1 ++ max_by_count best l :: l2 /\
    (forall y, y ∈ l1 -> snd y < snd (max_by_count best l)) /\
    (forall y, y ∈ l2 -> snd y <= snd (max_by_count best l)).
Proof.
  revert best. induction l as [|x l IH]; intros best; simpl.
  - exists [], []. split; [reflexivity|].
    split; intros y Hy; apply elem_of_nil in Hy; contradiction.
  - destruct (snd best <? snd x) eqn:Hlt.
    + apply Z.ltb_lt in Hlt.
      destruct (IH x) as (l1 & l2 & Heq & H1 & H2).
      exists (best :: l1), l2. split; [simpl; rewrite <- Heq; reflexivity|].
      split; [|exact H2]. intros y Hy.
      apply elem_of_cons in Hy as [->|Hy]; [|apply H1, Hy].
      assert (Hx : snd x <= snd (max_by_count x l)).
      { destruct l1 as [|z l1].
        - injection Heq as <- _. lia.
        - injection Heq as <- _. specialize (H1 x). 
          assert (x ∈ x :: l1) by left. specialize (H1 H). lia. }
      lia.
    + apply Z.ltb_ge in Hlt.
      destruct (IH best) as (l1 & l2 & Heq & H1 & H2).
      destruct l1 as [|z l1].
      * injection Heq as Hbest ->. exists [], (x :: l2).
        split; [simpl; rewrite <- Hbest; reflexivity|].
        split; [intros y Hy; apply elem_of_nil in Hy; contradiction|].
        intros y Hy. apply elem_of_cons in Hy as [->|Hy]; [|apply H2, Hy].
        rewrite <- Hbest. exact Hlt.
      * injection Heq as <- Hl. exists (best :: x :: l1), l2.
        split; [simpl; rewrite <- Hl; reflexivity|]. split; [|exact H2].
        assert (Hb : snd best < snd (max_by_count best l)).
        { apply H1. left. }
        intros y Hy. apply elem_of_cons in Hy as [->|Hy]; [exact Hb|].
        apply elem_of_cons in Hy as [->|Hy]; [lia|].
        apply H1. right. exact Hy.
Qed.

Lemma Counter_elem l k n :
  (k, n) ∈ Counter l -> n = count_votes k l /\ n <> 0.
Proof.
  intros Hin. apply (elem_of_od_get _ _ _ (Counter_keys_NoDup l)) in Hin.
  rewrite Counter_get in Hin.
  destruct (count_votes k l =? 0) eqn:H0; [discriminate|].
  injection Hin as <-. apply Z.eqb_neq in H0. split; [reflexivity|exact H0].
Qed.

Lemma Counter_elem_of l k :
  count_votes k l <> 0 -> (k, count_votes k l) ∈ Counter l.
Proof.
  intros H0. apply od_get_Some_elem_of. rewrite Counter_get.
  apply Z.eqb_neq in H0. rewrite H0. reflexivity.
Qed.

(** [Counter(votes).most_common(1)]: the plurality choice, and among
    candidates with as many votes the one first voted for. *)
Lemma most_common_1_winner votes :
  votes <> [] ->
  exists t n,
    most_common_1 (Counter votes) = [(t, n)] /\
    t ∈ votes /\
    (forall x, count_votes x votes <= count_votes t votes) /\
    (forall x, x <> t -> count_votes x votes = count_votes t votes ->
               first_vote_before t x votes).
Proof.
  intros Hne. destruct (Counter votes) as [|x0 rest] eqn:Hc.
  - destruct votes as [|v votes]; [congruence|].
    assert (Hv : count_votes v (v :: votes) <> 0).
    { unfold count_votes. simpl. rewrite Z.eqb_refl. simpl. lia. }
    apply Counter_elem_of in Hv. rewrite Hc in Hv. apply elem_of_nil in Hv. contradiction.
  - simpl. destruct (max_by_count_first x0 rest) as (l1 & l2 & Heq & H1 & H2).
    destruct (max_by_count x0 rest) as [t n] eqn:Hmax. simpl in H1, H2.
    exists t, n. split; [reflexivity|].
    assert (Hin : (t, n) ∈ Counter votes).
    { rewrite Hc, Heq. apply elem_of_app. right. left. }
    destruct (Counter_elem _ _ _ Hin) as [Hn Hn0]. subst n.
    split; [apply count_votes_pos_elem_of, Hn0|].
    assert (Hcases : forall x, count_votes x votes <> 0 ->
              (x, count_votes x votes) ∈ l1 \/ x = t \/ (x, count_votes x votes) ∈ l2).
    { intros x Hx. apply Counter_elem_of in Hx. rewrite Hc, Heq in Hx.
      apply elem_of_app in Hx as [Hx|Hx]; [left; exact Hx|].
      apply elem_of_cons in Hx as [Hx|Hx]; [|right; right; exact Hx].
      injection Hx as -> _. right. left. reflexivity. }
    split.
    + intros x. pose proof (count_votes_nonneg x votes) as Hx0.
      pose proof (count_votes_nonneg t votes) as Ht0.
      destruct (decide (count_votes x votes = 0)) as [Hz|Hz]; [lia|].
      destruct (Hcases x Hz) as [Hx|[->|Hx]].
      * specialize (H1 _ Hx). simpl in H1. lia.
      * lia.
      * specialize (H2 _ Hx). simpl in H2. lia.
    + intros x Hxt Hcount.
      assert (Hz : count_votes x votes <> 0) by congruence.
      destruct (Hcases x Hz) as [Hx|[->|Hx]]; [|congruence|].
      * specialize (H1 _ Hx). simpl in H1. lia.
      * apply (Counter_keys_order votes (map fst l1) t (map fst l2) x).
        -- rewrite Hc, Heq. unfold od_keys. rewrite map_app. reflexivity.
        -- apply (list_elem_of_fmap_2 fst) in Hx. exact Hx.
Qed.

Lemma most_common_1_empty : most_common_1 (Counter []) = [].
Proof. reflexivity. Qed.

Section NightWolves.
Context {U : Unicode} {E : Env}.

Ltac destruct_interact :=
  repeat match goal with
         | |- context [interact ?h ?s ?st ?ex ?r] =>
             destruct (interact h s st ex r)
         end.

(** A wolf's turn returns, and touches neither the roster nor the night
    outcome. *)
Lemma wolf_turn_returns votes wid g p :
  od_get wid (players g) = Some p ->
  exists votes' g',
    wolf_turn votes wid g = Ret votes' g' /\
    players g' = players g /\ _night_outcome g' = _night_outcome g.
Proof.
  intros Hp. unfold wolf_turn, bind, _player. rewrite Hp.
  unfold send_briefing, bind, _send_stage, log_event, modify, ret.
  destruct_interact.
  destruct (is_skip _); [eexists _, _; repeat split|].
  destruct_interact.
  match goal with
  | |- context [match ?a with Some _ => _ | None => _ end] => destruct a as [[|c a']|]
  end; try (eexists _, _; repeat split; fail).
  destruct (_parse_directive (c :: a') kw_kill);
    destruct (_parse_directive (c :: a') kw_backup);
    eexists _, _; repeat split.
Qed.

Lemma wolves_loop_returns wids votes g :
  Forall (fun wid => is_Some (od_get wid (players g))) wids ->
  exists votes' g',
    for_fold wids votes wolf_turn g = Ret votes' g' /\
    players g' = players g /\ _night_outcome g' = _night_outcome g.
Proof.
  revert votes g. induction wids as [|wid wids IH]; intros votes g Hall; simpl.
  - eexists _, _. repeat split.
  - apply Forall_cons in Hall as [[p Hp] Hall].
    destruct (wolf_turn_returns votes wid g p Hp) as (v1 & g1 & Hturn & Hpl & Ho).
    unfold bind. rewrite Hturn.
    destruct (IH v1 g1) as (v2 & g2 & Hloop & Hpl2 & Ho2).
    { rewrite Hpl. exact Hall. }
    exists v2, g2. split; [exact Hloop|]. split; congruence.
Qed.

Lemma wolves_alive_in_roster g :
  Forall (fun wid => is_Some (od_get wid (players g))) (_wolves_alive g).
Proof.
  unfold _wolves_alive. apply Forall_forall. intros wid Hin.
  apply list_elem_of_fmap in Hin as ([k p] & -> & Hin). simpl.
  apply list_elem_of_In, List.filter_In in Hin as [Hin _].
  apply list_elem_of_In in Hin.
  destruct (od_get k (players g)) as [p'|] eqn:Hk; [eauto|].
  apply od_get_None_keys in Hk. exfalso. apply Hk.
  apply (list_elem_of_fmap_2 fst) in Hin. exact Hin.
Qed.

End NightWolves.

(** C3, as the code has it.  [_night_wolves] returns; with [votes] the
    kill votes the alive wolves cast, in roster order, no vote leaves the
    night outcome without a kill target, and otherwise the kill target is
    a plurality choice and, among the candidates with as many votes, the
    one whose first vote comes earliest.  It is a function of the votes:
    nothing is drawn from the random source for it. *)
Theorem wolves_kill_target_plurality {U : Unicode} {E : Env}
    (g : GameMaster) (o : NightOutcome) :
  _night_outcome g = Some o ->
  exists votes g1 g',
    for_fold (_wolves_alive g) [] wolf_turn g = Ret votes g1 /\
    _night_wolves g = Ret tt g' /\
    (votes = [] -> _night_outcome g' = Some o) /\
    (votes <> [] ->
     exists t,
       _night_outcome g' = Some {| kill_target := Some t;
                                   healed_target := healed_target o;
                                   poisoned_target := poisoned_target o |} /\
       t ∈ votes /\
       (forall x, count_votes x votes <= count_votes t votes) /\
       (forall x, x <> t -> count_votes x votes = count_votes t votes ->
                  first_vote_before t x votes)).
Proof.
  intros Ho.
  destruct (wolves_loop_returns (_wolves_alive g) [] g (wolves_alive_in_roster g))
    as (votes & g1 & Hloop & _ & Ho1).
  rewrite Ho in Ho1.
  exists votes, g1. unfold _night_wolves. unfold bind at 1, get. unfold bind at 1.
  rewrite Hloop. unfold wolves_tally.
  destruct votes as [|v votes].
  - exists g1. split; [reflexivity|]. split; [reflexivity|].
    split; [intros _; exact Ho1|congruence].
  - destruct (most_common_1_winner (v :: votes)) as (t & n & -> & Hin & Hmax & Hfirst);
      [discriminate|].
    unfold outcome_setattr, log_event, bind, get, modify. rewrite Ho1.
    eexists. split; [reflexivity|]. split; [reflexivity|].
    split; [discriminate|]. intros _. exists t.
    split; [reflexivity|]. split; [exact Hin|]. split; assumption.
Qed.

(** In the scripted match both wolves name seat 4, which becomes the kill
    target. *)
Lemma wolves_kill_target_plurality_witness :
  exists g',
    @_night_wolves unicode_sample env_demo
      (set_night_outcome (Some NightOutcome_new) default_match) = Ret tt g' /\
    (kill_target <$> _night_outcome g') = Some (Some 4).
Proof.
  destruct (@wolves_kill_target_plurality unicode_sample env_demo
              (set_night_outcome (Some NightOutcome_new) default_match)
              NightOutcome_new eq_refl)
    as (votes & g1 & g' & Hloop & Hret & _).
  exists g'. split; [exact Hret|].
  vm_compute in Hret. injection Hret as <-. reflexivity.
Defined.

(** With four wolves naming seats 5, 6, 6 and 5 the kill target is seat
    5, the first seen of the two tied candidates, while seat 6 is the
    first to reach the maximum of two votes. *)
Lemma wolves_tie_not_first_to_reach_max :
  let g := set_night_outcome (Some NightOutcome_new)
             (GameMaster_new four_wolves_config 0) in
  exists g1 g',
    @for_fold _ _ (_wolves_alive g) []
       (@wolf_turn unicode_sample (env_scripted script_four_wolves)) g
    = Ret [5; 6; 6; 5] g1 /\
    @_night_wolves unicode_sample (env_scripted script_four_wolves) g = Ret tt g' /\
    (kill_target <$> _night_outcome g') = Some (Some 5) /\
    first_to_reach_max [5; 6; 6; 5] = Some 6.
Proof.
  eexists _, _. split; [vm_compute; reflexivity|].
  split; [vm_compute; reflexivity|]. split; reflexivity.
Qed.

(** ** The round loop of [run_game] *)

#[local] Instance keeps_round_preorder : PreOrder keeps_round.
Proof.
  split.
  - intros g. split; reflexivity.
  - intros g1 g2 g3 [Hr1 Hc1] [Hr2 Hc2]. split; congruence.
Qed.

Section RoundLoop.
Context {U : Unicode} {E : Env}.

Lemma round_send_stage seat stage expect :
  preserves keeps_round (_send_stage seat stage expect).
Proof.
  intros g. unfold _send_stage. destruct (interact _ _ _ _ _). split; reflexivity.
Qed.

Lemma round_modify f :
  (forall g, round_no (f g) = round_no g) -> (forall g, config (f g) = config g) ->
  preserves keeps_round (modify f).
Proof. intros Hr Hc. apply preserves_modify. intros g. split; auto. Qed.

Lemma round_rng_pick l : preserves keeps_round (rng_pick l).
Proof. intros g. unfold rng_pick. destruct (rng_choice _ _). split; reflexivity. Qed.

Ltac round_prim :=
  first [ apply round_send_stage | apply round_rng_pick
        | apply round_modify; reflexivity
        | solve [auto] ].

Ltac round := preserves_steps; round_prim.

Lemma round_player_setattr seat f : preserves keeps_round (player_setattr seat f).
Proof. unfold player_setattr. round. Qed.

Lemma round_outcome_setattr f : preserves keeps_round (outcome_setattr f).
Proof. unfold outcome_setattr. round. Qed.

Lemma round_trigger_hunter seat cause :
  preserves keeps_round (_trigger_hunter_if_needed seat cause).
Proof.
  pose proof round_player_setattr.
  unfold _trigger_hunter_if_needed, print, on_chronicle. round.
Qed.

Lemma round_night_phase : preserves keeps_round _night_phase.
Proof.
  pose proof round_player_setattr. pose proof round_outcome_setattr.
  unfold _night_phase, _night_wolves, _night_witch, wolf_turn, wolves_tally,
    mutate_potions, store_potions, send_briefing, log_event, on_chronicle.
  round.
Qed.

Lemma round_daybreak : preserves keeps_round _daybreak.
Proof.
  pose proof round_player_setattr. pose proof round_trigger_hunter.
  unfold _daybreak, _resolve_deaths, print, on_chronicle. round.
Qed.

Lemma round_day_phase : preserves keeps_round _day_phase.
Proof.
  pose proof round_player_setattr. pose proof round_trigger_hunter.
  unfold _day_phase, _voting, talk_turn, vote_turn, send_briefing, print, on_chronicle.
  round.
Qed.

Lemma round_is_finished : preserves keeps_round _is_finished.
Proof. unfold _is_finished. round. Qed.

Lemma preserves_Ret {A} R (m : M A) g a g' :
  preserves R m -> m g = Ret a g' -> R g g'.
Proof. intros Hm Hret. specialize (Hm g). rewrite Hret in Hm. exact Hm. Qed.

Lemma bind_congr {A B} (m : M A) (k1 k2 : A -> M B) g :
  (forall a g', m g = Ret a g' -> k1 a g' = k2 a g') ->
  bind m k1 g = bind m k2 g.
Proof.
  intros Hk. unfold bind. destruct (m g) as [a g'|e g']; [|reflexivity].
  apply Hk. reflexivity.
Qed.

(** The bound [run_game] gives the loop is enough: with it, a further
    pass would find the loop test false, so the loop ends by its test or
    by a [break], as the [while] does. *)
Lemma run_rounds_enough n g :
  max_rounds (config g) - round_no g + 1 <= Z.of_nat n ->
  run_rounds (S n) g = run_rounds n g.
Proof.
  revert g. induction n as [|n IH]; intros g Hbound.
  - change (run_rounds 1%nat g) with
      (bind _is_finished (fun finished => bind get (fun g0 =>
         if finished || (max_rounds (config g0) <? round_no g0) then ret tt
         else (_night_phase ;;;
               finished <- _is_finished ;;
               if finished then ret tt
               else (_daybreak ;;;
                     finished <- _is_finished ;;
                     if finished then ret tt
                     else (_day_phase ;;;
                           modify (fun g => set_round_no (round_no g + 1) g) ;;;
                           run_rounds 0%nat))))) g).
    change (run_rounds 0%nat g) with
      (bind _is_finished (fun finished => bind get (fun g0 =>
         if finished || (max_rounds (config g0) <? round_no g0) then ret tt
         else ret tt)) g).
    apply bind_congr. intros finished g1 Hfin.
    destruct (preserves_Ret _ _ _ _ _ round_is_finished Hfin) as [Hr Hc].
    unfold bind, get.
    assert (Hover : (max_rounds (config g1) <? round_no g1) = true).
    { apply Z.ltb_lt. rewrite Hr, Hc. simpl in Hbound. lia. }
    rewrite Hover, orb_true_r. reflexivity.
  - change (run_rounds (S (S n)) g) with
      (bind _is_finished (fun finished => bind get (fun g0 =>
         if finished || (max_rounds (config g0) <? round_no g0) then ret tt
         else (_night_phase ;;;
               finished <- _is_finished ;;
               if finished then ret tt
               else (_daybreak ;;;
                     finished <- _is_finished ;;
                     if finished then ret tt
                     else (_day_phase ;;;
                           modify (fun g => set_round_no (round_no g + 1) g) ;;;
                           run_rounds (S n)))))) g).
    change (run_rounds (S n) g) with
      (bind _is_finished (fun finished => bind get (fun g0 =>
         if finished || (max_rounds (config g0) <? round_no g0) then ret tt
         else (_night_phase ;;;
               finished <- _is_finished ;;
               if finished then ret tt
               else (_daybreak ;;;
                     finished <- _is_finished ;;
                     if finished then ret tt
                     else (_day_phase ;;;
                           modify (fun g => set_round_no (round_no g + 1) g) ;;;
                           run_rounds n))))) g).
    apply bind_congr. intros fin1 g1 H1.
    pose proof (preserves_Ret _ _ _ _ _ round_is_finished H1) as [Hr1 Hc1].
    apply bind_congr. intros g1' g1'' [= <- <-].
    destruct (fin1 || (max_rounds (config g1) <? round_no g1)); [reflexivity|].
    apply bind_congr. intros [] g2 H2.
    pose proof (preserves_Ret _ _ _ _ _ round_night_phase H2) as [Hr2 Hc2].
    apply bind_congr. intros fin2 g3 H3.
    pose proof (preserves_Ret _ _ _ _ _ round_is_finished H3) as [Hr3 Hc3].
    destruct fin2; [reflexivity|].
    apply bind_congr. intros [] g4 H4.
    pose proof (preserves_Ret _ _ _ _ _ round_daybreak H4) as [Hr4 Hc4].
    apply bind_congr. intros fin3 g5 H5.
    pose proof (preserves_Ret _ _ _ _ _ round_is_finished H5) as [Hr5 Hc5].
    destruct fin3; [reflexivity|].
    apply bind_congr. intros [] g6 H6.
    pose proof (preserves_Ret _ _ _ _ _ round_day_phase H6) as [Hr6 Hc6].
    apply bind_congr. intros [] g7 [= <-].
    apply IH.
    assert (Hc : config g6 = config g) by congruence.
    assert (Hr : round_no g6 = round_no g) by congruence.
    change (max_rounds (config g6) - (round_no g6 + 1) + 1 <= Z.of_nat n).
    rewrite Hc, Hr. lia.
Qed.

End RoundLoop.

(** * Further properties of the code *)

(** ** Directives inside free text *)

Section ParseMore.
Context {U : Unicode}.

Lemma finditer_cons_no_match c s :
  match_here (c :: s) = None -> finditer (c :: s) = finditer s.
Proof.
  intros Hm. simp finditer.
  generalize (inspect (match_here (c :: s))). intros [[[m r]|] e]; [congruence|].
  reflexivity.
Qed.

Lemma finditer_cons_match c s m rest :
  match_here (c :: s) = Some (m, rest) -> finditer (c :: s) = m :: finditer rest.
Proof.
  intros Hm. simp finditer.
  generalize (inspect (match_here (c :: s))). intros [[[m' r]|] e]; [|congruence].
  assert (Heq : Some (m', r) = Some (m, rest)) by congruence.
  injection Heq as -> ->. reflexivity.
Qed.

(** Text without an opening bracket holds no directive, and such text in
    front of a directive is passed over. *)
Lemma finditer_skip_prefix pre s :
  LQ ∉ pre -> finditer (pre ++ s) = finditer s.
Proof.
  induction pre as [|c pre IH]; intros Hnot; [reflexivity|].
  apply not_elem_of_cons in Hnot as [Hc Hpre]. simpl.
  rewrite finditer_cons_no_match; [apply IH, Hpre|].
  unfold match_here. destruct (c =? LQ) eqn:Heq; [|reflexivity].
  apply Z.eqb_eq in Heq. congruence.
Qed.

Lemma finditer_no_bracket txt : LQ ∉ txt -> finditer txt = [].
Proof.
  intros Hnot. rewrite <- (app_nil_r txt). rewrite finditer_skip_prefix by exact Hnot.
  reflexivity.
Qed.

End ParseMore.

(** X1.  A reply may surround its directives with free text: text
    without an opening bracket yields no target for any keyword; in front
    of directives it is passed over; of two directives the first one with
    the keyword asked for is taken, and one with another keyword does not
    hide the one behind it. *)
Theorem parse_directive_in_free_text {U : Unicode} :
  (forall txt keyword, LQ ∉ txt -> _parse_directive txt keyword = None) /\
  (forall pre k1 d1 v1 mid k2 d2 v2 rest,
     LQ ∉ pre -> LQ ∉ mid ->
     k1 <> [] -> RQ ∉ k1 -> digit_of d1 = Some v1 ->
     k2 <> [] -> RQ ∉ k2 -> digit_of d2 = Some v2 ->
     let txt := pre ++ (bracketed k1 ++ ZUO :: WEI :: [d1]) ++ mid
                    ++ (bracketed k2 ++ ZUO :: WEI :: d2 :: rest) in
     _parse_directive txt k1 = Some v1 /\
     (k2 <> k1 -> _parse_directive txt k2 = Some v2)).
Proof.
  split.
  - intros txt keyword Hnot. unfold _parse_directive.
    rewrite finditer_no_bracket by exact Hnot. reflexivity.
  - intros pre k1 d1 v1 mid k2 d2 v2 rest Hpre Hmid Hk1 Hq1 Hd1 Hk2 Hq2 Hd2 txt.
    assert (Hfind : finditer txt
                    = {| m_action := k1; m_seat := d1 |}
                        :: {| m_action := k2; m_seat := d2 |} :: finditer rest).
    { subst txt. rewrite finditer_skip_prefix by exact Hpre.
      rewrite <- app_assoc.
      change ((ZUO :: WEI :: [d1]) ++ mid ++ bracketed k2 ++ ZUO :: WEI :: d2 :: rest)
        with (ZUO :: WEI :: d1 :: (mid ++ bracketed k2 ++ ZUO :: WEI :: d2 :: rest)).
      rewrite finditer_directive; [|assumption|assumption|rewrite Hd1; eauto].
      rewrite finditer_skip_prefix by exact Hmid.
      rewrite finditer_directive; [|assumption|assumption|rewrite Hd2; eauto].
      reflexivity. }
    unfold _parse_directive. rewrite Hfind. simpl.
    rewrite (bool_decide_eq_true_2 (k1 = k1)) by reflexivity.
    split; [unfold int_digit; rewrite Hd1; reflexivity|].
    intros Hne. rewrite (bool_decide_eq_false_2 (k1 = k2)) by congruence.
    rewrite (bool_decide_eq_true_2 (k2 = k2)) by reflexivity.
    unfold int_digit. rewrite Hd2. reflexivity.
Qed.

(** A wolf's reply "kill seat 3, else seat 5" with words around both. *)
Lemma parse_directive_in_free_text_witness :
  let txt := [97; 98; 10] ++ (bracketed kw_kill ++ ZUO :: WEI :: [51]) ++ [10; 99]
               ++ (bracketed kw_backup ++ ZUO :: WEI :: 53 :: [33]) in
  @_parse_directive unicode_sample txt kw_kill = Some 3 /\
  @_parse_directive unicode_sample txt kw_backup = Some 5 /\
  @_parse_directive unicode_sample [97; 98; 10] kw_kill = None.
Proof.
  intros txt.
  destruct (@parse_directive_in_free_text unicode_sample) as [Hnone Htwo].
  assert (Hpre : LQ ∉ [97; 98; 10])
    by (apply (bool_decide_unpack (LQ ∉ [97; 98; 10])); vm_compute; exact I).
  assert (Hmid : LQ ∉ [10; 99])
    by (apply (bool_decide_unpack (LQ ∉ [10; 99])); vm_compute; exact I).
  assert (Hq1 : RQ ∉ kw_kill)
    by (apply (bool_decide_unpack (RQ ∉ kw_kill)); vm_compute; exact I).
  assert (Hq2 : RQ ∉ kw_backup)
    by (apply (bool_decide_unpack (RQ ∉ kw_backup)); vm_compute; exact I).
  assert (Hk1 : kw_kill <> []) by discriminate.
  assert (Hk2 : kw_backup <> []) by discriminate.
  destruct (Htwo [97; 98; 10] kw_kill 51 3 [10; 99] kw_backup 53 5 [33]
              Hpre Hmid Hk1 Hq1 eq_refl Hk2 Hq2 eq_refl) as [H1 H2].
  split; [exact H1|]. split; [apply H2; discriminate|].
  apply Hnone. exact Hpre.
Defined.

(** X2.  An opening bracket that is not closed before a directive
    swallows it: the action read is the text from that bracket on, which
    is not the keyword, so the directive is lost and the search goes on
    behind it. *)
Theorem parse_directive_hidden_by_bracket {U : Unicode}
    (junk keyword : text) (d : Z) (rest : text) :
  RQ ∉ junk -> RQ ∉ keyword -> is_Some (digit_of d) ->
  _parse_directive (LQ :: junk ++ bracketed keyword ++ ZUO :: WEI :: d :: rest) keyword
  = _parse_directive rest keyword.
Proof.
  intros Hjunk Hkw Hd. unfold _parse_directive.
  assert (Hm : match_here (LQ :: junk ++ bracketed keyword ++ ZUO :: WEI :: d :: rest)
               = Some ({| m_action := junk ++ LQ :: keyword; m_seat := d |}, rest)).
  { unfold match_here. rewrite Z.eqb_refl. unfold bracketed.
    replace (junk ++ (LQ :: keyword ++ [RQ]) ++ ZUO :: WEI :: d :: rest)
      with ((junk ++ LQ :: keyword) ++ RQ :: ZUO :: WEI :: d :: rest)
      by (rewrite <- !app_assoc; simpl; rewrite <- app_assoc; reflexivity).
    rewrite span_action_keyword.
    - destruct (junk ++ LQ :: keyword) as [|c a] eqn:Ha.
      + destruct junk; discriminate.
      + rewrite !Z.eqb_refl. rewrite bool_decide_eq_true_2 by exact Hd. reflexivity.
    - intros Hin. apply elem_of_app in Hin as [Hin|Hin]; [contradiction|].
      apply elem_of_cons in Hin as [Hin|Hin]; [discriminate|contradiction]. }
  rewrite (finditer_cons_match _ _ _ _ Hm). simpl.
  rewrite bool_decide_eq_false_2; [reflexivity|].
  simpl. intros Heq. apply (f_equal length) in Heq.
  rewrite length_app in Heq. simpl in Heq. lia.
Qed.

(** [【【击杀】座位1] names no seat to kill. *)
Lemma parse_directive_hidden_by_bracket_witness :
  @_parse_directive unicode_sample (LQ :: [] ++ directive kw_kill 1) kw_kill = None.
Proof.
  apply (@parse_directive_hidden_by_bracket unicode_sample [] kw_kill 49 []).
  - apply (bool_decide_unpack (RQ ∉ [])). vm_compute. exact I.
  - apply (bool_decide_unpack (RQ ∉ kw_kill)). vm_compute. exact I.
  - vm_compute. eauto.
Defined.

(** ** The chronicle is append-only *)

#[local] Instance record_extends_preorder : PreOrder record_extends.
Proof.
  split.
  - intros r. repeat split; reflexivity.
  - intros r1 r2 r3 (Hr1 & He1 & Hu1 & Hv1) (Hr2 & He2 & Hu2 & Hv2).
    repeat split; [congruence|etransitivity; eassumption..].
Qed.

Lemma on_round_extends round_no f c r rec :
  (forall x, record_extends x (f x)) ->
  rounds c !! r = Some rec ->
  exists rec', rounds (on_round round_no f c) !! r = Some rec' /\ record_extends rec rec'.
Proof.
  intros Hf Hrec. rewrite lookup_on_round.
  destruct (decide (r = round_no)) as [->|Hne].
  - rewrite Hrec. simpl. eexists. split; [reflexivity|apply Hf].
  - exists rec. split; [exact Hrec|reflexivity].
Qed.

Lemma chronicle_call_extends call c r rec :
  rounds c !! r = Some rec ->
  exists rec', rounds (chronicle_call call c) !! r = Some rec' /\ record_extends rec rec'.
Proof.
  intros Hrec.
  assert (Hsnoc : forall {A} (l : list A) x, l `prefix_of` l ++ [x])
    by (intros A l x; apply prefix_app_r; reflexivity).
  destruct call as [rn o|rn ev|rn s|rn seat idx t ol|rn fs ts|rn s|rn s|t]; simpl.
  - unfold ensure_round. destruct (rounds c !! rn) as [r0|] eqn:Hr0.
    + destruct o as [o|]; [|exists rec; split; [exact Hrec|reflexivity]].
      simpl. destruct (decide (r = rn)) as [->|Hne].
      * rewrite lookup_insert_eq. eexists. split; [reflexivity|].
        assert (r0 = rec) by congruence. subst r0. repeat split; reflexivity.
      * rewrite lookup_insert_ne by congruence.
        exists rec. split; [exact Hrec|reflexivity].
    + simpl. rewrite lookup_insert_ne by congruence.
      exists rec. split; [exact Hrec|reflexivity].
  - apply on_round_extends; [|exact Hrec].
    intros x. repeat split; simpl; try reflexivity. apply Hsnoc.
  - apply on_round_extends; [|exact Hrec]. intros x. repeat split; reflexivity.
  - apply on_round_extends; [|exact Hrec].
    intros x. repeat split; simpl; try reflexivity. apply Hsnoc.
  - apply on_round_extends; [|exact Hrec].
    intros x. repeat split; simpl; try reflexivity. apply Hsnoc.
  - apply on_round_extends; [|exact Hrec]. intros x. repeat split; reflexivity.
  - apply on_round_extends; [|exact Hrec]. intros x.
    destruct (bool_decide (s ∈ summary_10 (day x))); repeat split; reflexivity.
  - unfold refresh_global_summary.
    destruct (bool_decide (t ∈ global_summary c)); exists rec;
      (split; [exact Hrec|reflexivity]).
Qed.

(** X3.  The chronicle is append-only.  Whatever methods are called on
    it, a round that has a record keeps one for the same round, and the
    night events, utterances and votes already logged stay where they
    are, in order, at the front of the later lists. *)
Theorem chronicle_append_only (calls : list ChronicleCall) (c : Chronicle)
    (r : Z) (rec : RoundRecord) :
  rounds c !! r = Some rec ->
  exists rec',
    rounds (chronicle_calls calls c) !! r = Some rec' /\
    round rec' = round rec /\
    events (night rec) `prefix_of` events (night rec') /\
    utterances (day rec) `prefix_of` utterances (day rec') /\
    votes (day rec) `prefix_of` votes (day rec').
Proof.
  revert c rec. induction calls as [|call calls IH]; intros c rec Hrec; simpl.
  - exists rec. split; [exact Hrec|]. repeat split; reflexivity.
  - destruct (chronicle_call_extends call c r rec Hrec) as (rec1 & Hrec1 & Hext1).
    destruct (IH _ _ Hrec1) as (rec2 & Hrec2 & Hext2).
    exists rec2. split; [exact Hrec2|].
    apply (transitivity Hext1). exact Hext2.
Qed.

Lemma chronicle_append_only_witness :
  let c := add_vote 1 2 (Some 3) (Chronicle_new [1; 2; 3]) in
  exists rec',
    rounds (chronicle_calls sample_calls c) !! 1 = Some rec' /\
    [(2, Some 3)] `prefix_of` votes (day rec').
Proof.
  intros c.
  destruct (chronicle_append_only sample_calls c 1
              (set_day {| order := []; utterances := []; votes := [(2, Some 3)];
                          lynch := None; summary_10 := [] |} (fresh_round 1)))
    as (rec' & Hrec & _ & _ & _ & Hvotes); [vm_compute; reflexivity|].
  exists rec'. split; [exact Hrec|exact Hvotes].
Defined.

(** X4.  What the two rolling summaries do when full.  A day summary
    that holds ten entries keeps them and drops the new one; the global
    summary, holding six, drops its oldest entry and takes the new one at
    the end.  A text handed to [refresh_global_summary] is always in the
    global summary afterwards. *)
Theorem summaries_when_full :
  (forall r s c rec,
     rounds c !! r = Some rec -> length (summary_10 (day rec)) = 10%nat ->
     exists rec', rounds (append_day_summary r s c) !! r = Some rec' /\
                  summary_10 (day rec') = summary_10 (day rec)) /\
  (forall t c,
     t ∉ global_summary c -> length (global_summary c) = 6%nat ->
     global_summary (refresh_global_summary t c) = drop 1 (global_summary c) ++ [t]) /\
  (forall t c, t ∈ global_summary (refresh_global_summary t c)).
Proof.
  split; [|split].
  - intros r s c rec Hrec Hlen. unfold append_day_summary.
    rewrite lookup_on_round, decide_True by reflexivity. rewrite Hrec. simpl.
    eexists. split; [reflexivity|].
    destruct (bool_decide (s ∈ summary_10 (day rec))); [reflexivity|]. simpl.
    rewrite <- Hlen. apply take_app_length.
  - intros t c Hnot Hlen. unfold refresh_global_summary.
    rewrite bool_decide_eq_false_2 by exact Hnot. simpl.
    rewrite length_app, Hlen. simpl.
    destruct (global_summary c) as [|x g]; [discriminate|]. reflexivity.
  - intros t c. unfold refresh_global_summary.
    destruct (bool_decide (t ∈ global_summary c)) eqn:Hin.
    + apply bool_decide_eq_true in Hin. exact Hin.
    + simpl. set (g := global_summary c ++ [t]).
      assert (Hlast : last g = Some t) by apply last_snoc.
      destruct (6 <? Z.of_nat (length g)) eqn:Hbig.
      * apply Z.ltb_lt in Hbig.
        assert (Hsplit : g = take (length g - 6) g ++ drop (length g - 6) g)
          by (symmetry; apply take_drop).
        rewrite Hsplit in Hlast. rewrite last_app in Hlast.
        destruct (last (drop (length g - 6) g)) as [y|] eqn:Hy.
        -- injection Hlast as ->. apply last_Some_elem_of, Hy.
        -- apply last_None in Hy. apply (f_equal length) in Hy.
           rewrite length_drop in Hy. simpl in Hy. lia.
      * apply last_Some_elem_of, Hlast.
Qed.

Lemma summaries_when_full_witness :
  let c := chronicle_calls sample_calls (Chronicle_new [1; 2]) in
  (exists rec', rounds (append_day_summary 1 [120] c) !! 1 = Some rec' /\
                summary_10 (day rec') = map str_int [1; 2; 3; 4; 5; 6; 7; 8; 9; 10]) /\
  global_summary (refresh_global_summary [120] c)
  = map str_int [4; 5; 6; 7; 8] ++ [[120]].
Proof.
  intros c. destruct summaries_when_full as (Hday & Hglobal & _). split.
  - destruct (Hday 1 [120] c
                (set_day {| order := []; utterances := []; votes := []; lynch := None;
                            summary_10 := map str_int [1; 2; 3; 4; 5; 6; 7; 8; 9; 10] |}
                   (fresh_round 1)))
      as (rec' & Hrec & Hsum); [vm_compute; reflexivity|reflexivity|].
    exists rec'. split; [exact Hrec|exact Hsum].
  - rewrite Hglobal; [reflexivity| |reflexivity].
    apply (bool_decide_unpack ([120] ∉ global_summary c)). vm_compute. exact I.
Defined.

(** ** The list of the night's deaths *)

Lemma unique_fold_shape g deaths acc :
  NoDup acc ->
  let r := fold_left (fun unique seat =>
                        if negb (bool_decide (seat ∈ unique)) &&
                           match od_get seat (players g) with
                           | Some p => alive p
                           | None => false
                           end
                        then unique ++ [seat] else unique) deaths acc in
  NoDup r /\ exists l', r = acc ++ l' /\ l' `sublist_of` deaths.
Proof.
  revert acc. induction deaths as [|x deaths IH]; intros acc Hnd; simpl.
  - split; [exact Hnd|]. exists []. split; [rewrite app_nil_r; reflexivity|constructor].
  - destruct (bool_decide (x ∈ acc)) eqn:Hx; simpl.
    + destruct (IH acc Hnd) as (Hnd' & l' & Heq & Hsub).
      split; [exact Hnd'|]. exists l'. split; [exact Heq|].
      apply sublist_cons, Hsub.
    + apply bool_decide_eq_false in Hx.
      destruct (match od_get x (players g) with Some p => alive p | None => false end).
      * assert (Hnd1 : NoDup (acc ++ [x])).
        { apply NoDup_app. split; [exact Hnd|]. split; [|apply NoDup_singleton].
          intros y Hy Hy'. apply list_elem_of_singleton in Hy'. subst y. contradiction. }
        destruct (IH (acc ++ [x]) Hnd1) as (Hnd' & l' & Heq & Hsub).
        split; [exact Hnd'|]. exists (x :: l').
        split; [rewrite Heq, <- app_assoc; reflexivity|].
        apply sublist_skip, Hsub.
      * destruct (IH acc Hnd) as (Hnd' & l' & Heq & Hsub).
        split; [exact Hnd'|]. exists l'. split; [exact Heq|].
        apply sublist_cons, Hsub.
Qed.

(** X5.  The deaths [_resolve_deaths] reports: no seat twice, and in the
    order kill target, poisoned target, each at most once (so at most two
    seats); with no night outcome it reports none and touches nothing. *)
Theorem resolve_deaths_report (g : GameMaster) :
  (forall o, exists deaths g',
     _resolve_deaths (set_night_outcome (Some o) g) = Ret deaths g' /\
     NoDup deaths /\
     deaths `sublist_of`
       (option_list (kill_target o) ++ option_list (poisoned_target o))) /\
  _resolve_deaths (set_night_outcome None g) = Ret [] (set_night_outcome None g).
Proof.
  split; [|reflexivity]. intros o.
  eexists _, _. split; [apply resolve_deaths_returns; reflexivity|].
  destruct (unique_fold_shape (set_night_outcome (Some o) g) (night_deaths o) [])
    as (Hnd & l' & Heq & Hsub); [constructor|].
  split; [exact Hnd|]. unfold unique_deaths. rewrite Heq. simpl.
  etransitivity; [exact Hsub|]. unfold night_deaths.
  apply sublist_app; [|reflexivity].
  destruct (kill_target o) as [k|]; simpl; [|constructor].
  destruct (bool_decide (healed_target o = Some k)); [|reflexivity].
  apply sublist_nil_l.
Qed.

(** ** Summaries of speeches and notes *)

(** X6.  The one-line summary of a speech is never empty and never
    longer than 60 characters; for a speech that is blank after stripping
    it is the placeholder. *)
Theorem one_line_summary_bounds {U : Unicode} (txt : text) :
  _one_line_summary txt <> [] /\
  (length (_one_line_summary txt) <= 60)%nat /\
  (strip txt = [] -> _one_line_summary txt = no_summary).
Proof.
  unfold _one_line_summary.
  split; [|split].
  - destruct (strip txt) as [|c s]; [discriminate|].
    destruct (hd [] (splitlines (c :: s))); discriminate.
  - destruct (strip txt) as [|c s]; [simpl; lia|].
    destruct (hd [] (splitlines (c :: s))) as [|x l]; [simpl; lia|].
    rewrite length_take. lia.
  - intros ->. reflexivity.
Qed.

Lemma one_line_summary_bounds_witness :
  @_one_line_summary unicode_sample [32; 10; 32] = no_summary.
Proof.
  apply (proj2 (proj2 (@one_line_summary_bounds unicode_sample [32; 10; 32]))).
  reflexivity.
Defined.

(** X7.  The notes taken from a reply are at most five, and none of them
    is empty. *)
Theorem extract_notes_bounds {U : Unicode} (txt : text) :
  (length (_extract_notes txt) <= 5)%nat /\
  Forall (fun bullet => bullet <> []) (_extract_notes txt).
Proof.
  unfold _extract_notes. split; [rewrite length_take; lia|].
  apply Forall_take. apply Forall_forall. intros b Hb.
  apply list_elem_of_omap in Hb as (line & _ & Hb). cbv beta zeta in Hb.
  destruct (startswith [45; 32] (strip line) && (2 <? Z.of_nat (length (strip line))))
    eqn:Hok; [|discriminate].
  injection Hb as <-. apply andb_true_iff in Hok as [_ Hlen]. apply Z.ltb_lt in Hlen.
  intros Hnil. apply (f_equal length) in Hnil. rewrite length_drop in Hnil.
  simpl in Hnil. lia.
Qed.

(** ** The roster over a match *)

Lemma alive_count_evolves d d' :
  roster_evolves d d' ->
  (length (List.filter (fun sp : Z * PlayerState => alive (snd sp)) d')
   <= length (List.filter (fun sp : Z * PlayerState => alive (snd sp)) d))%nat.
Proof.
  induction 1 as [|[k p] [k' p'] d d' [_ (_ & Halive & _)] _ IH]; simpl in *; [lia|].
  destruct (alive p') eqn:Hp'; simpl.
  - rewrite (Halive eq_refl). simpl. lia.
  - destruct (alive p); simpl; lia.
Qed.

(** X8.  Over any sequence of calls on the game master the roster keeps
    its seats, in the same order and with the same roles, nobody comes
    back to life, and the number of alive seats does not grow. *)
Theorem roster_fixed_alive_monotone {U : Unicode} {E : Env}
    (g : GameMaster) (actions : list Action) :
  let g' := perform_all actions g in
  od_keys (players g') = od_keys (players g) /\
  map (fun sp => role (snd sp)) (players g') = map (fun sp => role (snd sp)) (players g) /\
  (forall s, is_alive g' s = true -> is_alive g s = true) /\
  (length (_alive_seats g') <= length (_alive_seats g))%nat.
Proof.
  intros g'. destruct (evolves_perform_all actions g) as [Hr _]. fold g' in Hr.
  split; [apply roster_evolves_keys, Hr|]. split; [|split].
  - clear -Hr. induction Hr as [|sp sp' d d' [_ (Hrole & _)] _ IH]; simpl; [reflexivity|].
    rewrite Hrole, IH. reflexivity.
  - intros s. apply is_alive_evolves, Hr.
  - unfold _alive_seats. rewrite !length_map. apply alive_count_evolves, Hr.
Qed.

Lemma roster_fixed_alive_monotone_witness :
  let g' := @perform_all unicode_sample env_demo
              [do_night_phase; do_daybreak; do_day_phase] default_match in
  _alive_seats g' = [3; 6] /\ is_alive default_match 3 = true.
Proof.
  intros g'. split; [vm_compute; reflexivity|].
  apply (proj1 (proj2 (proj2 (@roster_fixed_alive_monotone unicode_sample env_demo
                                default_match
                                [do_night_phase; do_daybreak; do_day_phase]))) 3).
  vm_compute. reflexivity.
Defined.

(** ** When the witch does not act *)

Lemma first_witch_in_roster g w :
  first_witch g = Some w -> is_Some (od_get w (players g)).
Proof.
  unfold first_witch. intros Hw.
  assert (Hin : w ∈ map fst (List.filter (fun sp => Role_eqb (role (snd sp)) WITCH)
                               (players g))).
  { destruct (map fst _) as [|x l]; [discriminate|]. injection Hw as ->. left. }
  apply list_elem_of_fmap in Hin as ([k p] & -> & Hin). simpl.
  apply list_elem_of_In, List.filter_In in Hin as [Hin _]. apply list_elem_of_In in Hin.
  destruct (od_get k (players g)) as [p'|] eqn:Hk; [eauto|].
  apply od_get_None_keys in Hk. exfalso. apply Hk.
  apply (list_elem_of_fmap_2 fst) in Hin. exact Hin.
Qed.

(** X9.  [_night_witch] returns at once, with nothing asked and nothing
    changed, when the roster has no witch, when the witch is dead, and
    also when the witch sits on seat 0 ([if not witch_seat] takes seat 0
    for no seat). *)
Theorem night_witch_skipped {U : Unicode} {E : Env} (g : GameMaster) :
  (first_witch g = None \/ first_witch g = Some 0 \/
   exists w, first_witch g = Some w /\ is_alive g w = false) ->
  _night_witch g = Ret tt g.
Proof.
  intros Hskip. unfold _night_witch. unfold bind at 1, get.
  destruct Hskip as [-> | [-> | (w & Hw & Hdead)]]; [reflexivity..|].
  rewrite Hw. destruct (first_witch_in_roster g w Hw) as [p Hp].
  unfold is_alive in Hdead. rewrite Hp in Hdead.
  destruct w as [|w|w]; [reflexivity| |];
    unfold bind, _player; rewrite Hp, Hdead; reflexivity.
Qed.

(** A witch on seat 0, alive and with both potions, who wants to poison:
    her night does nothing. *)
Lemma night_witch_skipped_witness :
  let g := set_night_outcome (Some NightOutcome_new)
             (GameMaster_new witch_on_seat_0 7) in
  is_alive g 0 = true /\
  @_night_witch unicode_sample (env_scripted script_poisoner) g = Ret tt g.
Proof.
  intros g. split; [reflexivity|].
  apply (@night_witch_skipped unicode_sample (env_scripted script_poisoner) g).
  right. left. reflexivity.
Defined.

(** ** The phases never raise *)

Lemma od_get_is_Some_keys {V} k (d : odict V) : is_Some (od_get k d) <-> k ∈ od_keys d.
Proof.
  pose proof (od_get_None_keys k d) as Hnone.
  destruct (od_get k d) as [v|] eqn:Hk.
  - split; [|eauto]. intros _.
    destruct (decide (k ∈ od_keys d)) as [Hin|Hout]; [exact Hin|].
    apply Hnone in Hout. discriminate.
  - split; [intros [? [=]]|]. intros Hin. exfalso. apply (proj1 Hnone); [reflexivity|exact Hin].
Qed.

Section Returns.
Context {U : Unicode} {E : Env}.

(** On a seat that is not alive the trigger always returns: a shot at a
    seat that is not in the roster falls back to the dead hunter's own
    [alive] and is ignored. *)
Lemma trigger_returns_when_dead seat cause g :
  is_alive g seat = false ->
  exists g', _trigger_hunter_if_needed seat cause g = Ret tt g'.
Proof.
  intros Hdead. rewrite trigger_hunter_unfold.
  destruct (od_get seat (players g)) as [player|] eqn:Hp; [|eauto].
  destruct (negb (Role_eqb (role player) HUNTER) || hunter_has_shot player); [eauto|].
  destruct (send_stage_returns seat stage_hunter_trigger true g)
    as (response & g1 & -> & Hpl & _).
  assert (Hset : forall g2 : GameMaster,
            is_Some (od_get seat (players g2)) ->
            exists g', player_setattr seat (set_hunter_has_shot true) g2 = Ret tt g').
  { intros g2 [p2 Hp2]. rewrite (player_setattr_present _ _ _ _ Hp2). eauto. }
  assert (Hp1 : is_Some (od_get seat (players g1))) by (rewrite Hpl, Hp; eauto).
  destruct response as [[|c r]|]; [eauto| |eauto].
  destruct (contains (bracketed kw_shoot) (c :: r)); [|apply Hset; exact Hp1].
  destruct (_parse_directive (c :: r) kw_shoot) as [target|]; [|apply Hset; exact Hp1].
  destruct (od_get target (players g1)) as [pt|] eqn:Ht.
  - destruct (alive pt); [|apply Hset; exact Hp1].
    apply Hset. simpl. rewrite od_get_od_set. destruct (seat =? target); eauto.
  - unfold is_alive in Hdead. rewrite Hp in Hdead. rewrite Hdead.
    apply Hset. exact Hp1.
Qed.

Lemma triggers_return_when_dead seats cause g :
  Forall (fun s => is_alive g s = false) seats ->
  exists g', for_each seats (fun seat => _trigger_hunter_if_needed seat cause) g
             = Ret tt g'.
Proof.
  revert g. induction seats as [|s seats IH]; intros g Hall; simpl; [eauto|].
  apply Forall_cons in Hall as [Hs Hall].
  destruct (trigger_returns_when_dead s cause g Hs) as (g1 & Hret).
  unfold bind. rewrite Hret. apply IH.
  pose proof (preserves_Ret _ _ _ _ _ (evolves_trigger_hunter s cause) Hret) as [Hr _].
  eapply Forall_impl; [exact Hall|]. intros x Hx. simpl in *.
  destruct (is_alive g1 x) eqn:Hx1; [|reflexivity].
  rewrite (is_alive_evolves _ _ _ Hr Hx1) in Hx. discriminate.
Qed.

Lemma daybreak_returns g : exists g', _daybreak g = Ret tt g'.
Proof.
  unfold _daybreak. unfold bind at 1.
  assert (Hres : exists deaths g1,
            _resolve_deaths g = Ret deaths g1 /\
            Forall (fun s => is_alive g1 s = false) deaths).
  { destruct (_night_outcome g) as [o|] eqn:Ho.
    - eexists _, _. split; [apply resolve_deaths_returns, Ho|].
      apply Forall_forall. intros s Hs. rewrite is_alive_mark_dead.
      rewrite (bool_decide_eq_true_2 _ Hs). apply andb_false_r.
    - exists [], g. split; [|constructor].
      unfold _resolve_deaths, bind, get. rewrite Ho. reflexivity. }
  destruct Hres as (deaths & g1 & -> & Hdead).
  unfold bind at 1. unfold print at 1, modify at 1. unfold bind at 1.
  destruct (triggers_return_when_dead deaths cause_night
              (set_stdout (stdout g1 ++ [P_daybreak deaths]) g1) Hdead) as (g2 & ->).
  eexists. reflexivity.
Qed.

End Returns.

(** ** [Counter.most_common()] *)

Lemma insert_desc_perm x l : insert_desc x l ≡ₚ x :: l.
Proof.
  induction l as [|y l IH]; simpl; [reflexivity|].
  destruct (snd y <=? snd x); [reflexivity|].
  rewrite IH. apply Permutation_swap.
Qed.

Lemma most_common_perm c : most_common c ≡ₚ c.
Proof.
  unfold most_common. induction c as [|x c IH]; simpl; [reflexivity|].
  rewrite insert_desc_perm, IH. reflexivity.
Qed.

Lemma insert_desc_sorted x l :
  StronglySorted (fun a b : Z * Z => snd b <= snd a) l ->
  StronglySorted (fun a b : Z * Z => snd b <= snd a) (insert_desc x l).
Proof.
  induction l as [|y l IH]; intros Hs; simpl.
  - constructor; constructor.
  - apply StronglySorted_inv in Hs as [Hs Hy].
    destruct (snd y <=? snd x) eqn:Hle.
    + apply Z.leb_le in Hle. constructor; [constructor; assumption|].
      constructor; [exact Hle|].
      eapply List.Forall_impl; [|exact Hy]. simpl. intros; lia.
    + apply Z.leb_gt in Hle. constructor; [apply IH, Hs|].
      apply Forall_forall. intros z Hz.
      rewrite insert_desc_perm in Hz. apply elem_of_cons in Hz as [->|Hz]; [lia|].
      rewrite List.Forall_forall in Hy. apply Hy, list_elem_of_In, Hz.
Qed.

Lemma most_common_sorted c :
  StronglySorted (fun a b : Z * Z => snd b <= snd a) (most_common c).
Proof.
  unfold most_common. induction c as [|x c IH]; simpl; [constructor|].
  apply insert_desc_sorted, IH.
Qed.

(** The first item of [most_common()] has the largest count. *)
Lemma most_common_head c t n rest :
  most_common c = (t, n) :: rest -> forall k m, (k, m) ∈ c -> m <= n.
Proof.
  intros Hmc k m Hin. rewrite <- most_common_perm, Hmc in Hin.
  pose proof (most_common_sorted c) as Hs. rewrite Hmc in Hs.
  apply StronglySorted_inv in Hs as [_ Hall].
  apply elem_of_cons in Hin as [[= -> ->]|Hin]; [lia|].
  rewrite List.Forall_forall in Hall.
  apply (Hall (k, m)), list_elem_of_In, Hin.
Qed.

(** The contenders [_voting] draws from: the candidates with the top
    count, each of them named by a vote and with no candidate above. *)
Lemma contenders_top votes t n rest l :
  most_common (Counter votes) = (t, n) :: rest ->
  l ∈ map fst (List.filter (fun sc : Z * Z => snd sc =? n) (most_common (Counter votes))) ->
  l ∈ votes /\ forall x, count_votes x votes <= count_votes l votes.
Proof.
  intros Hmc Hl.
  apply list_elem_of_fmap in Hl as ([k m] & -> & Hin). simpl.
  apply list_elem_of_In, List.filter_In in Hin as [Hin Hm].
  apply list_elem_of_In in Hin. simpl in Hm. apply Z.eqb_eq in Hm. subst m.
  rewrite most_common_perm in Hin.
  apply Counter_elem in Hin as [Hn Hn0].
  split.
  - unfold count_votes in Hn, Hn0. rewrite Hn in Hn0.
    destruct (List.filter (Z.eqb k) votes) as [|y ys] eqn:Hf; [contradiction|].
    assert (Hy : In y (List.filter (Z.eqb k) votes)) by (rewrite Hf; left; reflexivity).
    apply List.filter_In in Hy as [Hy Hky]. apply Z.eqb_eq in Hky. subst y.
    apply list_elem_of_In, Hy.
  - intros x. rewrite <- Hn.
    destruct (Z.eq_dec (count_votes x votes) 0) as [H0|H0].
    + rewrite H0. unfold count_votes in Hn. lia.
    + apply (most_common_head _ _ _ _ Hmc x), Counter_elem_of, H0.
Qed.

Lemma most_common_nil votes : most_common (Counter votes) = [] -> votes = [].
Proof.
  intros Hmc. destruct votes as [|v votes]; [reflexivity|].
  assert (Hin : (v, count_votes v (v :: votes)) ∈ Counter (v :: votes)).
  { apply Counter_elem_of. unfold count_votes. simpl. rewrite Z.eqb_refl. simpl. lia. }
  rewrite <- most_common_perm, Hmc in Hin. apply elem_of_nil in Hin. contradiction.
Qed.

(** ** The vote of the day *)

Lemma same_board_refl g : same_board g g.
Proof. repeat split. Qed.

Lemma same_board_trans g1 g2 g3 : same_board g1 g2 -> same_board g2 g3 -> same_board g1 g3.
Proof.
  intros (?&?&?&?&?&?&?) (?&?&?&?&?&?&?). repeat split; congruence.
Qed.

Lemma Forall_od_values_od_set {V} (P : V -> Prop) k v (d : odict V) :
  P v -> Forall P (od_values d) -> Forall P (od_values (od_set k v d)).
Proof.
  intros Hv. induction d as [|[k' v'] d IH]; simpl; intros Hd.
  - constructor; [exact Hv|constructor].
  - apply Forall_cons in Hd as [Hv' Hd]. destruct (k' =? k); simpl.
    + constructor; assumption.
    + constructor; [exact Hv'|apply IH, Hd].
Qed.

Section Voting.
Context {U : Unicode} {E : Env}.

Lemma send_stage_board seat stage expect g :
  exists response g1,
    _send_stage seat stage expect g = Ret response g1 /\ same_board g g1.
Proof.
  unfold _send_stage.
  destruct (interact (_log g) seat stage expect (rng g)) as [response rng'].
  eexists _, _. repeat split.
Qed.

Lemma send_briefing_board seat g :
  exists g1, send_briefing seat g = Ret tt g1 /\ same_board g g1.
Proof.
  unfold send_briefing, bind.
  destruct (send_stage_board seat stage_context false g) as (r1 & g1 & -> & H1).
  destruct (send_stage_board seat stage_chronicle_digest false g1) as (r2 & g2 & -> & H2).
  destruct (send_stage_board seat stage_your_notes false g2) as (r3 & g3 & -> & H3).
  exists g3. split; [reflexivity|].
  eapply same_board_trans; [|exact H3]. eapply same_board_trans; eassumption.
Qed.

(** One voter: a seat of the roster that is not alive is passed over; an
    alive one gets its resolved vote stored under its seat. *)
Lemma vote_turn_returns vr seat g :
  is_Some (od_get seat (players g)) ->
  exists vote g',
    vote_turn vr seat g
    = Ret (if is_alive g seat
           then {| vr_round_no := vr_round_no vr;
                   vr_votes := od_set seat (resolve_vote g vote) (vr_votes vr);
                   vr_lynched := vr_lynched vr |}
           else vr) g' /\
    players g' = players g /\ round_no g' = round_no g.
Proof.
  intros [p Hp]. unfold vote_turn, is_alive. unfold bind at 1. unfold _player.
  rewrite Hp. destruct (alive p); simpl.
  - unfold bind.
    destruct (send_stage_board seat stage_life_check true g) as (r1 & g1 & -> & H1).
    destruct (send_briefing_board seat g1) as (g2 & -> & H2).
    destruct (send_stage_board seat stage_vote true g2) as (vote & g3 & -> & H3).
    pose proof (same_board_trans _ _ _ (same_board_trans _ _ _ H1 H2) H3)
      as (Hpl & _ & Hr & _).
    exists vote. eexists. unfold get, on_chronicle, modify, ret.
    rewrite (resolve_vote_players _ _ _ Hpl).
    split; [reflexivity|]. split; [exact Hpl|exact Hr].
  - exists None, g. repeat split.
Qed.

Lemma vote_loop_returns order : forall vr g,
  Forall (fun s => is_Some (od_get s (players g))) order ->
  exists vr' g',
    for_fold order vr vote_turn g = Ret vr' g' /\
    players g' = players g /\ round_no g' = round_no g /\
    vr_round_no vr' = vr_round_no vr /\
    (Forall (resolved g) (od_values (vr_votes vr)) ->
     Forall (resolved g) (od_values (vr_votes vr'))) /\
    (NoDup (od_keys (vr_votes vr) ++ order) ->
     od_keys (vr_votes vr')
     = od_keys (vr_votes vr) ++ List.filter (is_alive g) order).
Proof.
  induction order as [|s order IH]; intros vr g Hall; simpl.
  - exists vr, g. repeat split; [auto|]. intros _. rewrite app_nil_r. reflexivity.
  - apply Forall_cons in Hall as [Hs Hall].
    destruct (vote_turn_returns vr s g Hs) as (vote & g1 & Hret & Hpl & Hr).
    unfold bind. rewrite Hret.
    assert (Hall1 : Forall (fun s => is_Some (od_get s (players g1))) order)
      by (rewrite Hpl; exact Hall).
    set (vr1 := if is_alive g s then _ else vr) in *.
    destruct (IH vr1 g1 Hall1) as (vr' & g' & -> & Hpl' & Hr' & Hrn & Hres & Hkeys).
    exists vr', g'. split; [reflexivity|].
    split; [congruence|]. split; [congruence|].
    assert (Hsame : forall v, resolved g1 v <-> resolved g v).
    { intros v. unfold resolved.
      split; intros [w ->]; exists w; [|symmetry]; apply resolve_vote_players, Hpl. }
    assert (His : forall x, is_alive g1 x = is_alive g x)
      by (intros x; apply is_alive_players, Hpl).
    split; [|split].
    + rewrite Hrn. subst vr1. destruct (is_alive g s); reflexivity.
    + intros Hvr. eapply Forall_impl; [apply Hres|intros v; apply Hsame].
      eapply Forall_impl; [|intros v; apply Hsame].
      subst vr1. destruct (is_alive g s); [|exact Hvr]. simpl.
      apply Forall_od_values_od_set; [eexists; reflexivity|exact Hvr].
    + intros Hnd.
      assert (Hs_out : s ∉ od_keys (vr_votes vr)).
      { apply NoDup_app in Hnd as (_ & Hdisj & _). intros Hin.
        apply (Hdisj s Hin). left. }
      apply od_get_None_keys in Hs_out.
      rewrite (List.filter_ext _ _ His) in Hkeys. subst vr1.
      destruct (is_alive g s) eqn:Halive; simpl in *.
      * rewrite Hkeys.
        -- rewrite (od_keys_od_set_absent _ _ _ Hs_out), <- app_assoc. reflexivity.
        -- rewrite (od_keys_od_set_absent _ _ _ Hs_out), <- app_assoc. exact Hnd.
      * apply Hkeys. apply NoDup_app in Hnd as (Hn1 & Hdisj & Hn2).
        apply NoDup_app. split; [exact Hn1|]. split.
        -- intros x Hx Hx'. apply (Hdisj x Hx). right. exact Hx'.
        -- apply NoDup_cons in Hn2 as [_ Hn2]. exact Hn2.
Qed.

End Voting.

#[local] Instance keeps_vote_record_preorder : PreOrder keeps_vote_record.
Proof.
  split; [intros g; reflexivity|].
  intros g1 g2 g3 H12 H23. unfold keeps_vote_record in *. congruence.
Qed.

Section VotingOutcome.
Context {U : Unicode} {E : Env}.

Lemma trigger_keeps_vote_record seat cause :
  preserves keeps_vote_record (_trigger_hunter_if_needed seat cause).
Proof.
  assert (Hset : forall s f, preserves keeps_vote_record (player_setattr s f)).
  { intros s f g. unfold player_setattr, bind, _player.
    destruct (od_get s (players g)); reflexivity. }
  unfold _trigger_hunter_if_needed. preserves_steps;
    try apply Hset; try (intros g; reflexivity).
  intros g. unfold _send_stage. destruct (interact _ _ _ _ _). reflexivity.
Qed.

(** A stored vote names an alive seat: the seat the reply names when it
    is alive, the first alive wolf otherwise. *)
Lemma resolve_vote_alive g vote t :
  NoDup (od_keys (players g)) ->
  resolve_vote g vote = Some t -> is_alive g t = true.
Proof.
  intros Hnd. unfold resolve_vote. cbv zeta.
  assert (Hwolf : head (_wolves_alive g) = Some t -> is_alive g t = true).
  { intros Hh. apply head_Some_elem_of in Hh.
    unfold _wolves_alive in Hh.
    apply list_elem_of_fmap in Hh as ([k p] & -> & Hin). simpl.
    apply list_elem_of_In, List.filter_In in Hin as [Hin Hp].
    apply list_elem_of_In in Hin. simpl in Hp. apply andb_true_iff in Hp as [Hp _].
    unfold is_alive. rewrite (elem_of_od_get _ _ _ Hnd Hin). exact Hp. }
  destruct (parse_vote vote) as [t0|]; [|exact Hwolf].
  destruct (od_get t0 (players g)) as [p|] eqn:Hp; [|exact Hwolf].
  destruct (alive p) eqn:Ha; [|exact Hwolf].
  intros [= ->]. unfold is_alive. rewrite Hp. exact Ha.
Qed.

Lemma rng_pick_returns l g :
  l <> [] ->
  exists x g', rng_pick l g = Ret x g' /\ x ∈ l /\ same_board g g' /\
               _vote_record g' = _vote_record g /\ stdout g' = stdout g.
Proof.
  intros Hl. unfold rng_pick. destruct (rng_choice (rng g) (length l)) as [i rng'].
  eexists _, _. split; [reflexivity|]. split; [|repeat split].
  apply list_elem_of_In, nth_In. apply Nat.mod_upper_bound.
  destruct l; [contradiction|discriminate].
Qed.

End VotingOutcome.

Section VotingTheorem.
Context {U : Unicode} {E : Env}.

Lemma resolved_Some g v :
  _wolves_alive g <> [] -> resolved g v -> is_Some v.
Proof.
  intros Hw [vote ->]. unfold resolve_vote. cbv zeta.
  assert (Hh : is_Some (head (_wolves_alive g))).
  { destruct (_wolves_alive g); [contradiction|simpl; eauto]. }
  destruct (parse_vote vote) as [t|]; [|exact Hh].
  destruct (od_get t (players g)) as [p|]; [|exact Hh].
  destruct (alive p); [eauto|exact Hh].
Qed.

Lemma resolve_vote_in_roster g vote t :
  resolve_vote g vote = Some t -> is_Some (od_get t (players g)).
Proof.
  unfold resolve_vote. cbv zeta.
  assert (Hwolf : head (_wolves_alive g) = Some t -> is_Some (od_get t (players g))).
  { intros Hh. apply head_Some_elem_of in Hh.
    pose proof (wolves_alive_in_roster g) as Hall.
    rewrite Forall_forall in Hall. apply Hall, Hh. }
  destruct (parse_vote vote) as [t0|]; [|exact Hwolf].
  destruct (od_get t0 (players g)) as [p|] eqn:Hp; [|exact Hwolf].
  destruct (alive p); [|exact Hwolf].
  intros [= ->]. rewrite Hp. eauto.
Qed.

(** [_voting] over seats of the roster returns; what it stores. *)
Lemma voting_returns order g :
  Forall (fun s => is_Some (od_get s (players g))) order ->
  exists g' vr,
    _voting order g = Ret tt g' /\
    _vote_record g' = Some vr /\
    (NoDup order -> od_keys (vr_votes vr) = List.filter (is_alive g) order) /\
    Forall (resolved g) (od_values (vr_votes vr)) /\
    match vr_lynched vr with
    | Some l =>
        l ∈ votes_cast vr /\
        (forall x, count_votes x (votes_cast vr) <= count_votes l (votes_cast vr)) /\
        is_alive g' l = false
    | None => votes_cast vr = [] /\ players g' = players g
    end.
Proof.
  intros Hall.
  unfold _voting. unfold bind at 1, get at 1. unfold bind at 1.
  destruct (vote_loop_returns order
              {| vr_round_no := round_no g; vr_votes := []; vr_lynched := None |} g Hall)
    as (vr' & g1 & -> & Hpl & Hr & Hrn & Hres & Hkeys).
  specialize (Hres (Forall_nil_2 _)). simpl in Hkeys.
  cbv zeta. fold (votes_cast vr').
  assert (Hvotes : forall l, l ∈ votes_cast vr' -> is_Some (od_get l (players g))).
  { intros l Hl. unfold votes_cast in Hl.
    apply list_elem_of_omap in Hl as (v & Hv & Hid). simpl in Hid. subst v.
    rewrite Forall_forall in Hres. destruct (Hres _ Hv) as [vote Hvote].
    eapply resolve_vote_in_roster; eauto. }
  destruct (most_common (Counter (votes_cast vr'))) as [|[t n] rest] eqn:Hmc.
  - unfold bind, print, modify, get, on_chronicle, ret. simpl.
    eexists _, _. split; [reflexivity|]. simpl. split; [reflexivity|].
    split; [exact Hkeys|]. split; [exact Hres|]. apply most_common_nil in Hmc.
    split; [exact Hmc|exact Hpl].
  - set (contenders := map fst _).
    assert (Hne : contenders <> []).
    { subst contenders. simpl. rewrite Z.eqb_refl. discriminate. }
    destruct (rng_pick_returns contenders g1 Hne)
      as (l & g2 & Hpick & Hl & (Hpl2 & _ & Hr2 & _) & _).
    subst contenders. rewrite <- Hmc in Hl.
    destruct (contenders_top _ _ _ _ _ Hmc Hl) as [Hlin Hmax].
    destruct (Hvotes l Hlin) as [p Hp].
    unfold bind. rewrite Hpick. unfold print, on_chronicle, get, ret. unfold modify.
    cbv beta iota.
    erewrite player_setattr_present by (simpl; rewrite Hpl2, Hpl; exact Hp).
    match goal with
    | |- context [_trigger_hunter_if_needed l cause_lynch ?g4] =>
        assert (Hdead : is_alive g4 l = false)
          by (unfold is_alive; simpl; rewrite od_get_od_set, Z.eqb_refl; reflexivity);
        destruct (trigger_returns_when_dead l cause_lynch g4 Hdead) as (g' & Hret);
        pose proof (preserves_Ret _ _ _ _ _ (trigger_keeps_vote_record l cause_lynch) Hret)
          as Hvr;
        pose proof (preserves_Ret _ _ _ _ _ (evolves_trigger_hunter l cause_lynch) Hret)
          as [Hev _]
    end.
    rewrite Hret. eexists _, _. split; [reflexivity|].
    split; [rewrite Hvr; reflexivity|]. simpl.
    split; [exact Hkeys|]. split; [exact Hres|].
    split; [exact Hlin|]. split; [exact Hmax|].
    destruct (is_alive g' l) eqn:Hl'; [|reflexivity].
    rewrite (is_alive_evolves _ _ _ Hev Hl') in Hdead. discriminate.
Qed.

(** X10.  [_voting] over distinct seats of the roster returns.  The record
    it stores holds one vote for each alive seat of the order, in that
    order, and none for the others.  If a seat is lynched, it is named by
    a vote, no seat has more votes, it was alive and is dead afterwards;
    if nobody is lynched, no vote names a seat and the roster is as
    before.  With an alive wolf and an alive voter, somebody is lynched. *)
Theorem voting_outcome order g :
  NoDup (od_keys (players g)) ->
  NoDup order ->
  Forall (fun s => s ∈ od_keys (players g)) order ->
  exists g' vr,
    _voting order g = Ret tt g' /\
    _vote_record g' = Some vr /\
    od_keys (vr_votes vr) = List.filter (is_alive g) order /\
    match vr_lynched vr with
    | Some l =>
        l ∈ votes_cast vr /\
        (forall x, count_votes x (votes_cast vr) <= count_votes l (votes_cast vr)) /\
        is_alive g l = true /\ is_alive g' l = false
    | None => votes_cast vr = [] /\ players g' = players g
    end /\
    (_wolves_alive g <> [] -> List.filter (is_alive g) order <> [] ->
     is_Some (vr_lynched vr)).
Proof.
  intros Hnd Hord Hin.
  assert (Hall : Forall (fun s => is_Some (od_get s (players g))) order).
  { eapply Forall_impl; [exact Hin|]. intros s. apply od_get_is_Some_keys. }
  destruct (voting_returns order g Hall) as (g' & vr & Hret & Hvr & Hkeys & Hres & Hl).
  specialize (Hkeys Hord).
  exists g', vr. split; [exact Hret|]. split; [exact Hvr|]. split; [exact Hkeys|].
  split.
  - destruct (vr_lynched vr) as [l|]; [|exact Hl].
    destruct Hl as (Hlin & Hmax & Hdead).
    split; [exact Hlin|]. split; [exact Hmax|]. split; [|exact Hdead].
    unfold votes_cast in Hlin.
    apply list_elem_of_omap in Hlin as (v & Hv & Hid). simpl in Hid. subst v.
    rewrite Forall_forall in Hres. destruct (Hres _ Hv) as [vote Hvote].
    eapply resolve_vote_alive; eauto.
  - intros Hw Hv.
    assert (Hcast : votes_cast vr <> []).
    { unfold votes_cast. rewrite <- Hkeys in Hv. unfold od_keys, od_values in *.
      destruct (vr_votes vr) as [|[k v] d]; [contradiction|]. simpl.
      apply Forall_cons in Hres as [Hres _]. simpl in Hres.
      destruct (resolved_Some g v Hw Hres) as [t ->]. simpl. discriminate. }
    destruct (vr_lynched vr); [eauto|]. destruct Hl as [Hl _]. contradiction.
Qed.

End VotingTheorem.

(** The vote over the whole roster after the hunter of seat 4 was
    lynched: seat 4 casts no vote, the five others do, and somebody is
    lynched. *)
Lemma voting_outcome_witness :
  let g := hunter_lynched_match in
  let order := od_keys (players g) in
  exists g' vr,
    @_voting unicode_sample env_demo order g = Ret tt g' /\
    _vote_record g' = Some vr /\
    od_keys (vr_votes vr) = [1; 2; 3; 5; 6] /\
    is_Some (vr_lynched vr).
Proof.
  intros g order.
  assert (Hnd : NoDup (od_keys (players g))).
  { apply (bool_decide_unpack (NoDup (od_keys (players g)))). vm_compute. exact I. }
  assert (Hin : Forall (fun s => s ∈ od_keys (players g)) order).
  { apply Forall_forall. intros s Hs. exact Hs. }
  destruct (@voting_outcome unicode_sample env_demo order g Hnd Hnd Hin)
    as (g' & vr & Hret & Hvr & Hkeys & _ & Hsome).
  exists g', vr. split; [exact Hret|]. split; [exact Hvr|].
  split; [rewrite Hkeys; vm_compute; reflexivity|].
  apply Hsome; vm_compute; discriminate.
Defined.

(** ** The day phase returns *)

Ltac step_stage :=
  match goal with
  | |- context [_send_stage ?s ?st ?e ?g] =>
      let r := fresh "r" in
      let g1 := fresh "g" in
      let Hb := fresh "Hb" in
      destruct (send_stage_board s st e g) as (r & g1 & -> & Hb); cbv beta iota
  | |- context [send_briefing ?s ?g] =>
      let g1 := fresh "g" in
      let Hb := fresh "Hb" in
      destruct (send_briefing_board s g) as (g1 & -> & Hb); cbv beta iota
  end.

Ltac chain_boards :=
  repeat match goal with
         | H : same_board _ _ |- _ => destruct H as (?&?&?&?&?&?&?)
         end.

Section DayPhase.
Context {U : Unicode} {E : Env}.

(** A speaker of the roster with an entry in [_day_spoken] gets its turn
    without an exception; the turn adds no key to [_day_spoken]. *)
Lemma talk_turn_returns idx seat g :
  is_Some (od_get seat (players g)) ->
  is_Some (od_get seat (_day_spoken g)) ->
  exists g', talk_turn idx seat g = Ret tt g' /\
             od_keys (_day_spoken g') = od_keys (_day_spoken g).
Proof.
  intros [p Hp] [sp Hs]. unfold talk_turn, bind, _player. rewrite Hp.
  cbv beta iota. step_stage. destruct (alive p); cbn [negb]; cbv beta iota.
  2:{ eexists. split; [reflexivity|]. chain_boards. congruence. }
  step_stage. unfold get. cbv beta iota.
  assert (Hs1 : od_get seat (_day_spoken g1) = Some sp) by (chain_boards; congruence).
  rewrite Hs1.
  assert (Hend : forall g2 : GameMaster,
            _day_spoken g2 = _day_spoken g ->
            exists g', Ret tt (set_day_spoken (od_set seat true (_day_spoken g2)) g2)
                       = Ret tt g' /\
                       od_keys (_day_spoken g') = od_keys (_day_spoken g)).
  { intros g2 Hd. eexists. split; [reflexivity|]. simpl. rewrite Hd.
    apply od_keys_od_set_present. eauto. }
  assert (Hnote : forall (g2 : GameMaster) n,
            players g2 = players g -> _day_spoken g2 = _day_spoken g ->
            exists g3, player_setattr seat (add_note n) g2 = Ret tt g3 /\
                       _day_spoken g3 = _day_spoken g).
  { intros g2 n Hpl Hd. erewrite player_setattr_present by (rewrite Hpl; exact Hp).
    eexists. split; [reflexivity|exact Hd]. }
  unfold on_chronicle, modify, ret.
  destruct sp; cbn [negb]; cbv beta iota; repeat step_stage.
  all: match goal with
       | |- context [match ?r with Some _ => _ | None => _ end] =>
           destruct r as [[|? ?]|]
       end; cbv beta iota; step_stage.
  all: match goal with
       | |- context [match ?r with Some _ => _ | None => _ end] =>
           destruct r as [[|? ?]|]
       end; cbv beta iota.
  all: try match goal with
           | |- context [match _extract_notes ?n with _ => _ end] =>
               destruct (_extract_notes n)
           end; cbv beta iota.
  all: try (apply Hend; chain_boards; simpl in *; congruence).
  all: match goal with
       | |- context [player_setattr _ (add_note ?n) ?g2] =>
           let gn := fresh "gn" in
           destruct (Hnote g2 n) as (gn & -> & Hd3);
             [chain_boards; simpl in *; congruence..|]
       end.
  all: apply Hend; exact Hd3.
Qed.

End DayPhase.

Lemma enumerate_snd l : forall i x, x ∈ enumerate i l -> snd x ∈ l.
Proof.
  induction l as [|y l IH]; intros i x Hx; simpl in Hx.
  - apply elem_of_nil in Hx. contradiction.
  - apply elem_of_cons in Hx as [->|Hx]; [left|right; eapply IH, Hx].
Qed.

Lemma alive_seats_in_keys g s : s ∈ _alive_seats g -> s ∈ od_keys (players g).
Proof.
  unfold _alive_seats. intros Hs.
  apply list_elem_of_fmap in Hs as (sp & -> & Hin).
  apply list_elem_of_In, List.filter_In in Hin as [Hin _].
  apply list_elem_of_fmap_2, list_elem_of_In, Hin.
Qed.

Section DayPhaseReturns.
Context {U : Unicode} {E : Env}.

Lemma talk_loop_returns l : forall g,
  Forall (fun x : Z * Z => snd x ∈ od_keys (players g) /\
                           snd x ∈ od_keys (_day_spoken g)) l ->
  exists g', for_each l (fun '(idx, seat) => talk_turn idx seat) g = Ret tt g'.
Proof.
  induction l as [|[idx seat] l IH]; intros g Hall; simpl; [eexists; reflexivity|].
  apply Forall_cons in Hall as [[Hp Hs] Hall]. simpl in Hp, Hs.
  apply od_get_is_Some_keys in Hp, Hs.
  destruct (talk_turn_returns idx seat g Hp Hs) as (g1 & Hret & Hkeys).
  unfold bind. rewrite Hret. apply IH.
  pose proof (preserves_Ret _ _ _ _ _ (evolves_talk_turn idx seat) Hret) as [Hr _].
  rewrite (roster_evolves_keys _ _ Hr), Hkeys. exact Hall.
Qed.

(** [_day_phase] returns from every state: the speakers and the voters
    are seats of the roster, [_day_spoken] has just been given an entry
    for every seat, and the lynched seat is dead when the trigger runs. *)
Lemma day_phase_returns g : exists g', _day_phase g = Ret tt g'.
Proof.
  unfold _day_phase. unfold bind at 1, get at 1. cbv zeta.
  unfold bind at 1, on_chronicle at 1, modify at 1.
  unfold bind at 1, modify at 1.
  set (g1 := set_day_spoken _ _).
  assert (Hpl : players g1 = players g) by reflexivity.
  assert (Hsp : od_keys (_day_spoken g1) = od_keys (players g)).
  { subst g1. simpl. unfold od_keys. rewrite map_map. simpl. apply map_id. }
  destruct (talk_loop_returns (enumerate 1 (_alive_seats g)) g1) as (g2 & Hloop).
  { apply Forall_forall. intros x Hx. apply enumerate_snd, alive_seats_in_keys in Hx.
    rewrite Hsp, Hpl. split; exact Hx. }
  unfold bind at 1. rewrite Hloop.
  assert (Hr : roster_evolves (players g1) (players g2)).
  { assert (Hpres : preserves match_evolves
              (for_each (enumerate 1 (_alive_seats g))
                 (fun '(idx, seat) => talk_turn idx seat))).
    { apply preserves_for_each; [apply _|]. intros [idx seat]. apply evolves_talk_turn. }
    apply (preserves_Ret _ _ _ _ _ Hpres Hloop). }
  destruct (voting_returns (_alive_seats g) g2) as (g' & _ & Hret & _).
  { apply Forall_forall. intros s Hs. apply od_get_is_Some_keys.
    rewrite (roster_evolves_keys _ _ Hr), Hpl. apply alive_seats_in_keys, Hs. }
  exists g'. exact Hret.
Qed.

End DayPhaseReturns.

(** ** The witch's night *)

Section NightWitch.
Context {U : Unicode} {E : Env}.

(** What [_night_witch] does in any state, also when it raises for want
    of a night outcome: nobody's [alive] changes, and either every potion
    count stays, or the alive witch had a heal left and has one less, or
    she had a poison left and has one less.  With a night outcome in
    place the call returns, and the outcome is the old one, or the old
    one with the healed target, or the old one with the poisoned target. *)
Lemma night_witch_effect g :
  exists res,
    _night_witch g = res /\
    (forall s, is_alive (state_after res) s = is_alive g s) /\
    (((forall s, heal_of (state_after res) s = heal_of g s /\
                 poison_of (state_after res) s = poison_of g s) /\
      (forall o, _night_outcome g = Some o ->
         exists g', res = Ret tt g' /\ _night_outcome g' = Some o)) \/
     (exists w t,
        first_witch g = Some w /\ is_alive g w = true /\ 0 < heal_of g w /\
        (forall s, heal_of (state_after res) s
                   = (if s =? w then heal_of g s - 1 else heal_of g s) /\
                   poison_of (state_after res) s = poison_of g s) /\
        (forall o, _night_outcome g = Some o ->
           exists g', res = Ret tt g' /\
             _night_outcome g' = Some {| kill_target := kill_target o;
                                         healed_target := Some t;
                                         poisoned_target := poisoned_target o |})) \/
     (exists w t,
        first_witch g = Some w /\ is_alive g w = true /\ 0 < poison_of g w /\
        (forall s, heal_of (state_after res) s = heal_of g s /\
                   poison_of (state_after res) s
                   = (if s =? w then poison_of g s - 1 else poison_of g s)) /\
        (forall o, _night_outcome g = Some o ->
           exists g', res = Ret tt g' /\
             _night_outcome g' = Some {| kill_target := kill_target o;
                                         healed_target := healed_target o;
                                         poisoned_target := Some t |}))).
Proof.
  match goal with
  | |- ex (fun res => _ /\ @?P res) => pose (Post := P)
  end.
  assert (Hnothing : forall g1 : GameMaster,
            players g1 = players g -> _night_outcome g1 = _night_outcome g ->
            exists res, Ret tt g1 = res /\ Post res).
  { intros g1 Hpl Ho1. eexists. split; [reflexivity|]. subst Post. cbv beta.
    cbn [state_after]. unfold is_alive, heal_of, poison_of. rewrite Hpl.
    split; [reflexivity|]. left. split; [intros s; split; reflexivity|].
    intros o Ho. exists g1. split; [reflexivity|congruence]. }
  unfold _night_witch. unfold bind at 1, get at 1.
  destruct (first_witch g) as [w|] eqn:Hw; [|apply Hnothing; auto].
  destruct (first_witch_in_roster g w Hw) as [p Hp].
  destruct w as [|w|w]; [apply Hnothing; auto| |].
  all: match goal with |- context [_player ?ws] => set (W := ws) in * end.
  all: unfold bind, _player; rewrite Hp; cbv beta iota.
  all: destruct (alive p) eqn:Halive; cbn [negb]; cbv beta iota;
    [|apply Hnothing; auto].
  all: step_stage; destruct (is_skip _);
    [apply Hnothing; chain_boards; congruence|].
  all: step_stage; step_stage.
  all: match goal with
       | |- context [match ?r with Some _ => _ | None => _ end] =>
           destruct r as [[|c a]|]
       end; try (apply Hnothing; chain_boards; congruence).
  all: assert (Hpl2 : players g2 = players g) by (chain_boards; congruence).
  all: assert (Ho2 : _night_outcome g2 = _night_outcome g) by (chain_boards; congruence).
  all: clear Hb Hb0 Hb1.
  all: assert (Hstore : forall (g3 : GameMaster) q p3,
         od_get W (players g3) = Some p3 ->
         store_potions W q g3
         = Ret tt (set_players
                     (od_set W (set_role_private
                                  {| is_wolf := is_wolf (role_private p3);
                                     wolf_mates := wolf_mates (role_private p3);
                                     potions := Some q |} p3) (players g3)) g3))
       by (intros g3 q p3 H3; unfold store_potions;
           rewrite (player_setattr_present _ _ _ _ H3); reflexivity).
  all: assert (Hp2 : od_get W (players g2) = Some p) by (rewrite Hpl2; exact Hp).
  all: assert (HaliveW : is_alive g W = true) by (unfold is_alive; rewrite Hp; exact Halive).
  all: set (q0 := default _ (potions (role_private p))) in *.
  all: assert (Hh0 : heal_of g W = heal_left q0) by (unfold heal_of; rewrite Hp; reflexivity).
  all: assert (Hq0 : poison_of g W = poison_left q0) by (unfold poison_of; rewrite Hp; reflexivity).
  all: assert (Hobs : forall (g' : GameMaster) q1 pa pb,
         alive pb = alive p ->
         potions (role_private pb) = Some q1 ->
         players g' = od_set W pb (od_set W pa (players g)) \/
         players g' = od_set W pb (players g) ->
         forall s, is_alive g' s = is_alive g s /\
                   heal_of g' s = (if s =? W then heal_left q1 else heal_of g s) /\
                   poison_of g' s = (if s =? W then poison_left q1 else poison_of g s))
    by (intros g' q1 pa pb Ha Hq Hpl s; unfold is_alive, heal_of, poison_of;
        destruct Hpl as [-> | ->]; rewrite ?od_get_od_set;
        destruct (s =? W) eqn:Hs; try (repeat split; reflexivity);
        apply Z.eqb_eq in Hs; subst s; rewrite Hp, Hq, Ha; repeat split; reflexivity).
  all: destruct (contains (bracketed kw_heal) (c :: a) && (0 <? heal_left q0)) eqn:Hheal;
    [destruct (_parse_directive (c :: a) kw_heal) as [t|]
    |destruct (contains (bracketed kw_poison) (c :: a) && (0 <? poison_left q0)) eqn:Hpoison;
       [destruct (_parse_directive (c :: a) kw_poison) as [t|]|]].
  all: try (apply andb_true_iff in Hheal as [_ Hheal]; apply Z.ltb_lt in Hheal).
  all: try (apply andb_true_iff in Hpoison as [_ Hpoison]; apply Z.ltb_lt in Hpoison).
  all: unfold mutate_potions.
  all: try (destruct (potions (role_private p)) as [q|] eqn:Hq;
            [|subst q0; simpl in *; lia]).
  all: destruct (_night_outcome g) as [o|] eqn:Ho.
  all: unfold ret, log_event, outcome_setattr, raise, bind, get, modify; cbv beta iota.
  all: repeat (erewrite Hstore by (simpl; rewrite ?od_get_od_set, ?Z.eqb_refl;
                                   first [reflexivity | exact Hp2]);
               cbv beta iota; cbn [_night_outcome set_players set_chronicle];
               rewrite ?Ho2; cbv beta iota).
  all: (eexists; split; [reflexivity|]); subst Post; cbv beta; cbn [state_after].
  all: match goal with
       | |- (forall s, is_alive ?g' s = _) /\ _ =>
           match g' with
           | context [Build_RolePrivate _ _ (Some ?q1)] =>
               assert (Hfin : forall s,
                         is_alive g' s = is_alive g s /\
                         heal_of g' s = (if s =? W then heal_left q1 else heal_of g s) /\
                         poison_of g' s = (if s =? W then poison_left q1 else poison_of g s))
                 by (first
                       [ eapply Hobs;
                         [ | |simpl; rewrite Hpl2; left; reflexivity]; reflexivity
                       | eapply (Hobs _ _ p);
                         [ | |simpl; rewrite Hpl2; right; reflexivity]; reflexivity ])
           end
       end.
  all: (split; [intros s; apply Hfin|]).
  all: assert (Hsame : heal_left q0 = heal_of g W /\ poison_left q0 = poison_of g W)
         by (split; congruence).
  all: first
         [ solve [ left; split;
                   [ intros s; destruct (Hfin s) as (_ & -> & ->);
                     destruct (s =? W) eqn:Hs; [|split; reflexivity];
                     apply Z.eqb_eq in Hs; subst s; rewrite Hh0, Hq0; split; reflexivity
                   | intros o' Ho'; first
                       [ discriminate Ho'
                       | injection Ho' as <-; eexists; split; [reflexivity|];
                         simpl; first [reflexivity | exact Ho2] ] ] ]
         | solve [ right; left; exists W, t;
                   split; [reflexivity|]; split; [exact HaliveW|];
                   split; [rewrite Hh0; exact Hheal|]; split;
                   [ intros s; destruct (Hfin s) as (_ & -> & ->);
                     destruct (s =? W) eqn:Hs; [|split; reflexivity];
                     apply Z.eqb_eq in Hs; subst s; rewrite Hh0, Hq0; simpl; split; lia
                   | intros o' Ho'; first
                       [ discriminate Ho'
                       | injection Ho' as <-; eexists; split; reflexivity ] ] ]
         | solve [ right; right; exists W, t;
                   split; [reflexivity|]; split; [exact HaliveW|];
                   split; [rewrite Hq0; exact Hpoison|]; split;
                   [ intros s; destruct (Hfin s) as (_ & -> & ->);
                     destruct (s =? W) eqn:Hs; [|split; reflexivity];
                     apply Z.eqb_eq in Hs; subst s; rewrite Hh0, Hq0; simpl; split; lia
                   | intros o' Ho'; first
                       [ discriminate Ho'
                       | injection Ho' as <-; eexists; split; reflexivity ] ] ]
         ].
Qed.

(** With a night outcome in place, [_night_witch] returns and changes
    nobody's [alive].  Either it uses no potion, and then the outcome and
    every potion count are as before; or the alive witch had a heal left,
    her heal count goes down by one and the outcome gets a healed target;
    or she had a poison left, her poison count goes down by one and the
    outcome gets a poisoned target. *)
Lemma night_witch_potions g o :
  _night_outcome g = Some o ->
  exists g' o',
    _night_witch g = Ret tt g' /\ _night_outcome g' = Some o' /\
    (forall s, is_alive g' s = is_alive g s) /\
    ((o' = o /\
      forall s, heal_of g' s = heal_of g s /\ poison_of g' s = poison_of g s) \/
     (exists w t,
        first_witch g = Some w /\ is_alive g w = true /\ 0 < heal_of g w /\
        o' = {| kill_target := kill_target o; healed_target := Some t;
                poisoned_target := poisoned_target o |} /\
        forall s, heal_of g' s = (if s =? w then heal_of g s - 1 else heal_of g s) /\
                  poison_of g' s = poison_of g s) \/
     (exists w t,
        first_witch g = Some w /\ is_alive g w = true /\ 0 < poison_of g w /\
        o' = {| kill_target := kill_target o; healed_target := healed_target o;
                poisoned_target := Some t |} /\
        forall s, heal_of g' s = heal_of g s /\
                  poison_of g' s = (if s =? w then poison_of g s - 1 else poison_of g s))).
Proof.
  intros Ho. destruct (night_witch_effect g) as (res & Hres & Halive & Hcases).
  destruct Hcases as [[Hsame Hout] | [(w & t & Hw & Ha & Hl & Hsame & Hout)
                                     | (w & t & Hw & Ha & Hl & Hsame & Hout)]];
    destruct (Hout o Ho) as (g' & -> & Ho'); cbn [state_after] in *;
    exists g'; eexists; (split; [exact Hres|]); (split; [exact Ho'|]);
    (split; [exact Halive|]).
  - left. split; [reflexivity|exact Hsame].
  - right. left. exists w, t. auto 10.
  - right. right. exists w, t. auto 10.
Qed.

End NightWitch.

Section NightPhase.
Context {U : Unicode} {E : Env}.

Lemma first_witch_players g g' : players g' = players g -> first_witch g' = first_witch g.
Proof. unfold first_witch. intros ->. reflexivity. Qed.

(** [_night_wolves] returns when a night outcome is in place, and sets
    at most its kill target. *)
Lemma night_wolves_returns g o :
  _night_outcome g = Some o ->
  exists g' o',
    _night_wolves g = Ret tt g' /\ players g' = players g /\
    _night_outcome g' = Some o' /\
    healed_target o' = healed_target o /\ poisoned_target o' = poisoned_target o.
Proof.
  intros Ho. unfold _night_wolves. unfold bind at 1, get at 1. unfold bind at 1.
  destruct (wolves_loop_returns (_wolves_alive g) [] g (wolves_alive_in_roster g))
    as (votes & g1 & -> & Hpl & Ho1).
  rewrite Ho in Ho1. unfold wolves_tally.
  destruct (most_common_1 (Counter votes)) as [|[t n] rest].
  - exists g1, o. repeat split; assumption.
  - unfold outcome_setattr, bind, get. rewrite Ho1.
    unfold log_event, modify. eexists _, _. split; [reflexivity|].
    simpl. repeat split. exact Hpl.
Qed.

(** X11.  [_night_phase] returns from every state and changes nobody's
    [alive].  The outcome it leaves has a healed target or a poisoned
    target, never both; a potion is used only by the alive witch and only
    when she has one left, the matching count goes down by one, and every
    other count stays. *)
Theorem night_phase_outcome g :
  exists g' o',
    _night_phase g = Ret tt g' /\ _night_outcome g' = Some o' /\
    (forall s, is_alive g' s = is_alive g s) /\
    ((healed_target o' = None /\ poisoned_target o' = None /\
      forall s, heal_of g' s = heal_of g s /\ poison_of g' s = poison_of g s) \/
     (exists w t,
        first_witch g = Some w /\ is_alive g w = true /\ 0 < heal_of g w /\
        healed_target o' = Some t /\ poisoned_target o' = None /\
        forall s, heal_of g' s = (if s =? w then heal_of g s - 1 else heal_of g s) /\
                  poison_of g' s = poison_of g s) \/
     (exists w t,
        first_witch g = Some w /\ is_alive g w = true /\ 0 < poison_of g w /\
        healed_target o' = None /\ poisoned_target o' = Some t /\
        forall s, heal_of g' s = heal_of g s /\
                  poison_of g' s = (if s =? w then poison_of g s - 1 else poison_of g s))).
Proof.
  unfold _night_phase. unfold bind at 1, modify at 1.
  set (g0 := set_night_outcome (Some NightOutcome_new) g).
  destruct (night_wolves_returns g0 NightOutcome_new eq_refl)
    as (g1 & o1 & Hwolves & Hpl1 & Ho1 & Hh1 & Hp1).
  unfold bind at 1. rewrite Hwolves.
  destruct (night_witch_potions g1 o1 Ho1) as (g2 & o2 & Hwitch & Ho2 & Halive & Hcases).
  unfold bind at 1. rewrite Hwitch. unfold bind, get. rewrite Ho2.
  unfold on_chronicle, modify. eexists _, o2. split; [reflexivity|].
  assert (Hpl : players g1 = players g) by (rewrite Hpl1; reflexivity).
  assert (Hobs : forall s, is_alive g1 s = is_alive g s /\ heal_of g1 s = heal_of g s /\
                           poison_of g1 s = poison_of g s).
  { intros s. unfold is_alive, heal_of, poison_of. rewrite Hpl. auto. }
  assert (Hfw : first_witch g1 = first_witch g) by apply first_witch_players, Hpl.
  split; [exact Ho2|].
  split; [intros s; rewrite <- (proj1 (Hobs s)); apply Halive|].
  simpl in Hh1, Hp1.
  match goal with
  | |- context [heal_of ?gf _] =>
      change (heal_of gf) with (heal_of g2); change (poison_of gf) with (poison_of g2)
  end.
  destruct Hcases as [[-> Hsame] | [(w & t & Hw & Ha & Hleft & -> & Hsame)
                                   | (w & t & Hw & Ha & Hleft & -> & Hsame)]].
  - left. split; [exact Hh1|]. split; [exact Hp1|].
    intros s. destruct (Hsame s) as [-> ->], (Hobs s) as (_ & -> & ->). auto.
  - right. left. exists w, t. rewrite <- Hfw. split; [exact Hw|].
    destruct (Hobs w) as (<- & <- & _). split; [exact Ha|]. split; [exact Hleft|].
    split; [reflexivity|]. split; [exact Hp1|].
    intros s. destruct (Hsame s) as [-> ->], (Hobs s) as (_ & -> & ->). auto.
  - right. right. exists w, t. rewrite <- Hfw. split; [exact Hw|].
    destruct (Hobs w) as (<- & _ & <-). split; [exact Ha|]. split; [exact Hleft|].
    split; [exact Hh1|]. split; [reflexivity|].
    intros s. destruct (Hsame s) as [-> ->], (Hobs s) as (_ & -> & ->). auto.
Qed.

End NightPhase.

(** ** A match runs to its end *)

Section Lifecycle.
Context {U : Unicode} {E : Env}.

Lemma night_phase_returns g : exists g', _night_phase g = Ret tt g'.
Proof.
  unfold _night_phase. unfold bind at 1, modify at 1.
  destruct (night_wolves_returns (set_night_outcome (Some NightOutcome_new) g)
              NightOutcome_new eq_refl) as (g1 & o1 & Hwolves & _ & Ho1 & _).
  unfold bind at 1. rewrite Hwolves.
  destruct (night_witch_potions g1 o1 Ho1) as (g2 & o2 & Hwitch & Ho2 & _).
  unfold bind at 1. rewrite Hwitch. unfold bind, get. rewrite Ho2.
  eexists. reflexivity.
Qed.

Lemma is_finished_cases g :
  (exists r, r <> ongoing /\ _is_finished g = Ret true (set_result r g)) \/
  _is_finished g = Ret false g.
Proof.
  rewrite is_finished_unfold. destruct (wolves_alive_count g =? 0).
  - left. exists villagers_win. split; [discriminate|reflexivity].
  - destruct (villagers_alive_count g <=? wolves_alive_count g).
    + left. exists wolves_win. split; [discriminate|reflexivity].
    + right. reflexivity.
Qed.

Lemma postgame_loop_returns seats : forall g,
  exists g',
    for_each seats
      (fun seat =>
         _send_stage seat stage_postgame_context true ;;;
         _send_stage seat stage_postgame_roundup true ;;;
         _send_stage seat stage_postgame_roast true ;;;
         ret tt) g
    = Ret tt g' /\ same_board g g'.
Proof.
  induction seats as [|seat seats IH]; intros g; simpl.
  - exists g. split; [reflexivity|apply same_board_refl].
  - unfold bind at 1. unfold bind at 1.
    destruct (send_stage_board seat stage_postgame_context true g) as (r1 & g1 & -> & Hb1).
    unfold bind at 1.
    destruct (send_stage_board seat stage_postgame_roundup true g1) as (r2 & g2 & -> & Hb2).
    unfold bind at 1.
    destruct (send_stage_board seat stage_postgame_roast true g2) as (r3 & g3 & -> & Hb3).
    unfold ret at 1. destruct (IH g3) as (g4 & -> & Hb4).
    exists g4. split; [reflexivity|].
    eapply same_board_trans; [|exact Hb4]. eapply same_board_trans; [|exact Hb3].
    eapply same_board_trans; eassumption.
Qed.

(** [_postgame] returns and leaves the board as it is. *)
Lemma postgame_returns g : exists g', _postgame g = Ret tt g' /\ same_board g g'.
Proof.
  unfold _postgame. unfold bind at 1, get at 1. unfold bind at 1.
  destruct (postgame_loop_returns (od_keys (players g)) g) as (g1 & -> & Hb).
  eexists. split; [reflexivity|].
  destruct Hb as (?&?&?&?&?&?&?). repeat split; assumption.
Qed.

Lemma setup_returns g : exists g', setup g = Ret tt g'.
Proof.
  unfold setup, _wolf_intro. unfold bind at 1, get at 1.
  generalize (map fst (List.filter (fun sp => Role_eqb (role (snd sp)) WOLF) (players g))).
  intros l. generalize g. induction l as [|wid l IH]; intros g0; simpl; [eexists; reflexivity|].
  unfold bind at 1. unfold bind at 1.
  destruct (send_stage_board wid stage_wolf_intro false g0) as (r & g1 & -> & _).
  unfold ret at 1. apply IH.
Qed.

(** The loop of [run_game], given rounds enough: it returns, and then a
    side has won or the round limit is passed. *)
Lemma run_rounds_ends n : forall g,
  max_rounds (config g) - round_no g + 1 <= Z.of_nat n ->
  exists g',
    run_rounds n g = Ret tt g' /\ config g' = config g /\
    (_result g' <> ongoing \/ max_rounds (config g') < round_no g').
Proof.
  induction n as [|n IH]; intros g Hbound.
  - simpl. unfold bind at 1.
    destruct (is_finished_cases g) as [(r & Hr & ->) | ->]; unfold bind, get; simpl.
    + eexists. split; [reflexivity|]. split; [reflexivity|]. left. exact Hr.
    + destruct (max_rounds (config g) <? round_no g) eqn:Hmax.
      * apply Z.ltb_lt in Hmax. exists g. repeat split. right. exact Hmax.
      * apply Z.ltb_ge in Hmax. simpl in Hbound. lia.
  - cbn [run_rounds]. unfold bind at 1.
    destruct (is_finished_cases g) as [(r & Hr & ->) | ->]; unfold bind at 1, get at 1.
    { simpl. eexists. split; [reflexivity|]. split; [reflexivity|]. left. exact Hr. }
    cbn [orb]. destruct (max_rounds (config g) <? round_no g) eqn:Hmax.
    { apply Z.ltb_lt in Hmax. exists g. repeat split. right. exact Hmax. }
    apply Z.ltb_ge in Hmax.
    destruct (night_phase_returns g) as (g1 & Hnight).
    pose proof (preserves_Ret _ _ _ _ _ round_night_phase Hnight) as [Hr1 Hc1].
    unfold bind at 1. rewrite Hnight. unfold bind at 1.
    destruct (is_finished_cases g1) as [(r & Hr & ->) | ->].
    { eexists. split; [reflexivity|]. split; [exact Hc1|]. left. exact Hr. }
    destruct (daybreak_returns g1) as (g2 & Hday).
    pose proof (preserves_Ret _ _ _ _ _ round_daybreak Hday) as [Hr2 Hc2].
    unfold bind at 1. rewrite Hday. unfold bind at 1.
    destruct (is_finished_cases g2) as [(r & Hr & ->) | ->].
    { eexists. split; [reflexivity|]. split; [simpl; congruence|]. left. exact Hr. }
    destruct (day_phase_returns g2) as (g3 & Hphase).
    pose proof (preserves_Ret _ _ _ _ _ round_day_phase Hphase) as [Hr3 Hc3].
    unfold bind at 1. rewrite Hphase. unfold bind at 1, modify at 1.
    destruct (IH (set_round_no (round_no g3 + 1) g3)) as (g' & Hrest & Hc' & Hend).
    { simpl. rewrite Hc3, Hc2, Hc1, Hr3, Hr2, Hr1. lia. }
    exists g'. split; [exact Hrest|]. split; [|exact Hend].
    rewrite Hc'. simpl. congruence.
Qed.

End Lifecycle.

Section MatchEnds.
Context {U : Unicode} {E : Env}.

(** X12.  Whatever the agents answer and whatever state the game master
    is in, [setup], [_night_phase], [_daybreak], [_day_phase] and
    [_postgame] return: no seat lookup and no access to the night outcome
    fails.  [run_game] returns too, and then a side has won or the round
    number is past [max_rounds]. *)
Theorem match_runs_to_its_end :
  (forall g, exists g', setup g = Ret tt g') /\
  (forall g, exists g', _night_phase g = Ret tt g') /\
  (forall g, exists g', _daybreak g = Ret tt g') /\
  (forall g, exists g', _day_phase g = Ret tt g') /\
  (forall g, exists g', _postgame g = Ret tt g') /\
  (forall g, exists g',
     run_game g = Ret tt g' /\
     (_result g' <> ongoing \/ max_rounds (config g') < round_no g')).
Proof.
  split; [exact setup_returns|]. split; [exact night_phase_returns|].
  split; [exact daybreak_returns|]. split; [exact day_phase_returns|].
  split.
  { intros g. destruct (postgame_returns g) as (g' & Hret & _). eauto. }
  intros g. unfold run_game. unfold bind at 1, print at 1, modify at 1.
  unfold bind at 1, get at 1. unfold bind at 1.
  set (g0 := set_stdout _ g).
  destruct (run_rounds_ends (Z.to_nat (max_rounds (config g0) - round_no g0 + 1)) g0)
    as (g1 & -> & Hc & Hend); [lia|].
  destruct (postgame_returns g1) as (g' & -> & (_ & _ & Hr & _ & _ & Hc' & Hres)).
  exists g'. split; [reflexivity|]. rewrite Hres, Hc', Hr. exact Hend.
Qed.

(** X13.  A triggered hunter who has not shot and whose reply names, with
    the shoot keyword, a seat that is not in the roster: if the hunter is
    dead, as at every call the game master makes, the call returns with
    the shot used up, nobody hit and nothing announced; if the hunter is
    alive, the call raises [KeyError] for the named seat and the shot is
    not used. *)
Theorem trigger_shot_at_missing_seat seat cause g player c r target :
  od_get seat (players g) = Some player ->
  role player = HUNTER ->
  hunter_has_shot player = false ->
  fst (interact (_log g) seat stage_hunter_trigger true (rng g)) = Some (c :: r) ->
  contains (bracketed kw_shoot) (c :: r) = true ->
  _parse_directive (c :: r) kw_shoot = Some target ->
  od_get target (players g) = None ->
  exists g',
    _trigger_hunter_if_needed seat cause g
    = (if alive player then Raise (KeyError target) g' else Ret tt g') /\
    has_shot g' seat = negb (alive player) /\
    (forall s, is_alive g' s = is_alive g s) /\
    stdout g' = stdout g ++ [P_stage seat stage_hunter_trigger (Some (c :: r))].
Proof.
  intros Hp Hrole Hflag Hreply Hshoot Hparse Hmissing.
  rewrite trigger_hunter_unfold, Hp, Hrole, Hflag. cbn [Role_eqb negb orb].
  destruct (send_stage_returns seat stage_hunter_trigger true g)
    as (response & g1 & -> & Hpl & Hout & _ & Hresp).
  rewrite Hreply in Hresp. subst response.
  rewrite Hshoot, Hparse, Hpl, Hmissing.
  destruct (alive player) eqn:Halive.
  - exists g1. split; [reflexivity|]. unfold has_shot, is_alive. rewrite Hpl, Hp.
    split; [exact Hflag|]. split; [reflexivity|exact Hout].
  - assert (Hp1 : od_get seat (players g1) = Some player) by (rewrite Hpl; exact Hp).
    rewrite (player_setattr_present _ _ _ _ Hp1).
    eexists. split; [reflexivity|]. unfold has_shot, is_alive. simpl.
    split; [rewrite od_get_od_set, Z.eqb_refl; reflexivity|].
    split; [|exact Hout].
    intros s. rewrite od_get_od_set, Hpl.
    destruct (s =? seat) eqn:Hs; [|reflexivity].
    apply Z.eqb_eq in Hs. subst s. rewrite Hp. reflexivity.
Qed.

End MatchEnds.

(** The dead hunter of seat 4 shoots at seat 9: the call returns, the
    shot is used and nobody is hit. *)
Lemma trigger_shot_at_missing_seat_witness :
  exists g',
    @_trigger_hunter_if_needed unicode_sample (env_scripted script_stray_shot)
      4 cause_lynch hunter_lynched_match = Ret tt g' /\
    has_shot g' 4 = true /\
    forall s, is_alive g' s = is_alive hunter_lynched_match s.
Proof.
  assert (Hp : exists player, od_get 4 (players hunter_lynched_match) = Some player /\
                              role player = HUNTER /\ hunter_has_shot player = false /\
                              alive player = false).
  { vm_compute. eexists. repeat split. }
  destruct Hp as (player & Hp & Hrole & Hflag & Hdead).
  destruct (@trigger_shot_at_missing_seat unicode_sample (env_scripted script_stray_shot)
              4 cause_lynch hunter_lynched_match player
              12304 (skipn 1 (directive kw_shoot 9)) 9 Hp Hrole Hflag)
    as (g' & Hret & Hshot & Halive & _); try (vm_compute; reflexivity).
  rewrite Hdead in Hret, Hshot. exists g'. repeat split; assumption.
Defined.

(** ** The potions over a match *)

#[local] Instance potions_decay_preorder : PreOrder potions_decay.
Proof.
  split.
  - intros g s. repeat split; auto; lia.
  - intros g1 g2 g3 H12 H23 s.
    destruct (H12 s) as (? & ? & ? & ?), (H23 s) as (? & ? & ? & ?).
    repeat split; auto; lia.
Qed.

Lemma decay_same_players g g' : players g' = players g -> potions_decay g g'.
Proof.
  intros Hpl s. unfold heal_of, poison_of. rewrite Hpl. repeat split; auto; lia.
Qed.

Create HintDb decay.

Section Potions.
Context {U : Unicode} {E : Env}.

Lemma decay_modify f :
  (forall g, players (f g) = players g) -> preserves potions_decay (modify f).
Proof. intros Hf. apply preserves_modify. intros g. apply decay_same_players, Hf. Qed.

Lemma decay_send_stage seat stage expect :
  preserves potions_decay (_send_stage seat stage expect).
Proof.
  intros g. unfold _send_stage. destruct (interact _ _ _ _ _).
  apply decay_same_players. reflexivity.
Qed.

Lemma decay_rng_pick l : preserves potions_decay (rng_pick l).
Proof.
  intros g. unfold rng_pick. destruct (rng_choice _ _).
  apply decay_same_players. reflexivity.
Qed.

(** Assigning an attribute other than [role_private] to a player. *)
Lemma decay_player_setattr seat f :
  (forall p, potions (role_private (f p)) = potions (role_private p)) ->
  preserves potions_decay (player_setattr seat f).
Proof.
  intros Hf g. unfold player_setattr, bind, _player, modify.
  destruct (od_get seat (players g)) as [p|] eqn:Hp; simpl; [|reflexivity].
  intros s. unfold heal_of, poison_of. simpl. rewrite od_get_od_set.
  destruct (s =? seat) eqn:Hs; [|repeat split; auto; lia].
  apply Z.eqb_eq in Hs. subst s. rewrite Hp, Hf. repeat split; auto; lia.
Qed.

Lemma decay_night_witch : preserves potions_decay _night_witch.
Proof.
  intros g s. destruct (night_witch_effect g) as (res & -> & _ & Hcases).
  destruct Hcases as [[Hsame _] | [(w & t & _ & _ & Hl & Hsame & _)
                                  | (w & t & _ & _ & Hl & Hsame & _)]];
    destruct (Hsame s) as [-> ->]; try (repeat split; auto; lia);
    destruct (s =? w) eqn:Hs; try (repeat split; auto; lia);
    apply Z.eqb_eq in Hs; subst s; repeat split; auto; lia.
Qed.

#[local] Hint Resolve decay_send_stage decay_rng_pick decay_night_witch : decay.

Ltac decay :=
  unfold print, on_chronicle, log_event, outcome_setattr, send_briefing;
  preserves_steps;
  first [ apply decay_player_setattr; intros; reflexivity
        | apply decay_modify; intros; reflexivity
        | solve [auto with decay] ].

Lemma decay_trigger_hunter seat cause :
  preserves potions_decay (_trigger_hunter_if_needed seat cause).
Proof. unfold _trigger_hunter_if_needed. decay. Qed.

Lemma decay_resolve_deaths : preserves potions_decay _resolve_deaths.
Proof. unfold _resolve_deaths. decay. Qed.

Lemma decay_is_finished : preserves potions_decay _is_finished.
Proof. unfold _is_finished. decay. Qed.

Lemma decay_night_wolves : preserves potions_decay _night_wolves.
Proof. unfold _night_wolves, wolf_turn, wolves_tally. decay. Qed.

#[local] Hint Resolve decay_trigger_hunter decay_resolve_deaths decay_is_finished
  decay_night_wolves : decay.

Lemma decay_night_phase : preserves potions_decay _night_phase.
Proof. unfold _night_phase. decay. Qed.

Lemma decay_daybreak : preserves potions_decay _daybreak.
Proof. unfold _daybreak. decay. Qed.

Lemma decay_voting order : preserves potions_decay (_voting order).
Proof. unfold _voting, vote_turn. decay. Qed.

#[local] Hint Resolve decay_night_phase decay_daybreak decay_voting : decay.

Lemma decay_day_phase : preserves potions_decay _day_phase.
Proof. unfold _day_phase, talk_turn. decay. Qed.

Lemma decay_setup : preserves potions_decay setup.
Proof. unfold setup, _wolf_intro. decay. Qed.

Lemma decay_postgame : preserves potions_decay _postgame.
Proof. unfold _postgame. decay. Qed.

#[local] Hint Resolve decay_day_phase decay_setup decay_postgame : decay.

Lemma decay_run_rounds n : preserves potions_decay (run_rounds n).
Proof. induction n as [|n IH]; simpl; decay. Qed.

#[local] Hint Resolve decay_run_rounds : decay.

Lemma decay_run_game : preserves potions_decay run_game.
Proof. unfold run_game. decay. Qed.

#[local] Hint Resolve decay_run_game : decay.

Lemma decay_perform a : preserves potions_decay (perform a).
Proof. destruct a; simpl; decay. Qed.

Lemma decay_perform_all actions g : potions_decay g (perform_all actions g).
Proof.
  revert g. induction actions as [|a actions IH]; intros g; simpl; [reflexivity|].
  etransitivity; [apply decay_perform|apply IH].
Qed.

End Potions.

(** Every player of a new game master has no potions or one of each. *)
Lemma GameMaster_new_potions cfg rng0 :
  Forall (fun p => potions (role_private p) = None \/
                   potions (role_private p) = Some {| heal_left := 1; poison_left := 1 |})
         (od_values (players (GameMaster_new cfg rng0))).
Proof.
  set (P := fun p => potions (role_private p) = None \/
                     potions (role_private p) = Some {| heal_left := 1; poison_left := 1 |}).
  assert (Hgen : forall seats wolf_ids plan g,
            Forall P (od_values (players g)) ->
            Forall P (od_values (players
              (fold_left (fun g seat =>
                            set_day_spoken (od_set (sc_seat_id seat) false (_day_spoken g))
                              (set_players (od_set (sc_seat_id seat)
                                              (initial_player seats wolf_ids seat)
                                              (players g)) g))
                         plan g)))).
  { intros seats wolf_ids plan. induction plan as [|seat plan IH]; intros g H0; simpl;
      [exact H0|].
    apply IH. simpl. apply Forall_od_values_od_set; [|exact H0].
    unfold P, initial_player. simpl. destruct (sc_role seat); simpl; auto. }
  unfold GameMaster_new, _initialise_players. apply Hgen. constructor.
Qed.

(** X14.  Over any sequence of calls no heal or poison count goes up.  In
    a match started from a configuration every count is 0 or 1 at every
    moment: one heal and one poison, at most, for the whole match. *)
Theorem potions_never_refill {U : Unicode} {E : Env} :
  (forall g actions s,
     let g' := perform_all actions g in
     heal_of g' s <= heal_of g s /\ poison_of g' s <= poison_of g s) /\
  (forall cfg rng0 actions s,
     let g' := perform_all actions (GameMaster_new cfg rng0) in
     0 <= heal_of g' s <= 1 /\ 0 <= poison_of g' s <= 1).
Proof.
  split.
  - intros g actions s g'. destruct (decay_perform_all actions g s) as (? & ? & _).
    split; assumption.
  - intros cfg rng0 actions s g'.
    destruct (decay_perform_all actions (GameMaster_new cfg rng0) s)
      as (Hh & Hp & Hh0 & Hp0). fold g' in Hh, Hp, Hh0, Hp0.
    assert (Hinit : 0 <= heal_of (GameMaster_new cfg rng0) s <= 1 /\
                    0 <= poison_of (GameMaster_new cfg rng0) s <= 1).
    { unfold heal_of, poison_of.
      destruct (od_get s (players (GameMaster_new cfg rng0))) as [p|] eqn:Hs; [|lia].
      apply od_get_Some_elem_of, (list_elem_of_fmap_2 snd) in Hs.
      pose proof (GameMaster_new_potions cfg rng0) as Hall.
      rewrite Forall_forall in Hall. destruct (Hall p Hs) as [-> | ->]; simpl; lia. }
    lia.
Qed.

(** ** The rule-based sessions, as the game master reads them *)

(** [str(n)] of a natural number starts with an ASCII digit, and is that
    digit alone up to 9. *)
Lemma str_int_digit n :
  0 <= n ->
  exists c more, str_int n = c :: more /\ 48 <= c <= 57 /\
                 (n <= 9 -> c = 48 + n /\ more = []).
Proof.
  intros Hn. destruct n as [|p|p]; [| |lia].
  - exists 48, []. split; [reflexivity|]. split; [lia|]. auto.
  - destruct (Z_le_gt_dec (Z.pos p) 9) as [Hle|Hgt].
    + assert (Hp : (p = 1 \/ p = 2 \/ p = 3 \/ p = 4 \/ p = 5 \/ p = 6 \/ p = 7 \/
                    p = 8 \/ p = 9)%positive) by lia.
      destruct Hp as [->|[->|[->|[->|[->|[->|[->|[->| ->]]]]]]]];
        eexists _, _; (split; [reflexivity|]); (split; [lia|]); intros _; split; reflexivity.
    + unfold str_int. simpl.
      pose proof (Unsigned.to_uint_nonnil p) as Hnil.
      destruct (Pos.to_uint p); [contradiction|..];
        eexists _, _; (split; [reflexivity|]); (split; [lia|]); intros; lia.
Qed.

Lemma str_int_no_bracket n : 0 <= n <= 9 -> LQ ∉ str_int n.
Proof.
  intros Hn. destruct (str_int_digit n) as (c & more & -> & Hc & Hsmall); [lia|].
  destruct Hsmall as [-> ->]; [lia|].
  intros Hin. apply list_elem_of_singleton in Hin. unfold LQ in Hin. lia.
Qed.

Section ReadReplies.
Context {U : Unicode}.

Lemma digit_of_ascii c : 48 <= c <= 57 -> digit_of c = Some (c - 48).
Proof.
  intros Hc. unfold digit_of. simpl.
  destruct ((48 <=? c) && (c <=? 48 + 9)) eqn:Hin; [reflexivity|].
  apply andb_false_iff in Hin as [Hin|Hin];
    [apply Z.leb_gt in Hin|apply Z.leb_gt in Hin]; lia.
Qed.

(** A reply made of free text, one directive with [str(n)] as its seat,
    and more text: the game master reads the first digit of [n], which is
    [n] itself up to 9. *)
Lemma parse_directive_str_int pre kw n post :
  LQ ∉ pre -> kw <> [] -> RQ ∉ kw -> 0 <= n ->
  exists v,
    _parse_directive (pre ++ bracketed kw ++ [ZUO; WEI] ++ str_int n ++ post) kw = Some v /\
    0 <= v <= 9 /\ (n <= 9 -> v = n).
Proof.
  intros Hpre Hne Hnot Hn.
  destruct (str_int_digit n Hn) as (c & more & -> & Hc & Hsmall).
  unfold _parse_directive. rewrite finditer_skip_prefix by exact Hpre.
  change (bracketed kw ++ [ZUO; WEI] ++ (c :: more) ++ post)
    with (bracketed kw ++ ZUO :: WEI :: c :: (more ++ post)).
  rewrite finditer_directive;
    [|assumption|assumption|rewrite digit_of_ascii by exact Hc; eauto].
  simpl. rewrite bool_decide_eq_true_2 by reflexivity.
  unfold int_digit. rewrite digit_of_ascii by exact Hc. simpl.
  eexists. split; [reflexivity|]. split; [lia|].
  intros Hle. destruct (Hsmall Hle) as [-> _]. lia.
Qed.

End ReadReplies.

Lemma alive_map_alive g s :
  NoDup (od_keys (players g)) -> (s, true) ∈ _alive_map g -> is_alive g s = true.
Proof.
  intros Hnd Hin. unfold _alive_map in Hin.
  apply list_elem_of_fmap in Hin as ([k p] & [= -> Ha] & Hin). simpl in Ha.
  unfold is_alive. rewrite (elem_of_od_get _ _ _ Hnd Hin). symmetry. exact Ha.
Qed.

Lemma alive_in_alive_map g s : is_alive g s = true -> (s, true) ∈ _alive_map g.
Proof.
  unfold is_alive, _alive_map. intros Ha.
  destruct (od_get s (players g)) as [p|] eqn:Hp; [|discriminate].
  apply od_get_Some_elem_of in Hp.
  apply (list_elem_of_fmap_2 (fun sp => (fst sp, alive (snd sp)))) in Hp.
  simpl in Hp. rewrite Ha in Hp. exact Hp.
Qed.

Section RuleBasedFacts.
Context {U : Unicode} {E : Env}.

Lemma choice_elem rng0 l : l <> [] -> fst (RuleBasedSession.choice rng0 l) ∈ l.
Proof.
  intros Hl. unfold RuleBasedSession.choice.
  destruct (rng_choice rng0 (length l)) as [i rng']. simpl.
  apply list_elem_of_In, nth_In. apply Nat.mod_upper_bound.
  destruct l; [contradiction|discriminate].
Qed.

(** With another seat alive, the suspects are the alive seats but one's
    own. *)
Lemma suspects_alive g seat x :
  NoDup (od_keys (players g)) ->
  (exists s, s <> seat /\ is_alive g s = true) ->
  x ∈ RuleBasedSession.suspects seat (_alive_map g) ->
  x <> seat /\ is_alive g x = true.
Proof.
  intros Hnd (s & Hs & Ha) Hx. unfold RuleBasedSession.suspects in Hx.
  set (others := map fst (List.filter (fun sa : Z * bool => snd sa && negb (fst sa =? seat))
                            (_alive_map g))) in *.
  assert (Hin : s ∈ others).
  { subst others. apply (list_elem_of_fmap_2 fst _ (s, true)).
    apply list_elem_of_In, List.filter_In. split.
    - apply list_elem_of_In, alive_in_alive_map, Ha.
    - simpl. apply negb_true_iff, Z.eqb_neq, Hs. }
  destruct others as [|y l] eqn:Ho; [apply elem_of_nil in Hin; contradiction|].
  rewrite <- Ho in Hx. subst others.
  apply list_elem_of_fmap in Hx as ([k a] & -> & Hx). simpl.
  apply list_elem_of_In, List.filter_In in Hx as [Hx Hcond]. simpl in Hcond.
  apply andb_true_iff in Hcond as [-> Hne].
  apply negb_true_iff, Z.eqb_neq in Hne.
  split; [exact Hne|]. apply alive_map_alive; [exact Hnd|]. apply list_elem_of_In, Hx.
Qed.

End RuleBasedFacts.

(** X15.  The vote of a rule-based session, read by the game master.  With
    another seat alive, the session of [seat] votes for an alive seat other
    than its own, and its reply is the bare directive for that seat.  For a
    seat number up to 9 the game master stores exactly that vote; for a
    seat number of 10 or more it reads only the first digit, so the vote
    goes to another seat or to the fallback. *)
Theorem rule_based_vote_read {U : Unicode} {E : Env} (g : GameMaster) (seat rng0 : Z) :
  NoDup (od_keys (players g)) ->
  (exists s, s <> seat /\ is_alive g s = true) ->
  let '(reply, target, _) := RuleBasedSession._vote seat (_alive_map g) rng0 in
  reply = directive kw_vote target /\
  target <> seat /\ is_alive g target = true /\
  (0 <= target <= 9 -> resolve_vote g (Some reply) = Some target) /\
  (9 < target -> exists v, parse_vote (Some reply) = Some v /\ v <> target).
Proof.
  intros Hnd Hother. unfold RuleBasedSession._vote.
  pose proof (suspects_alive g seat) as Hsus.
  destruct Hother as (s & Hs & Ha).
  assert (Hne : RuleBasedSession.suspects seat (_alive_map g) <> []).
  { unfold RuleBasedSession.suspects.
    destruct (map fst (List.filter _ (_alive_map g))) as [|y l] eqn:Ho; [|discriminate].
    exfalso.
    assert (Hin : s ∈ map fst (List.filter
                     (fun sa : Z * bool => snd sa && negb (fst sa =? seat)) (_alive_map g))).
    { apply (list_elem_of_fmap_2 fst _ (s, true)).
      apply list_elem_of_In, List.filter_In. split.
      - apply list_elem_of_In, alive_in_alive_map, Ha.
      - simpl. apply negb_true_iff, Z.eqb_neq, Hs. }
    rewrite Ho in Hin. apply elem_of_nil in Hin. exact Hin. }
  pose proof (choice_elem rng0 _ Hne) as Hin.
  destruct (RuleBasedSession.suspects seat (_alive_map g)) as [|y l] eqn:Hsu;
    [contradiction|].
  destruct (RuleBasedSession.choice rng0 (y :: l)) as [target rng'] eqn:Hch.
  simpl in Hin.
  destruct (Hsus target Hnd (ex_intro _ s (conj Hs Ha)) Hin) as [Hself Halive].
  split; [reflexivity|]. split; [exact Hself|]. split; [exact Halive|].
  assert (Hparse : 0 <= target ->
            exists v, _parse_directive (bracketed kw_vote ++ [ZUO; WEI] ++ str_int target)
                        kw_vote = Some v /\ 0 <= v <= 9 /\ (target <= 9 -> v = target)).
  { intros H0.
    destruct (parse_directive_str_int [] kw_vote target []) as (v & Hv & Hr & Hsmall);
      [apply not_elem_of_nil|discriminate| |exact H0|].
    - apply (bool_decide_unpack (RQ ∉ kw_vote)). vm_compute. exact I.
    - simpl in Hv. rewrite app_nil_r in Hv. exists v. auto. }
  assert (Hvote : forall txt, parse_vote (Some (bracketed kw_vote ++ txt))
                              = _parse_directive (bracketed kw_vote ++ txt) kw_vote)
    by reflexivity.
  split.
  - intros [H0 H9]. destruct (Hparse H0) as (v & Hv & _ & Hsmall).
    specialize (Hsmall H9). subst v.
    unfold resolve_vote. cbv zeta. rewrite Hvote, Hv.
    unfold is_alive in Halive. destruct (od_get target (players g)) as [p|]; [|discriminate].
    rewrite Halive. reflexivity.
  - intros H9. destruct (Hparse ltac:(lia)) as (v & Hv & Hr & _).
    exists v. split; [|lia]. rewrite Hvote. exact Hv.
Qed.

(** The rule-based session of seat 3 at the start of the default match. *)
Lemma rule_based_vote_read_witness :
  let '(reply, target, _) :=
    @RuleBasedSession._vote env_demo 3 (_alive_map default_match) 0 in
  reply = directive kw_vote target /\
  target <> 3 /\ is_alive default_match target = true /\
  (0 <= target <= 9 ->
   @resolve_vote unicode_sample default_match (Some reply) = Some target) /\
  (9 < target -> exists v, @parse_vote unicode_sample (Some reply) = Some v /\ v <> target).
Proof.
  apply (@rule_based_vote_read unicode_sample env_demo default_match 3 0).
  - apply (bool_decide_unpack (NoDup (od_keys (players default_match)))).
    vm_compute. exact I.
  - exists 1. split; [lia|reflexivity].
Defined.

Section ReadWolves.
Context {U : Unicode} {E : Env}.

Lemma finditer_reply pre kw n post :
  LQ ∉ pre -> kw <> [] -> RQ ∉ kw -> 0 <= n <= 9 ->
  finditer (pre ++ bracketed kw ++ [ZUO; WEI] ++ str_int n ++ post)
  = {| m_action := kw; m_seat := 48 + n |} :: finditer post.
Proof.
  intros Hpre Hne Hnot Hn.
  destruct (str_int_digit n) as (c & more & -> & Hc & Hsmall); [lia|].
  destruct Hsmall as [-> ->]; [lia|].
  rewrite finditer_skip_prefix by exact Hpre.
  change (bracketed kw ++ [ZUO; WEI] ++ [48 + n] ++ post)
    with (bracketed kw ++ ZUO :: WEI :: (48 + n) :: post).
  apply finditer_directive; [assumption..|].
  rewrite digit_of_ascii by exact Hc. eauto.
Qed.

Lemma int_digit_ascii n : 0 <= n <= 9 -> int_digit (48 + n) = n.
Proof.
  intros Hn. unfold int_digit. rewrite digit_of_ascii by lia. simpl. lia.
Qed.

End ReadWolves.

(** X16.  The night reply of a rule-based wolf, read by the game master,
    all seat numbers being single digits.  The kill vote the game master
    reads is the seat the wolf chose: an alive seat other than its own if
    there is one (it may be a fellow wolf), its own seat otherwise.  The
    back-up it reads is another alive seat, neither the wolf's nor the
    target; there is none exactly when no such seat is alive. *)
Theorem rule_based_wolf_read {U : Unicode} {E : Env} (g : GameMaster) (wid rng0 : Z) :
  Forall (fun s => 0 <= s <= 9) (wid :: _alive_seats g) ->
  let reply := fst (RuleBasedSession._night_wolves wid (_alive_seats g) rng0) in
  exists target,
    _parse_directive reply kw_kill = Some target /\
    (if bool_decide (Exists (fun s => s <> wid) (_alive_seats g))
     then target ∈ _alive_seats g /\ target <> wid
     else target = wid) /\
    match _parse_directive reply kw_backup with
    | Some b => b ∈ _alive_seats g /\ b <> wid /\ b <> target
    | None => forall s, s ∈ _alive_seats g -> s = wid \/ s = target
    end.
Proof.
  intros Hdigits reply. subst reply. unfold RuleBasedSession._night_wolves.
  apply Forall_cons in Hdigits as [Hwid Hdigits]. rewrite Forall_forall in Hdigits.
  set (choices := List.filter (fun sid => negb (sid =? wid)) (_alive_seats g)).
  assert (Hchoices : forall x, x ∈ choices <-> x ∈ _alive_seats g /\ x <> wid).
  { intros x. subst choices. rewrite list_elem_of_In, List.filter_In, <- list_elem_of_In.
    rewrite negb_true_iff, Z.eqb_neq. reflexivity. }
  clearbody choices.
  assert (Hkill : RQ ∉ kw_kill)
    by (apply (bool_decide_unpack (RQ ∉ kw_kill)); vm_compute; exact I).
  assert (Hbackup : RQ ∉ kw_backup)
    by (apply (bool_decide_unpack (RQ ∉ kw_backup)); vm_compute; exact I).
  assert (Hpre : forall t, 0 <= t <= 9 ->
            LQ ∉ RuleBasedSession.wolf_pre ++ str_int t ++ RuleBasedSession.wolf_mid).
  { intros t Ht. rewrite !not_elem_of_app. split; [|split].
    - apply (bool_decide_unpack (LQ ∉ RuleBasedSession.wolf_pre)). vm_compute. exact I.
    - apply str_int_no_bracket, Ht.
    - apply (bool_decide_unpack (LQ ∉ RuleBasedSession.wolf_mid)). vm_compute. exact I. }
  assert (Hmsg : forall t post, 0 <= t <= 9 ->
            finditer ((RuleBasedSession.wolf_pre ++ str_int t ++ RuleBasedSession.wolf_mid
                       ++ bracketed kw_kill ++ [ZUO; WEI] ++ str_int t) ++ post)
            = {| m_action := kw_kill; m_seat := 48 + t |} :: finditer post).
  { intros t post Ht.
    rewrite <- (finditer_reply (RuleBasedSession.wolf_pre ++ str_int t
                                  ++ RuleBasedSession.wolf_mid) kw_kill t post);
      [|apply Hpre, Ht|discriminate|exact Hkill|exact Ht].
    f_equal. rewrite <- !app_assoc. reflexivity. }
  assert (Hnil : finditer [] = []) by (apply finditer_no_bracket, not_elem_of_nil).
  assert (Hread : forall t rng1,
            0 <= t <= 9 ->
            (forall x, x ∈ List.filter (fun sid => negb (sid =? t)) choices ->
                       0 <= x <= 9) ->
            let reply :=
              fst (let message := RuleBasedSession.wolf_pre ++ str_int t
                                    ++ RuleBasedSession.wolf_mid
                                    ++ bracketed kw_kill ++ [ZUO; WEI] ++ str_int t in
                   match List.filter (fun sid => negb (sid =? t)) choices with
                   | [] => (message, rng1)
                   | _ :: _ =>
                       let '(backup, rng2) :=
                         RuleBasedSession.choice rng1
                           (List.filter (fun sid => negb (sid =? t)) choices) in
                       (message ++ [10] ++ bracketed kw_backup ++ [ZUO; WEI]
                          ++ str_int backup, rng2)
                   end) in
            _parse_directive reply kw_kill = Some t /\
            match _parse_directive reply kw_backup with
            | Some b => b ∈ List.filter (fun sid => negb (sid =? t)) choices
            | None => List.filter (fun sid => negb (sid =? t)) choices = []
            end).
  { intros t rng1 Ht Halt. cbv zeta.
    destruct (List.filter (fun sid => negb (sid =? t)) choices) as [|y l] eqn:Hf.
    - cbn [fst]. unfold _parse_directive.
      pose proof (Hmsg t [] Ht) as Hm. rewrite app_nil_r in Hm. rewrite Hm, Hnil. simpl.
      rewrite int_digit_ascii by exact Ht. split; reflexivity.
    - pose proof (choice_elem rng1 (y :: l) ltac:(discriminate)) as Hin.
      destruct (RuleBasedSession.choice rng1 (y :: l)) as [b rng2]. simpl in Hin.
      cbn [fst]. unfold _parse_directive. rewrite Hmsg by exact Ht.
      rewrite <- (app_nil_r (str_int b)).
      rewrite (finditer_reply [10] kw_backup b []);
        [|apply (bool_decide_unpack (LQ ∉ [10])); vm_compute; exact I
         |discriminate|exact Hbackup|apply Halt, Hin].
      rewrite Hnil. simpl.
      rewrite int_digit_ascii by exact Ht. split; [reflexivity|].
      rewrite int_digit_ascii by (apply Halt, Hin). exact Hin. }
  assert (Halt : forall t x, x ∈ List.filter (fun sid => negb (sid =? t)) choices <->
                             x ∈ _alive_seats g /\ x <> wid /\ x <> t).
  { intros t x. rewrite list_elem_of_In, List.filter_In, <- list_elem_of_In.
    rewrite Hchoices, negb_true_iff, Z.eqb_neq. tauto. }
  assert (Hex : Exists (fun s => s <> wid) (_alive_seats g) <-> choices <> []).
  { rewrite Exists_exists. split.
    - intros (s & Hs & Hne) Hnil'. assert (Hin : s ∈ choices) by (apply Hchoices; auto).
      rewrite Hnil' in Hin. apply elem_of_nil in Hin. exact Hin.
    - intros Hne. destruct choices as [|y l]; [contradiction|].
      exists y. apply Hchoices. left. }
  destruct choices as [|y l] eqn:Hc.
  - destruct (Hread wid rng0 Hwid) as [Hk Hb].
    { intros x Hx. apply Halt in Hx as (Hx & _). apply Hdigits, Hx. }
    exists wid. split; [exact Hk|]. split.
    + rewrite bool_decide_eq_false_2; [reflexivity|]. rewrite Hex. auto.
    + simpl in Hb. simpl.
      destruct (_parse_directive _ kw_backup) as [b|]; [apply elem_of_nil in Hb; contradiction|].
      intros s Hs. destruct (Z.eq_dec s wid) as [->|Hne]; [auto|].
      exfalso. assert (Hin : s ∈ @nil Z) by (apply Hchoices; auto).
      apply elem_of_nil in Hin. exact Hin.
  - pose proof (choice_elem rng0 (y :: l) ltac:(discriminate)) as Hin.
    destruct (RuleBasedSession.choice rng0 (y :: l)) as [t rng1]. simpl in Hin.
    apply Hchoices in Hin as [Hin Hne].
    destruct (Hread t rng1 (Hdigits t Hin)) as [Hk Hb].
    { intros x Hx. apply Halt in Hx as (Hx & _). apply Hdigits, Hx. }
    exists t. split; [exact Hk|]. split.
    + rewrite bool_decide_eq_true_2; [auto|]. rewrite Hex. discriminate.
    + destruct (_parse_directive _ kw_backup) as [b|].
      * apply Halt in Hb. exact Hb.
      * intros s Hs. destruct (Z.eq_dec s wid) as [->|Hw]; [auto|].
        destruct (Z.eq_dec s t) as [->|Ht]; [auto|].
        exfalso. assert (Hin' : s ∈ List.filter (fun sid => negb (sid =? t)) (y :: l))
          by (apply Halt; auto).
        rewrite Hb in Hin'. apply elem_of_nil in Hin'. exact Hin'.
Qed.

(** The wolf of seat 1 on the first night of the default match. *)
Lemma rule_based_wolf_read_witness :
  let reply := fst (@RuleBasedSession._night_wolves env_demo 1
                      (_alive_seats default_match) 0) in
  exists target,
    @_parse_directive unicode_sample reply kw_kill = Some target /\
    (if bool_decide (Exists (fun s => s <> 1) (_alive_seats default_match))
     then target ∈ _alive_seats default_match /\ target <> 1
     else target = 1) /\
    match @_parse_directive unicode_sample reply kw_backup with
    | Some b => b ∈ _alive_seats default_match /\ b <> 1 /\ b <> target
    | None => forall s, s ∈ _alive_seats default_match -> s = 1 \/ s = target
    end.
Proof.
  apply (@rule_based_wolf_read unicode_sample env_demo default_match 1 0).
  apply (bool_decide_unpack
           (Forall (fun s => 0 <= s <= 9) (1 :: _alive_seats default_match))).
  vm_compute. exact I.
Defined.

Lemma startswith_app p s : startswith p (p ++ s) = true.
Proof.
  induction p as [|c p IH]; simpl; [destruct s; reflexivity|].
  rewrite Z.eqb_refl. exact IH.
Qed.

Lemma contains_prefix p s : contains p (p ++ s) = true.
Proof.
  destruct (p ++ s) as [|c t] eqn:Heq; simpl.
  - destruct p; [reflexivity|discriminate].
  - rewrite <- Heq, startswith_app. reflexivity.
Qed.

(** A text without the first character of a non-empty pattern does not
    contain the pattern. *)
Lemma contains_without_head c p s : c ∉ s -> contains (c :: p) s = false.
Proof.
  induction s as [|x s IH]; intros Hnot; [reflexivity|].
  apply not_elem_of_cons in Hnot as [Hx Hs]. simpl.
  rewrite IH by exact Hs. apply Z.eqb_neq in Hx. rewrite Hx. reflexivity.
Qed.

Section ReadWitch.
Context {U : Unicode} {E : Env}.

(** Without the heal the witch goes on to the poison. *)
Lemma witch_reply_without_heal seat killed poison_left alive_targets alive_map rng0 :
  RuleBasedSession._night_witch seat killed 0 poison_left alive_targets alive_map rng0
  = if negb (poison_left =? 0) then
      match match alive_targets with
            | [] => map fst (List.filter (fun sa => snd sa && negb (fst sa =? seat))
                               alive_map)
            | _ => alive_targets
            end with
      | [] => (RuleBasedSession.idle, rng0)
      | l =>
          let '(target, rng') := RuleBasedSession.choice rng0 l in
          (bracketed kw_poison ++ [ZUO; WEI] ++ str_int target
             ++ RuleBasedSession.poison_reason, rng')
      end
    else (RuleBasedSession.idle, rng0).
Proof.
  unfold RuleBasedSession._night_witch.
  destruct killed as [[|? ?]|[|? ?]]; destruct (negb (poison_left =? 0));
    destruct alive_targets; try reflexivity;
    destruct (map fst _); reflexivity.
Qed.

(** The handler of the rule-based witch on the metadata it is given, its
    reply read as the game master reads it: the text in place of the list
    of the killed, a list with one seat, no heal left, neither potion
    left. *)
Lemma witch_reply_read (seat heal_left poison_left rng0 : Z)
    (alive_targets : list Z) (alive_map : odict bool) :
  let reply killed h p :=
    fst (RuleBasedSession._night_witch seat killed h p alive_targets alive_map rng0) in
  (heal_left <> 0 -> digit_of 20170 = None ->
   let r := reply (RuleBasedSession.killed_text RuleBasedSession.no_kill_text)
                  heal_left poison_left in
   contains (bracketed kw_heal) r = true /\
   _parse_directive r kw_heal = None /\ _parse_directive r kw_poison = None) /\
  (forall k, heal_left <> 0 -> 0 <= k <= 9 ->
   let r := reply (RuleBasedSession.killed_seats [k]) heal_left poison_left in
   contains (bracketed kw_heal) r = true /\ _parse_directive r kw_heal = Some k) /\
  (forall killed, poison_left <> 0 -> alive_targets <> [] ->
   Forall (fun s => 0 <= s <= 9) alive_targets ->
   let r := reply killed 0 poison_left in
   contains (bracketed kw_heal) r = false /\
   contains (bracketed kw_poison) r = true /\
   exists t, _parse_directive r kw_poison = Some t /\ t ∈ alive_targets) /\
  (forall killed,
   let r := reply killed 0 0 in
   r = RuleBasedSession.idle /\
   contains (bracketed kw_heal) r = false /\ contains (bracketed kw_poison) r = false).
Proof.
  intros reply.
  assert (Hheal : RQ ∉ kw_heal)
    by (apply (bool_decide_unpack (RQ ∉ kw_heal)); vm_compute; exact I).
  assert (Hpoison : RQ ∉ kw_poison)
    by (apply (bool_decide_unpack (RQ ∉ kw_poison)); vm_compute; exact I).
  split; [|split; [|split]].
  - intros Hh Hdigit r. subst r reply. unfold RuleBasedSession._night_witch.
    cbn [RuleBasedSession.no_kill_text]. apply Z.eqb_neq in Hh. rewrite Hh.
    cbn [negb fst].
    split; [apply contains_prefix|].
    assert (Hfind : finditer (bracketed kw_heal ++ [ZUO; WEI] ++ [20170]
                                ++ RuleBasedSession.heal_reason) = []).
    { change (bracketed kw_heal ++ [ZUO; WEI] ++ [20170] ++ RuleBasedSession.heal_reason)
        with (LQ :: (kw_heal ++ RQ :: ZUO :: WEI :: 20170 :: RuleBasedSession.heal_reason)).
      rewrite finditer_cons_no_match.
      - apply finditer_no_bracket.
        apply (bool_decide_unpack
                 (LQ ∉ kw_heal ++ RQ :: ZUO :: WEI :: 20170 :: RuleBasedSession.heal_reason)).
        vm_compute. exact I.
      - unfold match_here. rewrite Z.eqb_refl.
        rewrite span_action_keyword by exact Hheal. cbn [kw_heal].
        rewrite !Z.eqb_refl, Hdigit. reflexivity. }
    unfold _parse_directive. rewrite Hfind. split; reflexivity.
  - intros k Hh Hk r. subst r reply. unfold RuleBasedSession._night_witch.
    apply Z.eqb_neq in Hh. rewrite Hh. cbn [negb fst].
    split; [apply contains_prefix|].
    destruct (parse_directive_str_int [] kw_heal k RuleBasedSession.heal_reason)
      as (v & Hv & _ & Hsmall);
      [apply not_elem_of_nil|discriminate|exact Hheal|lia|].
    rewrite (Hsmall (proj2 Hk)) in Hv. exact Hv.
  - intros killed Hp Hne Hdigits r. subst r reply. cbv beta.
    rewrite witch_reply_without_heal.
    apply Z.eqb_neq in Hp. rewrite Hp. cbn [negb].
    destruct alive_targets as [|a l] eqn:Hat; [contradiction|]. rewrite <- Hat in *.
    replace (match alive_targets with
             | [] => map fst (List.filter (fun sa => snd sa && negb (fst sa =? seat))
                                alive_map)
             | _ :: _ => alive_targets
             end) with alive_targets by (rewrite Hat; reflexivity).
    rewrite Hat at 1. rewrite <- Hat.
    pose proof (choice_elem rng0 alive_targets Hne) as Hin.
    destruct (RuleBasedSession.choice rng0 alive_targets) as [t rng']. simpl in Hin.
    cbn [fst]. rewrite Forall_forall in Hdigits. pose proof (Hdigits t Hin) as Ht.
    split; [|split; [apply contains_prefix|]].
    + destruct (str_int_digit t) as (c & more & Hstr & Hc & Hsmall); [lia|].
      destruct Hsmall as [-> ->]; [lia|]. rewrite Hstr.
      change (bracketed kw_poison ++ [ZUO; WEI] ++ [48 + t] ++ RuleBasedSession.poison_reason)
        with (LQ :: (kw_poison ++ [RQ]) ++ ZUO :: WEI :: (48 + t)
                :: RuleBasedSession.poison_reason).
      unfold bracketed.
      change (contains (LQ :: kw_heal ++ [RQ])
                (LQ :: (kw_poison ++ [RQ]) ++ ZUO :: WEI :: (48 + t)
                   :: RuleBasedSession.poison_reason))
        with (startswith (LQ :: kw_heal ++ [RQ])
                (LQ :: (kw_poison ++ [RQ]) ++ ZUO :: WEI :: (48 + t)
                   :: RuleBasedSession.poison_reason)
              || contains (LQ :: kw_heal ++ [RQ])
                   ((kw_poison ++ [RQ]) ++ ZUO :: WEI :: (48 + t)
                      :: RuleBasedSession.poison_reason)).
      rewrite contains_without_head; [reflexivity|].
      rewrite not_elem_of_app. split.
      * apply (bool_decide_unpack (LQ ∉ kw_poison ++ [RQ])). vm_compute. exact I.
      * rewrite !not_elem_of_cons. unfold LQ, ZUO, WEI.
        split; [lia|]. split; [lia|]. split; [lia|].
        apply (bool_decide_unpack (12304 ∉ RuleBasedSession.poison_reason)).
        vm_compute. exact I.
    + destruct (parse_directive_str_int [] kw_poison t RuleBasedSession.poison_reason)
        as (v & Hv & _ & Hsmall);
        [apply not_elem_of_nil|discriminate|exact Hpoison|lia|].
      rewrite (Hsmall (proj2 Ht)) in Hv. exists t. split; [exact Hv|exact Hin].
  - intros killed r. subst r reply. cbv beta. rewrite witch_reply_without_heal.
    cbn [Z.eqb negb fst]. split; [reflexivity|]. split; vm_compute; reflexivity.
Qed.

(** An alive seat is among the alive seats. *)
Lemma is_alive_alive_seats g s : is_alive g s = true -> s ∈ _alive_seats g.
Proof.
  unfold is_alive, _alive_seats. intros Hs.
  destruct (od_get s (players g)) as [p|] eqn:Hp; [|discriminate].
  apply od_get_Some_elem_of in Hp.
  apply (list_elem_of_fmap_2 fst _ (s, p)).
  apply list_elem_of_In, List.filter_In. split; [apply list_elem_of_In; exact Hp|exact Hs].
Qed.

(** X17.  The night reply of the rule-based witch to what the game master
    sends her in state [g], read as the game master reads it.  The list
    of the killed that is sent holds the kill target of the night; when
    there is no night outcome, no kill target, or the kill target is 0,
    the text 今晚无人被锁定 is sent in its place.
    (1) With the text sent and her heal left, the witch takes the first
    character of the text for the victim and answers 【救人】座位今: the
    game master finds the heal keyword and no target, and the poison is
    not considered.
    (2) With a kill target [k] from 1 to 9 and her heal left she heals
    [k], whoever that is.
    (3) Without the heal and with the poison left, an alive witch poisons
    one of the alive seats (all of them single digits); her own seat is
    not excluded.
    (4) With neither left she passes, and the game master finds neither
    keyword. *)
Theorem rule_based_witch_read (g : GameMaster) (witch_seat rng0 : Z) :
  let r := fst (night_witch_reply g witch_seat rng0) in
  ((forall o, _night_outcome g = Some o ->
      kill_target o = None \/ kill_target o = Some 0) ->
   heal_of g witch_seat <> 0 -> digit_of 20170 = None ->
   killed_list_sent g = RuleBasedSession.killed_text RuleBasedSession.no_kill_text /\
   contains (bracketed kw_heal) r = true /\
   _parse_directive r kw_heal = None /\ _parse_directive r kw_poison = None) /\
  (forall o k,
     _night_outcome g = Some o -> kill_target o = Some k -> 1 <= k <= 9 ->
     heal_of g witch_seat <> 0 ->
     killed_list_sent g = RuleBasedSession.killed_seats [k] /\
     contains (bracketed kw_heal) r = true /\ _parse_directive r kw_heal = Some k) /\
  (heal_of g witch_seat = 0 -> poison_of g witch_seat <> 0 ->
   is_alive g witch_seat = true -> Forall (fun s => 0 <= s <= 9) (_alive_seats g) ->
   contains (bracketed kw_heal) r = false /\
   contains (bracketed kw_poison) r = true /\
   exists t, _parse_directive r kw_poison = Some t /\ t ∈ _alive_seats g) /\
  (heal_of g witch_seat = 0 -> poison_of g witch_seat = 0 ->
   r = RuleBasedSession.idle /\
   contains (bracketed kw_heal) r = false /\ contains (bracketed kw_poison) r = false).
Proof.
  intros r. subst r. unfold night_witch_reply.
  destruct (witch_reply_read witch_seat (heal_of g witch_seat) (poison_of g witch_seat)
              rng0 (_alive_seats g) (_alive_map g)) as (Htext & Hseat & Hpoison & Hidle).
  cbv beta zeta in Htext, Hseat, Hpoison, Hidle.
  split; [|split; [|split]].
  - intros Hnone Hheal Hdigit.
    assert (Hsent : killed_list_sent g
                    = RuleBasedSession.killed_text RuleBasedSession.no_kill_text).
    { unfold killed_list_sent. destruct (_night_outcome g) as [o|]; [|reflexivity].
      destruct (Hnone o eq_refl) as [-> | ->]; reflexivity. }
    split; [exact Hsent|]. rewrite Hsent. apply Htext; assumption.
  - intros o k Ho Hk Hrange Hheal.
    assert (Hsent : killed_list_sent g = RuleBasedSession.killed_seats [k]).
    { unfold killed_list_sent. rewrite Ho, Hk. destruct k; [lia|reflexivity|lia]. }
    split; [exact Hsent|]. rewrite Hsent. apply Hseat; [exact Hheal|lia].
  - intros Hheal Hleft Halive Hdigits. rewrite Hheal.
    destruct (Hpoison (killed_list_sent g) Hleft) as (Hno & Hyes & t & Ht & Hin);
      [intros Hnil; apply is_alive_alive_seats in Halive; rewrite Hnil in Halive;
       apply elem_of_nil in Halive; exact Halive
      |exact Hdigits|].
    split; [exact Hno|]. split; [exact Hyes|]. exists t. split; [exact Ht|exact Hin].
  - intros Hheal Hleft. rewrite Hheal, Hleft. apply Hidle.
Qed.

End ReadWitch.

(** The witch of the default match, seat 3, both potions left.  On a
    night on which the wolves settled on seat 4 she heals seat 4; on a
    night on which they settled on seat 0 she is sent the text and the
    game master reads no target. *)
Lemma rule_based_witch_read_witness :
  let night k := set_night_outcome (Some {| kill_target := Some k;
                                            healed_target := None;
                                            poisoned_target := None |}) default_match in
  (let r := fst (@night_witch_reply env_demo (night 4) 3 0) in
   killed_list_sent (night 4) = RuleBasedSession.killed_seats [4] /\
   contains (bracketed kw_heal) r = true /\
   @_parse_directive unicode_sample r kw_heal = Some 4) /\
  (let r := fst (@night_witch_reply env_demo (night 0) 3 0) in
   killed_list_sent (night 0)
   = RuleBasedSession.killed_text RuleBasedSession.no_kill_text /\
   contains (bracketed kw_heal) r = true /\
   @_parse_directive unicode_sample r kw_heal = None /\
   @_parse_directive unicode_sample r kw_poison = None).
Proof.
  intros night. split.
  - apply (proj1 (proj2 (@rule_based_witch_read unicode_sample env_demo (night 4) 3 0))
             {| kill_target := Some 4; healed_target := None; poisoned_target := None |} 4);
      [reflexivity|reflexivity|lia|vm_compute; discriminate].
  - apply (proj1 (@rule_based_witch_read unicode_sample env_demo (night 0) 3 0));
      [intros o Ho; injection Ho as <-; right; reflexivity
      |vm_compute; discriminate|reflexivity].
Defined.

Lemma alive_map_alive_seats g :
  map fst (List.filter (fun sa : Z * bool => snd sa) (_alive_map g)) = _alive_seats g.
Proof.
  unfold _alive_map, _alive_seats. induction (players g) as [|[k p] d IH]; [reflexivity|].
  simpl. destruct (alive p); simpl; rewrite IH; reflexivity.
Qed.

Section ReadHunter.
Context {U : Unicode} {E : Env}.

(** The reply of the rule-based hunter while somebody is alive: a shot
    at an alive seat, which the game master reads as such. *)
Lemma hunter_reply_read g rng0 :
  NoDup (od_keys (players g)) ->
  Forall (fun s => 0 <= s <= 9) (_alive_seats g) ->
  _alive_seats g <> [] ->
  exists target rest,
    fst (RuleBasedSession._hunter_trigger (_alive_map g) rng0) = LQ :: rest /\
    contains (bracketed kw_shoot) (LQ :: rest) = true /\
    _parse_directive (LQ :: rest) kw_shoot = Some target /\
    is_alive g target = true.
Proof.
  intros Hnd Hdigits Hne. unfold RuleBasedSession._hunter_trigger.
  rewrite alive_map_alive_seats.
  pose proof (choice_elem rng0 (_alive_seats g) Hne) as Hin.
  destruct (_alive_seats g) as [|y l] eqn:Hal; [contradiction|]. rewrite <- Hal in *.
  destruct (RuleBasedSession.choice rng0 (_alive_seats g)) as [t rng']. simpl in Hin.
  cbn [fst]. rewrite Forall_forall in Hdigits. pose proof (Hdigits t Hin) as Ht.
  exists t, ((kw_shoot ++ [RQ]) ++ [ZUO; WEI] ++ str_int t
               ++ RuleBasedSession.shoot_reason).
  split; [reflexivity|].
  change (LQ :: (kw_shoot ++ [RQ]) ++ [ZUO; WEI] ++ str_int t
            ++ RuleBasedSession.shoot_reason)
    with (bracketed kw_shoot ++ [ZUO; WEI] ++ str_int t ++ RuleBasedSession.shoot_reason).
  split; [apply contains_prefix|]. split.
  - destruct (parse_directive_str_int [] kw_shoot t RuleBasedSession.shoot_reason)
      as (v & Hv & _ & Hsmall);
      [apply not_elem_of_nil|discriminate| |lia|].
    + apply (bool_decide_unpack (RQ ∉ kw_shoot)). vm_compute. exact I.
    + rewrite (Hsmall (proj2 Ht)) in Hv. exact Hv.
  - rewrite (alive_seats_filter_keys g Hnd) in Hin.
    apply list_elem_of_In, List.filter_In in Hin as [_ Hin]. exact Hin.
Qed.

(** X18.  The rule-based hunter, triggered by the game master (all seat
    numbers being single digits).  A dead hunter who has not shot and whose
    session answers as [RuleBasedSession] does: while any seat is alive the
    session shoots, the game master reads the shot and exactly one alive
    seat dies with the hunter, whatever its role; with nobody alive the
    session passes and nobody's state changes.  Either way the shot is
    used up. *)
Theorem rule_based_hunter_shoots (g : GameMaster) (seat rng_s : Z) (cause : Cause)
    (player : PlayerState) :
  NoDup (od_keys (players g)) ->
  Forall (fun s => 0 <= s <= 9) (_alive_seats g) ->
  od_get seat (players g) = Some player ->
  role player = HUNTER -> hunter_has_shot player = false -> alive player = false ->
  fst (interact (_log g) seat stage_hunter_trigger true (rng g))
  = Some (fst (RuleBasedSession._hunter_trigger (_alive_map g) rng_s)) ->
  exists g',
    _trigger_hunter_if_needed seat cause g = Ret tt g' /\
    has_shot g' seat = true /\
    if bool_decide (_alive_seats g = []) then forall s, is_alive g' s = is_alive g s
    else exists target,
           is_alive g target = true /\
           forall s, is_alive g' s = is_alive g s && negb (s =? target).
Proof.
  intros Hnd Hdigits Hp Hrole Hflag Hdead Hreply.
  rewrite trigger_hunter_unfold, Hp, Hrole, Hflag. cbn [Role_eqb negb orb].
  destruct (send_stage_returns seat stage_hunter_trigger true g)
    as (response & g1 & -> & Hpl & _ & _ & Hresp).
  rewrite Hreply in Hresp. subst response.
  assert (Hp1 : od_get seat (players g1) = Some player) by (rewrite Hpl; exact Hp).
  destruct (decide (_alive_seats g = [])) as [Hnone|Hsome].
  - rewrite bool_decide_eq_true_2 by exact Hnone.
    unfold RuleBasedSession._hunter_trigger. rewrite alive_map_alive_seats, Hnone.
    cbn [fst RuleBasedSession.no_shoot].
    replace (contains (bracketed kw_shoot) _) with false by (vm_compute; reflexivity).
    erewrite player_setattr_present by (simpl; exact Hp1).
    eexists. split; [reflexivity|]. unfold has_shot, is_alive. simpl.
    rewrite od_get_od_set, Z.eqb_refl. split; [reflexivity|].
    intros s. rewrite od_get_od_set, Hpl.
    destruct (s =? seat) eqn:Hs; [|reflexivity].
    apply Z.eqb_eq in Hs. subst s. rewrite Hp. reflexivity.
  - rewrite bool_decide_eq_false_2 by exact Hsome.
    destruct (hunter_reply_read g rng_s Hnd Hdigits Hsome)
      as (target & rest & -> & -> & -> & Halive).
    unfold is_alive in Halive. rewrite Hpl.
    destruct (od_get target (players g)) as [pt|] eqn:Ht; [|discriminate].
    rewrite Halive.
    assert (Hne : seat <> target).
    { intros ->. rewrite Hp in Ht. injection Ht as <-. congruence. }
    erewrite player_setattr_present
      by (simpl; rewrite od_get_od_set, (proj2 (Z.eqb_neq seat target) Hne), ?Hpl; exact Hp).
    eexists. split; [reflexivity|]. unfold has_shot. simpl.
    rewrite od_get_od_set, Z.eqb_refl. split; [reflexivity|].
    exists target. unfold is_alive. rewrite Ht. split; [exact Halive|].
    intros s. simpl. rewrite !od_get_od_set, ?Hpl.
    destruct (s =? seat) eqn:Hs.
    + apply Z.eqb_eq in Hs. subst s.
      rewrite (proj2 (Z.eqb_neq seat target) Hne), Hp. simpl. rewrite Hdead. reflexivity.
    + destruct (s =? target) eqn:Hst.
      * apply Z.eqb_eq in Hst. subst s. rewrite Ht, Halive. reflexivity.
      * rewrite andb_true_r. reflexivity.
Qed.

End ReadHunter.

(** The lynched hunter of seat 4, with a rule-based session: one of the
    five others dies with the hunter. *)
Lemma rule_based_hunter_shoots_witness :
  exists g',
    @_trigger_hunter_if_needed unicode_sample (env_scripted script_rule_based_hunter)
      4 cause_lynch hunter_lynched_match = Ret tt g' /\
    has_shot g' 4 = true /\
    exists target,
      is_alive hunter_lynched_match target = true /\
      forall s, is_alive g' s = is_alive hunter_lynched_match s && negb (s =? target).
Proof.
  assert (Hp : exists player, od_get 4 (players hunter_lynched_match) = Some player /\
                              role player = HUNTER /\ hunter_has_shot player = false /\
                              alive player = false).
  { vm_compute. eexists. repeat split. }
  destruct Hp as (player & Hp & Hrole & Hflag & Hdead).
  assert (Hnd : NoDup (od_keys (players hunter_lynched_match))).
  { apply (bool_decide_unpack (NoDup (od_keys (players hunter_lynched_match)))).
    vm_compute. exact I. }
  assert (Hdigits : Forall (fun s => 0 <= s <= 9) (_alive_seats hunter_lynched_match)).
  { apply (bool_decide_unpack
             (Forall (fun s => 0 <= s <= 9) (_alive_seats hunter_lynched_match))).
    vm_compute. exact I. }
  destruct (@rule_based_hunter_shoots unicode_sample (env_scripted script_rule_based_hunter)
              hunter_lynched_match 4 0 cause_lynch player
              Hnd Hdigits Hp Hrole Hflag Hdead eq_refl)
    as (g' & Hret & Hshot & Hcase).
  rewrite bool_decide_eq_false_2 in Hcase by (vm_compute; discriminate).
  exists g'. split; [exact Hret|]. split; [exact Hshot|exact Hcase].
Defined.

Section ReadLifeCheck.
Context {U : Unicode} {E : Env}.

Lemma lstrip_elem x s : x ∈ lstrip s -> x ∈ s.
Proof.
  induction s as [|c s IH]; simpl; [auto|].
  destruct (isspace c); [intros H; right; apply IH, H|auto].
Qed.

Lemma strip_elem x s : x ∈ strip s -> x ∈ s.
Proof.
  unfold strip. intros H. apply list_elem_of_In, in_rev, list_elem_of_In in H.
  apply lstrip_elem in H. apply list_elem_of_In, in_rev, list_elem_of_In in H.
  apply lstrip_elem, H.
Qed.

(** X19.  The life check of a rule-based session, read by the game
    master: the session answers [[SKIP]] exactly when it is told its
    player is dead, and the test the game master applies to the reply
    ([response.strip() == "[SKIP]"]) holds exactly then, the two brackets
    not being white space. *)
Theorem rule_based_life_check (is_alive : bool) :
  isspace 91 = false -> isspace 93 = false ->
  is_skip (Some (RuleBasedSession._life_check is_alive)) = negb is_alive.
Proof.
  intros Hopen Hclose. unfold RuleBasedSession._life_check, is_skip.
  destruct is_alive; cbn [negb].
  - apply andb_false_iff. right. apply bool_decide_eq_false_2. intros Heq.
    assert (Hin : 91 ∈ strip RuleBasedSession.ack) by (rewrite Heq; left).
    apply strip_elem in Hin. revert Hin.
    apply (bool_decide_unpack (91 ∉ RuleBasedSession.ack)). vm_compute. exact I.
  - apply andb_true_iff. split; [reflexivity|]. apply bool_decide_eq_true_2.
    unfold strip, SKIP. cbn [lstrip]. rewrite Hopen. cbn [rev app lstrip].
    rewrite Hclose. reflexivity.
Qed.

End ReadLifeCheck.

Lemma rule_based_life_check_witness :
  @is_skip unicode_sample (Some (RuleBasedSession._life_check false)) = true.
Proof.
  apply (@rule_based_life_check unicode_sample false); reflexivity.
Defined.

(** ** The verdict of a match *)

#[local] Instance keeps_result_preorder : PreOrder keeps_result.
Proof.
  split; [intros g; reflexivity|].
  intros g1 g2 g3 H12 H23. unfold keeps_result in *. congruence.
Qed.

Section Verdict.
Context {U : Unicode} {E : Env}.

Lemma result_send_stage seat stage expect :
  preserves keeps_result (_send_stage seat stage expect).
Proof. intros g. unfold _send_stage. destruct (interact _ _ _ _ _). reflexivity. Qed.

Lemma result_modify f :
  (forall g, _result (f g) = _result g) -> preserves keeps_result (modify f).
Proof. intros Hf. apply preserves_modify. exact Hf. Qed.

Lemma result_rng_pick l : preserves keeps_result (rng_pick l).
Proof. intros g. unfold rng_pick. destruct (rng_choice _ _). reflexivity. Qed.

Ltac result :=
  preserves_steps;
  first [ apply result_send_stage | apply result_rng_pick
        | apply result_modify; reflexivity
        | solve [auto] ].

Lemma result_player_setattr seat f : preserves keeps_result (player_setattr seat f).
Proof. unfold player_setattr. result. Qed.

Lemma result_outcome_setattr f : preserves keeps_result (outcome_setattr f).
Proof. unfold outcome_setattr. result. Qed.

Lemma result_trigger_hunter seat cause :
  preserves keeps_result (_trigger_hunter_if_needed seat cause).
Proof.
  pose proof result_player_setattr.
  unfold _trigger_hunter_if_needed, print, on_chronicle. result.
Qed.

(** Only [_is_finished] writes [_result]: the three phases leave it. *)
Lemma result_night_phase : preserves keeps_result _night_phase.
Proof.
  pose proof result_player_setattr. pose proof result_outcome_setattr.
  unfold _night_phase, _night_wolves, _night_witch, wolf_turn, wolves_tally,
    mutate_potions, store_potions, send_briefing, log_event, on_chronicle.
  result.
Qed.

Lemma result_daybreak : preserves keeps_result _daybreak.
Proof.
  pose proof result_player_setattr. pose proof result_trigger_hunter.
  unfold _daybreak, _resolve_deaths, print, on_chronicle. result.
Qed.

Lemma result_day_phase : preserves keeps_result _day_phase.
Proof.
  pose proof result_player_setattr. pose proof result_trigger_hunter.
  unfold _day_phase, _voting, talk_turn, vote_turn, send_briefing, print, on_chronicle.
  result.
Qed.

Lemma is_finished_board g :
  (board_verdict g <> ongoing /\
   _is_finished g = Ret true (set_result (board_verdict g) g)) \/
  (board_verdict g = ongoing /\ _is_finished g = Ret false g).
Proof.
  rewrite is_finished_unfold. unfold board_verdict.
  destruct (wolves_alive_count g =? 0); [left; split; [discriminate|reflexivity]|].
  destruct (villagers_alive_count g <=? wolves_alive_count g);
    [left; split; [discriminate|reflexivity]|right; split; reflexivity].
Qed.

Lemma run_rounds_verdict n : forall g,
  max_rounds (config g) - round_no g + 1 <= Z.of_nat n ->
  _result g = ongoing ->
  exists g',
    run_rounds n g = Ret tt g' /\ config g' = config g /\
    _result g' = board_verdict g' /\
    (_result g' = ongoing -> max_rounds (config g') < round_no g').
Proof.
  assert (Hstop : forall g0 g : GameMaster,
            config g = config g0 -> board_verdict g <> ongoing ->
            exists g',
              Ret tt (set_result (board_verdict g) g) = Ret tt g' /\
              config g' = config g0 /\ _result g' = board_verdict g' /\
              (_result g' = ongoing -> max_rounds (config g') < round_no g')).
  { intros g0 g Hc Hv. eexists. split; [reflexivity|]. split; [exact Hc|].
    split; [reflexivity|]. simpl. intros H. contradiction. }
  induction n as [|n IH]; intros g Hbound Hres.
  - simpl. unfold bind at 1.
    destruct (is_finished_board g) as [[Hv ->] | [Hv ->]]; unfold bind, get; simpl.
    + apply (Hstop g g eq_refl Hv).
    + destruct (max_rounds (config g) <? round_no g) eqn:Hmax.
      * apply Z.ltb_lt in Hmax. exists g. split; [reflexivity|]. split; [reflexivity|].
        split; [congruence|]. intros _. exact Hmax.
      * apply Z.ltb_ge in Hmax. simpl in Hbound. lia.
  - cbn [run_rounds]. unfold bind at 1.
    destruct (is_finished_board g) as [[Hv ->] | [Hv ->]]; unfold bind at 1, get at 1.
    { apply (Hstop g g eq_refl Hv). }
    cbn [orb]. destruct (max_rounds (config g) <? round_no g) eqn:Hmax.
    { apply Z.ltb_lt in Hmax. exists g. split; [reflexivity|]. split; [reflexivity|].
      split; [congruence|]. intros _. exact Hmax. }
    apply Z.ltb_ge in Hmax.
    destruct (night_phase_returns g) as (g1 & Hnight).
    pose proof (preserves_Ret _ _ _ _ _ round_night_phase Hnight) as [Hr1 Hc1].
    pose proof (preserves_Ret _ _ _ _ _ result_night_phase Hnight) as Hs1.
    unfold bind at 1. rewrite Hnight. unfold bind at 1.
    destruct (is_finished_board g1) as [[Hv1 ->] | [Hv1 ->]].
    { apply (Hstop g g1 Hc1 Hv1). }
    destruct (daybreak_returns g1) as (g2 & Hday).
    pose proof (preserves_Ret _ _ _ _ _ round_daybreak Hday) as [Hr2 Hc2].
    pose proof (preserves_Ret _ _ _ _ _ result_daybreak Hday) as Hs2.
    unfold bind at 1. rewrite Hday. unfold bind at 1.
    destruct (is_finished_board g2) as [[Hv2 ->] | [Hv2 ->]].
    { apply (Hstop g g2); [congruence|exact Hv2]. }
    destruct (day_phase_returns g2) as (g3 & Hphase).
    pose proof (preserves_Ret _ _ _ _ _ round_day_phase Hphase) as [Hr3 Hc3].
    pose proof (preserves_Ret _ _ _ _ _ result_day_phase Hphase) as Hs3.
    unfold bind at 1. rewrite Hphase. unfold bind at 1, modify at 1.
    destruct (IH (set_round_no (round_no g3 + 1) g3)) as (g' & Hrest & Hc' & Hend).
    { simpl. rewrite Hc3, Hc2, Hc1, Hr3, Hr2, Hr1. lia. }
    { simpl. unfold keeps_result in *. congruence. }
    exists g'. split; [exact Hrest|]. split; [|exact Hend].
    rewrite Hc'. simpl. congruence.
Qed.

(** X20.  A match run from a state whose result is still ['ongoing']:
    [run_game] returns, and the result it leaves is the one the final
    board calls for: the villagers' win when no wolf is alive, the
    wolves' win when the alive wolves are at least as many as the others,
    and ['ongoing'] otherwise, which happens only once the round number
    is past [max_rounds]. *)
Theorem verdict_matches_board g :
  _result g = ongoing ->
  exists g',
    run_game g = Ret tt g' /\
    _result g' = board_verdict g' /\
    (_result g' = ongoing -> max_rounds (config g') < round_no g').
Proof.
  intros Hres. unfold run_game. unfold bind at 1, print at 1, modify at 1.
  unfold bind at 1, get at 1. unfold bind at 1.
  set (g0 := set_stdout _ g).
  destruct (run_rounds_verdict (Z.to_nat (max_rounds (config g0) - round_no g0 + 1)) g0)
    as (g1 & -> & Hc & Hv & Hend); [lia|exact Hres|].
  destruct (postgame_returns g1) as (g' & -> & (Hpl & _ & Hr & _ & _ & Hc' & Hres')).
  exists g'. split; [reflexivity|].
  assert (Hboard : board_verdict g' = board_verdict g1).
  { unfold board_verdict, wolves_alive_count, villagers_alive_count. rewrite Hpl.
    reflexivity. }
  rewrite Hboard, Hres', Hc', Hr. split; [exact Hv|exact Hend].
Qed.

End Verdict.

(** The default match, its agents never answering. *)
Lemma verdict_matches_board_witness :
  exists g',
    @run_game unicode_sample env_silent default_match = Ret tt g' /\
    _result g' = board_verdict g' /\
    (_result g' = ongoing -> max_rounds (config g') < round_no g').
Proof.
  apply (@verdict_matches_board unicode_sample env_silent default_match). reflexivity.
Defined.

(** ** A new game master *)

(** [trust.setdefault(sid, 50)] over the seats: what was there stays, the
    other seats get 50. *)
Lemma trust_setdefault seats : forall (t : odict Z) s,
  od_get s (fold_left (fun t sid => match od_get sid t with
                                    | Some _ => t
                                    | None => od_set sid 50 t
                                    end) seats t)
  = match od_get s t with
    | Some v => Some v
    | None => if bool_decide (s ∈ seats) then Some 50 else None
    end.
Proof.
  induction seats as [|sid seats IH]; intros t s; simpl.
  - destruct (od_get s t); reflexivity.
  - rewrite IH. destruct (od_get sid t) as [v|] eqn:Hsid.
    + destruct (od_get s t) as [w|] eqn:Hs; [reflexivity|].
      destruct (decide (s = sid)) as [->|Hne]; [congruence|].
      rewrite (bool_decide_ext (s ∈ sid :: seats) (s ∈ seats)); [reflexivity|].
      rewrite elem_of_cons. tauto.
    + rewrite od_get_od_set. destruct (s =? sid) eqn:Heq.
      * apply Z.eqb_eq in Heq. subst s. rewrite Hsid.
        rewrite bool_decide_eq_true_2 by left. reflexivity.
      * apply Z.eqb_neq in Heq. destruct (od_get s t); [reflexivity|].
        rewrite (bool_decide_ext (s ∈ sid :: seats) (s ∈ seats)); [reflexivity|].
        rewrite elem_of_cons. tauto.
Qed.

Lemma initialise_players_get seats wolf_ids plan : forall g sc,
  NoDup (map sc_seat_id plan) -> sc ∈ plan ->
  let g' := fold_left (fun g seat =>
                         set_day_spoken (od_set (sc_seat_id seat) false (_day_spoken g))
                           (set_players (od_set (sc_seat_id seat)
                                           (initial_player seats wolf_ids seat)
                                           (players g)) g))
                      plan g in
  od_get (sc_seat_id sc) (players g') = Some (initial_player seats wolf_ids sc) /\
  od_get (sc_seat_id sc) (_day_spoken g') = Some false.
Proof.
  assert (Hkeep : forall plan g k,
            k ∉ map sc_seat_id plan ->
            let g' := fold_left (fun g seat =>
                         set_day_spoken (od_set (sc_seat_id seat) false (_day_spoken g))
                           (set_players (od_set (sc_seat_id seat)
                                           (initial_player seats wolf_ids seat)
                                           (players g)) g))
                      plan g in
            od_get k (players g') = od_get k (players g) /\
            od_get k (_day_spoken g') = od_get k (_day_spoken g)).
  { clear plan. induction plan as [|seat plan IH]; intros g k Hk; simpl; [auto|].
    simpl in Hk. apply not_elem_of_cons in Hk as [Hne Hk].
    destruct (IH (set_day_spoken (od_set (sc_seat_id seat) false (_day_spoken g))
                    (set_players (od_set (sc_seat_id seat)
                                    (initial_player seats wolf_ids seat) (players g)) g))
                 k Hk) as [-> ->].
    simpl. rewrite !od_get_od_set. apply Z.eqb_neq in Hne. rewrite Hne. auto. }
  induction plan as [|seat plan IH]; intros g sc Hnd Hin; simpl.
  - apply elem_of_nil in Hin. contradiction.
  - simpl in Hnd. apply NoDup_cons in Hnd as [Hnot Hnd].
    apply elem_of_cons in Hin as [->|Hin].
    + destruct (Hkeep plan
                  (set_day_spoken (od_set (sc_seat_id seat) false (_day_spoken g))
                     (set_players (od_set (sc_seat_id seat)
                                     (initial_player seats wolf_ids seat) (players g)) g))
                  (sc_seat_id seat) Hnot) as [-> ->].
      simpl. rewrite !od_get_od_set, Z.eqb_refl. auto.
    + apply IH; assumption.
Qed.

(** X21.  [GameMaster(config, ...)] for a seating plan with distinct seat
    numbers: the roster has the seats of the plan, in its order; each seat
    holds an alive player with the role of the plan, no notes and an unused
    shot, who trusts every seat of the plan, its own included, at 50; a
    wolf's mates are the other wolves of the plan, in its order, and nobody
    else has mates; the witch alone has potions, one of each; nobody has
    spoken; the match is in round 1 and undecided. *)
Theorem GameMaster_new_roster (cfg : GameConfig) (rng0 : Z) :
  NoDup (seat_ids cfg) ->
  let g := GameMaster_new cfg rng0 in
  let wolves := map sc_seat_id
                  (List.filter (fun sc => Role_eqb (sc_role sc) WOLF) (seating_plan cfg)) in
  od_keys (players g) = seat_ids cfg /\
  round_no g = 1 /\ _result g = ongoing /\
  forall sc, sc ∈ seating_plan cfg ->
    exists p,
      od_get (sc_seat_id sc) (players g) = Some p /\
      seat_id p = sc_seat_id sc /\ role p = sc_role sc /\
      alive p = true /\ hunter_has_shot p = false /\ notes p = [] /\
      (forall s, s ∈ seat_ids cfg -> od_get s (trust p) = Some 50) /\
      wolf_mates (role_private p)
      = (if Role_eqb (sc_role sc) WOLF
         then List.filter (fun wid => negb (wid =? sc_seat_id sc)) wolves else []) /\
      potions (role_private p)
      = (if Role_eqb (sc_role sc) WITCH
         then Some {| heal_left := 1; poison_left := 1 |} else None) /\
      od_get (sc_seat_id sc) (_day_spoken g) = Some false.
Proof.
  intros Hnd g wolves. split; [apply GameMaster_new_keys, Hnd|].
  assert (Hfold : forall (f : GameMaster -> SeatConfig -> GameMaster) plan g0,
            (forall g sc, round_no (f g sc) = round_no g /\ _result (f g sc) = _result g) ->
            round_no (fold_left f plan g0) = round_no g0 /\
            _result (fold_left f plan g0) = _result g0).
  { intros f plan. induction plan as [|sc plan IH]; intros g0 Hf; simpl; [auto|].
    destruct (IH (f g0 sc) Hf) as [-> ->]. apply Hf. }
  split; [|split].
  - subst g. unfold GameMaster_new, _initialise_players.
    apply Hfold. intros; split; reflexivity.
  - subst g. unfold GameMaster_new, _initialise_players.
    apply Hfold. intros; split; reflexivity.
  - intros sc Hsc. subst g. unfold GameMaster_new, _initialise_players.
    match goal with
    | |- context [fold_left _ _ ?g0] =>
        destruct (initialise_players_get (map sc_seat_id (seating_plan cfg)) wolves
                    (seating_plan cfg) g0 sc Hnd Hsc) as [Hget Hspoken]
    end.
    eexists. split; [exact Hget|]. split; [reflexivity|]. split; [reflexivity|].
    split; [reflexivity|]. split; [reflexivity|]. split; [reflexivity|].
    split; [|split; [|split; [|exact Hspoken]]].
    + intros s Hs. unfold initial_player, ensure_trust_initialised. cbn [trust].
      rewrite trust_setdefault. simpl.
      rewrite bool_decide_eq_true_2 by exact Hs. reflexivity.
    + unfold initial_player. simpl. destruct (sc_role sc); reflexivity.
    + unfold initial_player. simpl. destruct (sc_role sc); reflexivity.
Qed.

(** The default configuration of [cli.py]. *)
Lemma GameMaster_new_roster_witness :
  od_keys (players (GameMaster_new build_default_config 42))
  = seat_ids build_default_config.
Proof.
  apply (GameMaster_new_roster build_default_config 42).
  apply (bool_decide_unpack (NoDup (seat_ids build_default_config))). vm_compute. exact I.
Defined.

(** ** One step of a game over the web *)

#[local] Instance keeps_game_overs_preorder : PreOrder keeps_game_overs.
Proof.
  split; [intros g; reflexivity|].
  intros g1 g2 g3 H12 H23. unfold keeps_game_overs in *. congruence.
Qed.

Section WebStep.
Context {U : Unicode} {E : Env}.

Lemma overs_send_stage seat stage expect :
  preserves keeps_game_overs (_send_stage seat stage expect).
Proof.
  intros g. unfold _send_stage. destruct (interact _ _ _ _ _).
  unfold keeps_game_overs, game_overs. simpl.
  rewrite List.filter_app, length_app. simpl. lia.
Qed.

Lemma overs_modify f :
  (forall g, stdout (f g) = stdout g) -> preserves keeps_game_overs (modify f).
Proof.
  intros Hf. apply preserves_modify. intros g.
  unfold keeps_game_overs, game_overs. rewrite Hf. reflexivity.
Qed.

Lemma overs_print p :
  (forall r, p <> P_game_over r) -> preserves keeps_game_overs (print p).
Proof.
  intros Hp g. unfold keeps_game_overs, game_overs. simpl.
  rewrite List.filter_app, length_app. simpl.
  destruct p; simpl; try lia. exfalso. eapply Hp. reflexivity.
Qed.

Lemma overs_rng_pick l : preserves keeps_game_overs (rng_pick l).
Proof. intros g. unfold rng_pick. destruct (rng_choice _ _). reflexivity. Qed.

Ltac overs :=
  preserves_steps;
  first [ apply overs_send_stage | apply overs_rng_pick
        | apply overs_modify; reflexivity
        | apply overs_print; discriminate
        | solve [auto] ].

Lemma overs_player_setattr seat f : preserves keeps_game_overs (player_setattr seat f).
Proof. unfold player_setattr. overs. Qed.

Lemma overs_outcome_setattr f : preserves keeps_game_overs (outcome_setattr f).
Proof. unfold outcome_setattr. overs. Qed.

Lemma overs_trigger_hunter seat cause :
  preserves keeps_game_overs (_trigger_hunter_if_needed seat cause).
Proof.
  pose proof overs_player_setattr.
  unfold _trigger_hunter_if_needed, on_chronicle. overs.
Qed.

Lemma overs_night_phase : preserves keeps_game_overs _night_phase.
Proof.
  pose proof overs_player_setattr. pose proof overs_outcome_setattr.
  unfold _night_phase, _night_wolves, _night_witch, wolf_turn, wolves_tally,
    mutate_potions, store_potions, send_briefing, log_event, on_chronicle.
  overs.
Qed.

Lemma overs_daybreak : preserves keeps_game_overs _daybreak.
Proof.
  pose proof overs_player_setattr. pose proof overs_trigger_hunter.
  unfold _daybreak, _resolve_deaths, on_chronicle. overs.
Qed.

Lemma overs_day_phase : preserves keeps_game_overs _day_phase.
Proof.
  pose proof overs_player_setattr. pose proof overs_trigger_hunter.
  unfold _day_phase, _voting, talk_turn, vote_turn, send_briefing, on_chronicle.
  overs.
Qed.

(** [_postgame] announces the end once. *)
Lemma postgame_game_overs g g' :
  _postgame g = Ret tt g' -> game_overs g' = (game_overs g + 1)%nat.
Proof.
  unfold _postgame. unfold bind at 1, get at 1. unfold bind at 1.
  match goal with
  | |- context [for_each ?l ?body g] =>
      assert (Hloop : preserves keeps_game_overs (for_each l body))
        by (apply preserves_for_each; [apply _|]; intros seat; overs);
      specialize (Hloop g); destruct (for_each l body g) as [[] g1|e g1];
        [|discriminate]
  end.
  simpl in Hloop. intros [= <-]. unfold game_overs in *. simpl.
  rewrite List.filter_app, length_app. simpl. unfold keeps_game_overs, game_overs in Hloop.
  lia.
Qed.

End WebStep.

Section WebStepTheorem.
Context {U : Unicode} {E : Env}.

Lemma board_verdict_players g g' :
  players g' = players g -> board_verdict g' = board_verdict g.
Proof.
  intros Hpl. unfold board_verdict, wolves_alive_count, villagers_alive_count.
  rewrite Hpl. reflexivity.
Qed.

Lemma round_Ret {A} (m : M A) g a g' :
  preserves keeps_round m -> preserves keeps_game_overs m -> m g = Ret a g' ->
  round_no g' = round_no g /\ game_overs g' = game_overs g.
Proof.
  intros Hr Ho Hret.
  destruct (preserves_Ret _ _ _ _ _ Hr Hret) as [Hround _].
  pose proof (preserves_Ret _ _ _ _ _ Ho Hret) as Hovers.
  split; assumption.
Qed.

Ltac run H := unfold bind at 1; rewrite H; cbv beta iota.

(** The [try] block of a step, phase by phase. *)
Lemma step_phases_returns st g :
  exists r g',
    Web.step_phases st g = Ret r g' /\
    match r with
    | inl (Web.finished_in _ res rn) =>
        res = _result g' /\ rn = round_no g' /\ round_no g' = round_no g /\
        game_overs g' = game_overs g /\
        _result g' = board_verdict g' /\ board_verdict g' <> ongoing
    | inl _ => False
    | inr st' =>
        round_no g' = round_no g + 1 /\
        ((st' = Web.status_finished /\ board_verdict g' <> ongoing /\
          _result g' = board_verdict g' /\ game_overs g' = (game_overs g + 1)%nat) \/
         (st' = st /\ board_verdict g' = ongoing /\ game_overs g' = game_overs g))
    end.
Proof.
  unfold Web.step_phases.
  destruct (night_phase_returns g) as (g1 & Hnight).
  destruct (round_Ret _ _ _ _ round_night_phase overs_night_phase Hnight) as [Hr1 Ho1].
  run Hnight.
  destruct (is_finished_board g1) as [[Hv1 Hf1] | [Hv1 Hf1]]; run Hf1.
  { unfold bind, get, ret. eexists _, _. split; [reflexivity|].
    split; [reflexivity|]. split; [reflexivity|]. split; [exact Hr1|].
    split; [exact Ho1|]. split; [reflexivity|exact Hv1]. }
  destruct (daybreak_returns g1) as (g2 & Hday).
  destruct (round_Ret _ _ _ _ round_daybreak overs_daybreak Hday) as [Hr2 Ho2].
  run Hday.
  destruct (is_finished_board g2) as [[Hv2 Hf2] | [Hv2 Hf2]]; run Hf2.
  { unfold bind, get, ret. eexists _, _. split; [reflexivity|].
    split; [reflexivity|]. split; [reflexivity|].
    split; [simpl; congruence|].
    split; [change (game_overs g2 = game_overs g); congruence|].
    split; [reflexivity|exact Hv2]. }
  destruct (day_phase_returns g2) as (g3 & Hphase).
  destruct (round_Ret _ _ _ _ round_day_phase overs_day_phase Hphase) as [Hr3 Ho3].
  run Hphase. unfold bind at 1, modify at 1.
  set (g4 := set_round_no (round_no g3 + 1) g3).
  assert (Hr4 : round_no g4 = round_no g + 1) by (simpl; lia).
  assert (Ho4 : game_overs g4 = game_overs g) by (unfold game_overs in *; simpl; lia).
  destruct (is_finished_board g4) as [[Hv4 Hf4] | [Hv4 Hf4]]; run Hf4.
  - set (g5 := set_result (board_verdict g4) g4).
    destruct (postgame_returns g5) as (g6 & Hpost & (Hpl & _ & Hr6 & _ & _ & _ & Hres6)).
    pose proof (postgame_game_overs g5 g6 Hpost) as Ho6.
    run Hpost. unfold ret. eexists _, _. split; [reflexivity|].
    assert (Hv6 : board_verdict g6 = board_verdict g4)
      by (rewrite (board_verdict_players g5 g6 Hpl); reflexivity).
    split; [rewrite Hr6; exact Hr4|]. left.
    split; [reflexivity|]. split; [congruence|]. split; [rewrite Hres6, Hv6; reflexivity|].
    rewrite Ho6. unfold game_overs in *. simpl in *. lia.
  - unfold ret. eexists _, _. split; [reflexivity|]. split; [exact Hr4|]. right. auto.
Qed.

(** X22.  One [POST /games/<id>/step] on a session that is not finished
    never answers 400 or 500 (no phase raises).  It plays at most one
    round, without looking at [max_rounds]: if the board is decided before
    the round, after the night or after daybreak, the step stops there with
    the round number unchanged and without the post-game stages, and no end
    of the game is announced; otherwise it plays the day, adds one to the
    round number, and runs [_postgame], once, exactly when the board is
    then decided.  Afterwards the session is finished exactly when the
    board is decided, and then [_result] is the verdict of the board. *)
Theorem step_game_round (s : Web.GameSession) :
  Web.status s <> Web.status_finished ->
  let g := Web.gm s in
  let g' := Web.gm (snd (Web.step_game s)) in
  let st' := Web.status (snd (Web.step_game s)) in
  (st' = Web.status_finished -> _result g' = board_verdict g' /\ _result g' <> ongoing) /\
  (st' <> Web.status_finished -> board_verdict g' = ongoing /\ st' = Web.status s) /\
  match fst (Web.step_game s) with
  | Web.already_finished | Web.failed _ => False
  | Web.finished_before r =>
      r = _result g' /\ st' = Web.status_finished /\
      round_no g' = round_no g /\ game_overs g' = game_overs g
  | Web.finished_in _ r rn =>
      r = _result g' /\ rn = round_no g' /\ st' = Web.status_finished /\
      round_no g' = round_no g /\ game_overs g' = game_overs g
  | Web.round_done st rn f =>
      st = st' /\ rn = round_no g /\ round_no g' = round_no g + 1 /\
      (f = true <-> st' = Web.status_finished) /\
      game_overs g' = (game_overs g + if f then 1 else 0)%nat
  end.
Proof.
  intros Hst g g' st'. subst g g' st'. destruct s as [g st]. simpl in Hst.
  assert (Hstep :
    Web.step_game {| Web.gm := g; Web.status := st |}
    = match _is_finished g with
      | Raise e g0 => (Web.failed e, {| Web.gm := g0; Web.status := st |})
      | Ret true g0 =>
          (Web.finished_before (_result g0),
           {| Web.gm := g0; Web.status := Web.status_finished |})
      | Ret false g0 =>
          match Web.step_phases st g0 with
          | Raise e g1 => (Web.failed e, {| Web.gm := g1; Web.status := st |})
          | Ret (inl response) g1 =>
              (response, {| Web.gm := g1; Web.status := Web.status_finished |})
          | Ret (inr st1) g1 =>
              match _is_finished g1 with
              | Raise e g2 => (Web.failed e, {| Web.gm := g2; Web.status := st1 |})
              | Ret finished g2 =>
                  (Web.round_done st1 (round_no g0) finished,
                   {| Web.gm := g2; Web.status := st1 |})
              end
          end
      end).
  { unfold Web.step_game. destruct st; [reflexivity|reflexivity|contradiction]. }
  rewrite Hstep. clear Hstep. cbn [Web.gm Web.status].
  destruct (is_finished_board g) as [[Hv ->] | [Hv ->]]; cbn [fst snd Web.gm Web.status].
  { split; [intros _; split; [reflexivity|exact Hv]|].
    split; [intros H; contradiction H; reflexivity|]. repeat split. }
  destruct (step_phases_returns st g) as (r & g1 & -> & Hr).
  destruct r as [[| |ph res rn| |]|st1]; try contradiction.
  - destruct Hr as (-> & -> & Hround & Hovers & Hres & Hd).
    cbn [fst snd Web.gm Web.status].
    split; [intros _; split; [exact Hres|congruence]|].
    split; [intros H; contradiction H; reflexivity|]. repeat split; assumption.
  - destruct Hr as [Hround [(-> & Hd & Hres & Hovers) | (-> & Hd & Hovers)]].
    + destruct (is_finished_board g1) as [[_ ->] | [Hd' _]]; [|congruence].
      cbn [fst snd Web.gm Web.status].
      split; [intros _; split; [reflexivity|exact Hd]|].
      split; [intros H; contradiction H; reflexivity|].
      split; [reflexivity|]. split; [reflexivity|]. split; [exact Hround|].
      split; [split; reflexivity|]. unfold game_overs in *. simpl. exact Hovers.
    + destruct (is_finished_board g1) as [[Hd' _] | [_ ->]]; [congruence|].
      cbn [fst snd Web.gm Web.status].
      split; [intros H; contradiction|].
      split; [intros _; split; [exact Hd|reflexivity]|].
      split; [reflexivity|]. split; [reflexivity|]. split; [exact Hround|].
      split; [split; [discriminate|intros H; contradiction]|]. rewrite Hovers. lia.
Qed.

End WebStepTheorem.

(** One step of the default match with the scripted agents. *)
Lemma step_game_round_witness :
  let s := {| Web.gm := default_match; Web.status := Web.status_running |} in
  let s' := snd (@Web.step_game unicode_sample env_demo s) in
  (Web.status s' = Web.status_finished ->
   _result (Web.gm s') = board_verdict (Web.gm s') /\ _result (Web.gm s') <> ongoing) /\
  (Web.status s' <> Web.status_finished ->
   board_verdict (Web.gm s') = ongoing /\ Web.status s' = Web.status_running).
Proof.
  intros s s'.
  destruct (@step_game_round unicode_sample env_demo s) as (Hfin & Hrun & _);
    [discriminate|].
  split; [exact Hfin|exact Hrun].
Defined.
